(** * Process lifecycle of [core/src/classes/process.ts]

    A shallow embedding of the [Process] class: discovery of initializers,
    the registry, the priority buckets and their flattening, and the
    [initialize] / [start] / [stop] / [restart] / [fatalError] methods as
    computations over an explicit world. *)

From Stdlib Require Import ZArith List Ascii String Sorted Permutation Lia.
From stdpp Require Import base option list sorting gmap strings fin_maps.

Local Open Scope Z_scope.

(** ** Data model *)

(** An [Error] object: a name, a message and a stack. *)
Record error := Error {
  err_name : string;
  err_message : string;
  err_stack : string
}.

(** [Error.prototype.toString]. *)
Definition error_toString (e : error) : string :=
  if String.eqb (err_name e) EmptyString then err_message e
  else if String.eqb (err_message e) EmptyString then err_name e
  else err_name e +:+ ": " +:+ err_message e.

(** [new Error(message)]; the frames of the stack are those of the host and
    are left out. *)
Definition new_Error (message : string) : error :=
  {| err_name := "Error"; err_message := message;
     err_stack := "Error: " +:+ message |}.

(** [new TypeError(message)] *)
Definition new_TypeError (message : string) : error :=
  {| err_name := "TypeError"; err_message := message;
     err_stack := "TypeError: " +:+ message |}.

(** The falsy values: [undefined], [null], [false], zero ([0], [-0] and
    [0n], which all print as [0]), [NaN] and the empty string. *)
Inductive falsy :=
| js_undefined
| js_null
| js_false
| js_zero
| js_NaN
| js_empty_string.

(** What is thrown, and what a promise rejects with: an [Error] object, or a
    falsy value, which the guards [if (errors)] of [fatalError] tell apart.
    (A truthy value that is not an [Error] passes every guard of the file as
    an [Error] does; such values are not modelled.) *)
Inductive thrown :=
| an_error (e : error)
| a_falsy (v : falsy).

Coercion an_error : error >-> thrown.
#[local] Arguments Some {A} & a.

(** [error.toString()] in a [catch (error)] block: the string, or the
    [TypeError] of calling a method of [undefined] or [null]. *)
Definition thrown_toString (value : thrown) : error + string :=
  match value with
  | an_error e => inr (error_toString e)
  | a_falsy js_undefined =>
      inl (new_TypeError
             "Cannot read properties of undefined (reading 'toString')")
  | a_falsy js_null =>
      inl (new_TypeError
             "Cannot read properties of null (reading 'toString')")
  | a_falsy js_false => inr "false"
  | a_falsy js_zero => inr "0"
  | a_falsy js_NaN => inr "NaN"
  | a_falsy js_empty_string => inr EmptyString
  end.

(** An asynchronous method of an initializer resolves, or rejects with what
    it throws. *)
Inductive method :=
| Resolves
| Rejects (error : thrown).

(** Modelled from the spec: the [Initializer] class of [./initializer], which
    is not among the sources. An instance has a name, three integer
    priorities, [validate()], which fails with a validation error when the
    instance is malformed ([Some e] when it throws [e]), and the optional
    asynchronous methods [initialize], [start] and [stop] ([None] when the
    property is not a function). *)
Module Initializer.
Record t := Build {
  name : string;
  loadPriority : Z;
  startPriority : Z;
  stopPriority : Z;
  validate : option error;
  initialize : option method;
  start : option method;
  stop : option method
}.
End Initializer.
Abbreviation Initializer := Initializer.t.

(** The functions held by [loadInitializers], [startInitializers] and
    [stopInitializers]: the three closures [initialize()] builds per
    instance (each closes over the instance and its file), and the closures
    [start()] and [stop()] push at the end of their lists. *)
Inductive step :=
| initializeFunction (initializer : Initializer) (file : string)
| startFunction (initializer : Initializer) (file : string)
| stopFunction (initializer : Initializer) (file : string)
| startTerminal
| stopTerminal.

(** ** Numbers as property names *)

Definition is_digit (a : ascii) : bool :=
  ((48 <=? N_of_ascii a) && (N_of_ascii a <=? 57))%N.

(** The decimal notation of a natural number, written from its last digit
    to its first in front of [rest]. *)
Fixpoint decimal_from (fuel : nat) (n : N) (rest : string) : string :=
  match fuel with
  | O => rest
  | S fuel =>
      let rest := String (ascii_of_N (48 + n mod 10)) rest in
      if (n / 10 =? 0)%N then rest else decimal_from fuel (n / 10) rest
  end.

Definition decimal (n : N) : string :=
  decimal_from (S (N.to_nat (N.log2 n))) n EmptyString.

(** A string of digits without the zeros it ends with. *)
Fixpoint strip_zeros (digits : string) : string :=
  match digits with
  | EmptyString => EmptyString
  | String a digits' =>
      let rest := strip_zeros digits' in
      if Ascii.eqb a "0" && String.eqb rest EmptyString then EmptyString
      else String a rest
  end.

(** [1e+21], [1.5e+21], ...: the first digit, the other digits that count
    after a point, and the exponent. *)
Definition exponent_notation (n : N) : string :=
  match decimal n with
  | EmptyString => EmptyString
  | String a digits =>
      let fraction := strip_zeros digits in
      String a
        ((if String.eqb fraction EmptyString then EmptyString
          else "." +:+ fraction)
         +:+ "e+" +:+ decimal (N.of_nat (String.length digits)))
  end.

(** The name of the property a number is used as ([String(n)]), for an
    integer: decimal notation below [10^21] and exponent notation from there
    on, whose digits are taken here from the integer itself. *)
Definition Number_toString (n : Z) : string :=
  let magnitude := Z.to_N (Z.abs n) in
  let notation :=
    if (magnitude <? 10 ^ 21)%N then decimal magnitude
    else exponent_notation magnitude in
  if n <? 0 then String "-" notation else notation.

(** The number the digits a string starts with spell. *)
Fixpoint leading_digits (acc : N) (s : string) : N :=
  match s with
  | EmptyString => acc
  | String a s' =>
      if is_digit a then leading_digits (acc * 10 + (N_of_ascii a - 48)) s'
      else acc
  end.

Definition starts_with_digit (s : string) : bool :=
  match s with
  | EmptyString => false
  | String a _ => is_digit a
  end.

(** [parseInt(s)] for a string that starts with neither white space nor a
    radix prefix, as the names of numbers: an optional sign and the digits up
    to the first character that is not one; [None] is [NaN]. *)
Definition parseInt (s : string) : option Z :=
  match s with
  | EmptyString => None
  | String a s' =>
      if Ascii.eqb a "-" then
        if starts_with_digit s' then Some (- Z.of_N (leading_digits 0 s'))
        else None
      else if Ascii.eqb a "+" then
        if starts_with_digit s' then Some (Z.of_N (leading_digits 0 s'))
        else None
      else
        if starts_with_digit s then Some (Z.of_N (leading_digits 0 s))
        else None
  end.

(** ** Priority buckets and [flattenOrderedInitializer] *)

Section Flatten.
Context {A : Type}.

(** [keys.forEach(key => collection[key].forEach(d => output.push(d)))];
    reading a bucket that is not there is a [TypeError] ([None]). *)
Fixpoint flatten_forEach (collection : gmap Z (list A)) (keys : list Z)
    (output : list A) : option (list A) :=
  match keys with
  | [] => Some output
  | key :: keys' =>
      match collection !! key with
      | Some bucket => flatten_forEach collection keys' (output ++ bucket)
      | None => None
      end
  end.

(** [for (const key in collection) keys.push(parseInt(key))]: a bucket is
    the property named by its priority, and the key pushed is what
    [parseInt] reads of that name; [None] when one of them is [NaN], which
    names no bucket. *)
Definition parsed_keys (collection : gmap Z (list A)) : option (list Z) :=
  mapM (λ key, parseInt (Number_toString key)) (map_to_list collection).*1.

(** [keys.sort(sortNumber)] with [sortNumber(a, b) = a - b]; the order in
    which [for ... in] visits the names is lost in the sort. *)
Definition flattenOrderedInitializer (collection : gmap Z (list A))
    : option (list A) :=
  keys ← parsed_keys collection;
  flatten_forEach collection (merge_sort Z.le keys) [].
End Flatten.

(** Lines 205-227 for one of the three maps: the bucket of the priority is
    created when it is not there, and the wrapper is pushed onto it only
    when the priority is positive. *)
Section Bucket.
Context {B : Type}.

Definition ensure_bucket (ranking : gmap Z (list B)) (p : Z)
    : gmap Z (list B) :=
  match ranking !! p with
  | None => <[p := []]> ranking
  | Some _ => ranking
  end.

Definition bucket_push (ranking : gmap Z (list B)) (p : Z) (f : B)
    : gmap Z (list B) :=
  alter (λ bucket, bucket ++ [f]) p ranking.

Definition rank (ranking : gmap Z (list B)) (p : Z) (f : B)
    : gmap Z (list B) :=
  let ranking := ensure_bucket ranking p in
  if 0 <? p then bucket_push ranking p f else ranking.
End Bucket.

(** The three local maps of [initialize()]. *)
Record rankings := Rankings {
  loadInitializerRankings : gmap Z (list step);
  startInitializerRankings : gmap Z (list step);
  stopInitializerRankings : gmap Z (list step)
}.

Definition empty_rankings : rankings := Rankings ∅ ∅ ∅.

Definition schedule (r : rankings) (initializer : Initializer) (file : string)
    : rankings :=
  {| loadInitializerRankings :=
       rank (loadInitializerRankings r)
         (Initializer.loadPriority initializer)
         (initializeFunction initializer file);
     startInitializerRankings :=
       rank (startInitializerRankings r)
         (Initializer.startPriority initializer)
         (startFunction initializer file);
     stopInitializerRankings :=
       rank (stopInitializerRankings r)
         (Initializer.stopPriority initializer)
         (stopFunction initializer file) |}.

(** ** JavaScript objects used as maps *)

(** Own properties in creation order; [for ... in] visits the keys that are
    array indices first, in ascending order, then the others in creation
    order. *)
Definition jsobj (V : Type) : Type := list (string * V).

(** [o[k] = v] for a name [k] other than [__proto__]: the property keeps its
    place when it is there and is created last when it is not. *)
Fixpoint obj_set {V} (o : jsobj V) (k : string) (v : V) : jsobj V :=
  match o with
  | [] => [(k, v)]
  | (k', v') :: o' =>
      if String.eqb k k' then (k, v) :: o' else (k', v') :: obj_set o' k v
  end.

Fixpoint digits_value (acc : N) (s : string) : option N :=
  match s with
  | EmptyString => Some acc
  | String a s' =>
      if is_digit a then digits_value (acc * 10 + (N_of_ascii a - 48))%N s'
      else None
  end.

(** A canonical numeric string below [2^32 - 1]. *)
Definition array_index (s : string) : option N :=
  match s with
  | EmptyString => None
  | String a s' =>
      if Ascii.eqb a "0" && negb (String.eqb s' EmptyString) then None
      else match digits_value 0 s with
           | Some n => if (n <? 2 ^ 32 - 1)%N then Some n else None
           | None => None
           end
  end.

Definition index_entries {V} (o : jsobj V) : list (N * (string * V)) :=
  omap (λ kv, (λ n, (n, kv)) <$> array_index kv.1) o.

Definition index_le {V} (a b : N * (string * V)) : Prop := (a.1 ≤ b.1)%N.

#[global] Instance index_le_dec {V} : RelDecision (@index_le V).
Proof. intros a b. unfold index_le. apply _. Defined.

Definition for_in {V} (o : jsobj V) : list (string * V) :=
  (merge_sort index_le (index_entries o)).*2
  ++ filter (λ kv, array_index kv.1 = None) o.

(** The properties every plain object inherits from [Object.prototype]; a
    read through the registry finds them (all truthy) when it has no own
    property of that name. *)
Definition Object_prototype : list string :=
  [ "constructor"; "__defineGetter__"; "__defineSetter__"; "hasOwnProperty";
    "__lookupGetter__"; "__lookupSetter__"; "isPrototypeOf";
    "propertyIsEnumerable"; "toString"; "valueOf"; "__proto__";
    "toLocaleString" ].

Definition inherited (k : string) : bool :=
  bool_decide (k ∈ Object_prototype).

(** ** Collaborators and the world *)

(** What [new InitializerClass()] does. *)
Inductive constructor :=
| Throws (error : thrown)
| Constructs (initializer : Initializer).

(** What [require(file)] gives: an exception, a bare function (the old
    single default export) or an object of exports in [for ... in] order. *)
Inductive module :=
| RequireThrows (error : thrown)
| ExportedFunction (c : constructor)
| ExportedClasses (exports : list (string * constructor)).

(** The collaborators the class only reads: [env], [id], the clock, [path],
    [fs], [glob], [require] and [config.general.paths.initializer]. *)
Record Host := {
  env : string;
  id : string;
  now : Z;
  dirname : string;
  path_join : list string → string;
  path_normalize : string → string;
  existsSync : string → bool;
  glob_sync : string → list string;
  require_ : string → module;
  config_general_paths_initializer : list string
}.

(** A plugin descriptor: its [path] and its other properties, strings
    here. *)
Record plugin := Plugin {
  path : string;
  metadata : list (string * string)
}.

(** The fields of the [Process] object; a flag that was never assigned is
    [None]. [plugins] holds the own properties of [this.plugins], and
    [plugins_prototype] the descriptor that was made its prototype, if one
    was; otherwise the prototype is [Object.prototype]. *)
Record Process := {
  running : option bool;
  initialized : option bool;
  shuttingDown : option bool;
  bootTime : option Z;
  initializers : gmap string Initializer;
  startCount : Z;
  loadInitializers : list step;
  startInitializers : list step;
  stopInitializers : list step;
  plugins : jsobj plugin;
  plugins_prototype : option plugin
}.

(** One call of [log(message, severity, data)]. *)
Record LogEntry := Log {
  message : string;
  severity : string;
  data : option string
}.

(** A call of a method of an initializer instance. *)
Inductive call :=
| validate_call (initializer : Initializer)
| initialize_call (initializer : Initializer)
| start_call (initializer : Initializer)
| stop_call (initializer : Initializer).

(** The world: the [Process] object, [api.running], what was logged, the
    methods of initializers invoked so far, the PID file, the [type]
    arguments of the [fatalError] calls that were not awaited, and the
    host. *)
Record World := {
  this : Process;
  api_running : option bool;
  logged : list LogEntry;
  invoked : list call;
  pidFile : bool;
  detached : list string;
  host : Host
}.

Definition set_running (v : option bool) (p : Process) : Process :=
  {| running := v; initialized := initialized p;
     shuttingDown := shuttingDown p; bootTime := bootTime p;
     initializers := initializers p; startCount := startCount p;
     loadInitializers := loadInitializers p;
     startInitializers := startInitializers p;
     stopInitializers := stopInitializers p; plugins := plugins p;
     plugins_prototype := plugins_prototype p |}.

Definition set_initialized (v : option bool) (p : Process) : Process :=
  {| running := running p; initialized := v;
     shuttingDown := shuttingDown p; bootTime := bootTime p;
     initializers := initializers p; startCount := startCount p;
     loadInitializers := loadInitializers p;
     startInitializers := startInitializers p;
     stopInitializers := stopInitializers p; plugins := plugins p;
     plugins_prototype := plugins_prototype p |}.

Definition set_shuttingDown (v : option bool) (p : Process) : Process :=
  {| running := running p; initialized := initialized p;
     shuttingDown := v; bootTime := bootTime p;
     initializers := initializers p; startCount := startCount p;
     loadInitializers := loadInitializers p;
     startInitializers := startInitializers p;
     stopInitializers := stopInitializers p; plugins := plugins p;
     plugins_prototype := plugins_prototype p |}.

Definition set_bootTime (v : option Z) (p : Process) : Process :=
  {| running := running p; initialized := initialized p;
     shuttingDown := shuttingDown p; bootTime := v;
     initializers := initializers p; startCount := startCount p;
     loadInitializers := loadInitializers p;
     startInitializers := startInitializers p;
     stopInitializers := stopInitializers p; plugins := plugins p;
     plugins_prototype := plugins_prototype p |}.

Definition set_initializers (v : gmap string Initializer) (p : Process)
    : Process :=
  {| running := running p; initialized := initialized p;
     shuttingDown := shuttingDown p; bootTime := bootTime p;
     initializers := v; startCount := startCount p;
     loadInitializers := loadInitializers p;
     startInitializers := startInitializers p;
     stopInitializers := stopInitializers p; plugins := plugins p;
     plugins_prototype := plugins_prototype p |}.

Definition set_startCount (v : Z) (p : Process) : Process :=
  {| running := running p; initialized := initialized p;
     shuttingDown := shuttingDown p; bootTime := bootTime p;
     initializers := initializers p; startCount := v;
     loadInitializers := loadInitializers p;
     startInitializers := startInitializers p;
     stopInitializers := stopInitializers p; plugins := plugins p;
     plugins_prototype := plugins_prototype p |}.

Definition set_loadInitializers (v : list step) (p : Process) : Process :=
  {| running := running p; initialized := initialized p;
     shuttingDown := shuttingDown p; bootTime := bootTime p;
     initializers := initializers p; startCount := startCount p;
     loadInitializers := v;
     startInitializers := startInitializers p;
     stopInitializers := stopInitializers p; plugins := plugins p;
     plugins_prototype := plugins_prototype p |}.

Definition set_startInitializers (v : list step) (p : Process) : Process :=
  {| running := running p; initialized := initialized p;
     shuttingDown := shuttingDown p; bootTime := bootTime p;
     initializers := initializers p; startCount := startCount p;
     loadInitializers := loadInitializers p;
     startInitializers := v;
     stopInitializers := stopInitializers p; plugins := plugins p;
     plugins_prototype := plugins_prototype p |}.

Definition set_stopInitializers (v : list step) (p : Process) : Process :=
  {| running := running p; initialized := initialized p;
     shuttingDown := shuttingDown p; bootTime := bootTime p;
     initializers := initializers p; startCount := startCount p;
     loadInitializers := loadInitializers p;
     startInitializers := startInitializers p;
     stopInitializers := v; plugins := plugins p;
     plugins_prototype := plugins_prototype p |}.

Definition set_plugins (v : jsobj plugin) (p : Process) : Process :=
  {| running := running p; initialized := initialized p;
     shuttingDown := shuttingDown p; bootTime := bootTime p;
     initializers := initializers p; startCount := startCount p;
     loadInitializers := loadInitializers p;
     startInitializers := startInitializers p;
     stopInitializers := stopInitializers p; plugins := v;
     plugins_prototype := plugins_prototype p |}.

Definition set_plugins_prototype (v : option plugin) (p : Process)
    : Process :=
  {| running := running p; initialized := initialized p;
     shuttingDown := shuttingDown p; bootTime := bootTime p;
     initializers := initializers p; startCount := startCount p;
     loadInitializers := loadInitializers p;
     startInitializers := startInitializers p;
     stopInitializers := stopInitializers p; plugins := plugins p;
     plugins_prototype := v |}.

Definition on_this (f : Process → Process) (w : World) : World :=
  {| this := f (this w); api_running := api_running w; logged := logged w;
     invoked := invoked w; pidFile := pidFile w; detached := detached w;
     host := host w |}.

Definition set_api_running (v : option bool) (w : World) : World :=
  {| this := this w; api_running := v; logged := logged w;
     invoked := invoked w; pidFile := pidFile w; detached := detached w;
     host := host w |}.

Definition add_logged (entry : LogEntry) (w : World) : World :=
  {| this := this w; api_running := api_running w;
     logged := logged w ++ [entry];
     invoked := invoked w; pidFile := pidFile w; detached := detached w;
     host := host w |}.

Definition add_invoked (c : call) (w : World) : World :=
  {| this := this w; api_running := api_running w; logged := logged w;
     invoked := invoked w ++ [c]; pidFile := pidFile w;
     detached := detached w; host := host w |}.

Definition set_pidFile (v : bool) (w : World) : World :=
  {| this := this w; api_running := api_running w; logged := logged w;
     invoked := invoked w; pidFile := v; detached := detached w;
     host := host w |}.

Definition add_detached (type : string) (w : World) : World :=
  {| this := this w; api_running := api_running w; logged := logged w;
     invoked := invoked w; pidFile := pidFile w;
     detached := detached w ++ [type]; host := host w |}.

(** ** Computations *)

(** A computation ends by returning (an [async] function resolves), by
    throwing (it rejects), or in [process.exit]; [OutOfFuel] is the bound on
    the depth of the calls between [fatalError] and [stop] running out. *)
Inductive outcome (A : Type) :=
| Returned (a : A) (w : World)
| Thrown (error : thrown) (w : World)
| Exited (code : Z) (w : World)
| OutOfFuel.
Arguments Returned {A} a w.
Arguments Thrown {A} error w.
Arguments Exited {A} code w.
Arguments OutOfFuel {A}.

Definition M (A : Type) : Type := World → outcome A.

Definition ret {A} (a : A) : M A := λ w, Returned a w.

Definition bind {A B} (m : M A) (k : A → M B) : M B :=
  λ w, match m w with
       | Returned a w' => k a w'
       | Thrown e w' => Thrown e w'
       | Exited code w' => Exited code w'
       | OutOfFuel => OutOfFuel
       end.

Declare Scope proc_scope.
Delimit Scope proc_scope with proc.
Notation "x <- m ;; k" := (bind m (λ x, k))
  (at level 100, m at next level, right associativity) : proc_scope.
Notation "m ;; k" := (bind m (λ _, k))
  (at level 100, right associativity) : proc_scope.
Local Open Scope proc_scope.

Definition get : M World := λ w, Returned w w.
Definition modify (f : World → World) : M unit := λ w, Returned tt (f w).
Definition throw {A} (error : thrown) : M A := λ w, Thrown error w.
Definition process_exit {A} (code : Z) : M A := λ w, Exited code w.
Definition out_of_fuel {A} : M A := λ _, OutOfFuel.

(** [try { m } catch (error) { handler }] *)
Definition try_catch {A} (m : M A) (handler : thrown → M A) : M A :=
  λ w, match m w with
       | Thrown e w' => handler e w'
       | o => o
       end.

(** [list.forEach(f)] *)
Fixpoint forEach {A} (l : list A) (f : A → M unit) : M unit :=
  match l with
  | [] => ret tt
  | x :: l' => f x;; forEach l' f
  end.

(** Modelled from the spec: [log] of [../modules/log], which is not among the
    sources, by its call contract [log(message, severity, detail?)]; the
    call is recorded and succeeds. *)
Definition log (message severity : string) (data : option string) : M unit :=
  modify (add_logged (Log message severity data)).

(** Modelled from the spec: [utils.sleep], which is not among the sources; a
    pause, and time is not part of the world. *)
Definition sleep (ms : Z) : M unit := ret tt.

(** Modelled from the spec: [writePidFile] and [clearPidFile] of
    [./process/pid], which are not among the sources; they set and clear the
    PID marker. *)
Definition writePidFile : M unit := modify (set_pidFile true).

Definition clearPidFile : M unit := modify (set_pidFile false).

(** [await initializer.method()] *)
Definition await_method (c : call) (m : method) : M unit :=
  modify (add_invoked c);;
  match m with
  | Resolves => ret tt
  | Rejects error => throw error
  end.

(** [error.toString()] as an argument of a call: the call is not made when
    it throws. *)
Definition toString (error : thrown) : M string :=
  match thrown_toString error with
  | inl e => throw e
  | inr s => ret s
  end.

(** JavaScript truthiness of a flag that is [undefined], [false] or
    [true]. *)
Definition truthy (flag : option bool) : bool :=
  match flag with
  | Some true => true
  | _ => false
  end.

Definition dquote : ascii := "034"%char.

Definition hex_digit (n : N) : ascii :=
  if (n <? 10)%N then ascii_of_N (48 + n) else ascii_of_N (87 + n).

(** How [JSON.stringify] writes one character of a string: the quote and
    the backslash are escaped, the control characters have their short
    escape or [\u00XX], and every other character stands for itself. *)
Definition JSON_escape_char (a : ascii) : string :=
  if Ascii.eqb a dquote || Ascii.eqb a "\"
  then String "\" (String a EmptyString)
  else
    match N_of_ascii a with
    | 8%N => "\b"
    | 9%N => "\t"
    | 10%N => "\n"
    | 12%N => "\f"
    | 13%N => "\r"
    | n =>
        if (n <? 32)%N
        then "\u00" +:+ String (hex_digit (n / 16))
                         (String (hex_digit (n mod 16)) EmptyString)
        else String a EmptyString
    end.

Fixpoint JSON_escape (s : string) : string :=
  match s with
  | EmptyString => EmptyString
  | String a s' => JSON_escape_char a +:+ JSON_escape s'
  end.

(** [JSON.stringify] of a string. *)
Definition JSON_stringify (s : string) : string :=
  String dquote (JSON_escape s +:+ String dquote EmptyString).

(** [console.error]: the standard error stream is not part of the world. *)
Definition console_error (message : string) : M unit := ret tt.

(** ** The phase functions *)

Definition run_initializeFunction (initializer : Initializer) (file : string)
    : M unit :=
  match Initializer.initialize initializer with
  | Some m =>
      log ("Loading initializer: " +:+ Initializer.name initializer)
          "debug" (Some file);;
      try_catch
        (await_method (initialize_call initializer) m;;
         try_catch
           (log ("Loaded initializer: " +:+ Initializer.name initializer)
                "debug" (Some file))
           (λ _, ret tt))
        (λ error,
           let message :=
             "Exception occurred in initializer `"
             +:+ Initializer.name initializer +:+ "` during load" in
           try_catch (detail <- toString error;;
                      log message "emerg" (Some detail))
                     (λ _, console_error message);;
           throw error)
  | None => ret tt
  end.

Definition run_startFunction (initializer : Initializer) (file : string)
    : M unit :=
  match Initializer.start initializer with
  | Some m =>
      log ("Starting initializer: " +:+ Initializer.name initializer)
          "debug" (Some file);;
      try_catch
        (await_method (start_call initializer) m;;
         log ("Started initializer: " +:+ Initializer.name initializer)
             "debug" (Some file))
        (λ error,
           detail <- toString error;;
           log ("Exception occurred in initializer `"
                +:+ Initializer.name initializer +:+ "` during start")
               "emerg" (Some detail);;
           throw error)
  | None => ret tt
  end.

Definition run_stopFunction (initializer : Initializer) (file : string)
    : M unit :=
  match Initializer.stop initializer with
  | Some m =>
      log ("Stopping initializer: " +:+ Initializer.name initializer)
          "debug" (Some file);;
      try_catch
        (await_method (stop_call initializer) m;;
         log ("Stopped initializer: " +:+ Initializer.name initializer)
             "debug" (Some file))
        (λ error,
           detail <- toString error;;
           log ("Exception occurred in initializer `"
                +:+ Initializer.name initializer +:+ "` during stop")
               "emerg" (Some detail);;
           throw error)
  | None => ret tt
  end.

(** The function [start()] pushes onto [startInitializers]. *)
Definition run_startTerminal : M unit :=
  w <- get;;
  modify (on_this (set_bootTime (Some (now (host w)))));;
  if startCount (this w) =? 0 then
    log ("server ID: " +:+ id (host w)) "notice" None;;
    log "*** ActionHero Started ***" "notice" None;;
    modify (on_this (set_startCount (startCount (this w) + 1)))
  else
    log "*** ActionHero Restarted ***" "notice" None.

(** The function [stop()] pushes onto [stopInitializers]. *)
Definition run_stopTerminal : M unit :=
  clearPidFile;;
  log "*** ActionHero Stopped ***" "notice" None;;
  modify (on_this (set_shuttingDown None));;
  modify (on_this (set_initializers ∅));;
  modify (set_api_running (Some false));;
  sleep 100.

Definition run_step (s : step) : M unit :=
  match s with
  | initializeFunction initializer file =>
      run_initializeFunction initializer file
  | startFunction initializer file => run_startFunction initializer file
  | stopFunction initializer file => run_stopFunction initializer file
  | startTerminal => run_startTerminal
  | stopTerminal => run_stopTerminal
  end.

(** Modelled from the spec: [utils.asyncWaterfall], which is not among the
    sources. The steps of a flattened phase list run strictly one at a time,
    each after the previous one has completed, and a step that rejects aborts
    the remaining ones. The spec does not say what the call leaves in the
    array: it is left as it is, and the theorems on the lifecycle do not
    depend on what a list holds after it has been run. *)
Fixpoint asyncWaterfall (jobs : list step) : M unit :=
  match jobs with
  | [] => ret tt
  | job :: jobs' => run_step job;; asyncWaterfall jobs'
  end.

(** ** [fatalError] and [stop] *)

(** The [errors] argument of [fatalError]: nothing, one value that was
    caught, or an array of errors. *)
Inductive errors_arg :=
| no_errors
| single_error (error : thrown)
| error_array (l : list error).

(** [if (errors && !(errors instanceof Array)) errors = [errors]]: a falsy
    value stays what it is. *)
Definition normalize_errors (errors : errors_arg) : errors_arg :=
  match errors with
  | single_error (an_error e) => error_array [e]
  | _ => errors
  end.

(** [fatalError] calls [stop], and [stop] calls [fatalError] when a step of
    the stop list rejects; [fuel] bounds the depth of these calls. *)
Fixpoint fatalError (fuel : nat) (errors : errors_arg) (type : string)
    : M unit :=
  match fuel with
  | O => out_of_fuel
  | S fuel =>
      match normalize_errors errors with
      | error_array errors =>
          log ("Error with initializer step: " +:+ JSON_stringify type)
              "emerg" None;;
          forEach errors (λ error, log (err_stack error) "emerg" None);;
          stop fuel;;
          sleep 1000;;
          process_exit 1
      | _ => ret tt
      end
  end
with stop (fuel : nat) : M unit :=
  match fuel with
  | O => out_of_fuel
  | S fuel =>
      w <- get;;
      if truthy (running (this w)) then
        modify (on_this (set_shuttingDown (Some true)));;
        modify (on_this (set_running (Some false)));;
        modify (on_this (set_initialized (Some false)));;
        log "stopping process..." "notice" None;;
        sleep 100;;
        modify (on_this (λ p,
          set_stopInitializers (stopInitializers p ++ [stopTerminal]) p));;
        w <- get;;
        try_catch (asyncWaterfall (stopInitializers (this w)))
                  (λ error, fatalError fuel (single_error error) "stop")
      else if bool_decide (shuttingDown (this w) = Some true) then
        ret tt
      else
        log "Cannot shut down actionhero, not running" "error" None
  end.

(** A call [this.fatalError(errors, type)] that is not awaited: the caller
    goes on as soon as the call first suspends, which is in
    [await this.stop()], after [stop] itself has run up to its first
    [await]. The rest of both (the stop list, the pause, [process.exit(1)])
    runs later; the model records the call in [detached] and does not
    schedule that rest. *)
Definition stop_until_await : M unit :=
  w <- get;;
  if truthy (running (this w)) then
    modify (on_this (set_shuttingDown (Some true)));;
    modify (on_this (set_running (Some false)));;
    modify (on_this (set_initialized (Some false)));;
    log "stopping process..." "notice" None
  else if bool_decide (shuttingDown (this w) = Some true) then
    ret tt
  else
    log "Cannot shut down actionhero, not running" "error" None.

Definition fatalError_detached (errors : errors_arg) (type : string)
    : M unit :=
  match normalize_errors errors with
  | error_array errors =>
      log ("Error with initializer step: " +:+ JSON_stringify type)
          "emerg" None;;
      forEach errors (λ error, log (err_stack error) "emerg" None);;
      stop_until_await;;
      modify (add_detached type)
  | _ => ret tt
  end.

(** ** [initialize]: discovery *)

(** Lines 91-107: the loop over [this.plugins]. *)
Fixpoint discover_plugins (h : Host) (entries : list (string * plugin))
    (initializerFiles : list string) : M (list string) :=
  match entries with
  | [] => ret initializerFiles
  | (pluginName, descriptor) :: entries' =>
      let pluginPath := path_normalize h (path descriptor) in
      if negb (existsSync h pluginPath) then
        throw (new_Error ("plugin path does not exist: " +:+ pluginPath))
      else
        let initializerFiles :=
          initializerFiles ++
          glob_sync h (path_join h [pluginPath; "initializers"; "**"; "*.js"])
        in
        let initializerFiles :=
          initializerFiles ++
          glob_sync h
            (path_join h [pluginPath; "dist"; "initializers"; "**"; "*.js"])
        in
        discover_plugins h entries' initializerFiles
  end.

(** The names [for ... in] visits after the own ones: the properties of a
    descriptor that was made the prototype of [this.plugins] (its [path] and
    the others), as far as no own property has the name. *)
Definition inherited_names (p : Process) : list string :=
  match plugins_prototype p with
  | Some descriptor =>
      filter (λ name, name ∉ (plugins p).*1)
             ("path" :: (metadata descriptor).*1)
  | None => []
  end.

(** What [path.normalize] throws when its argument is [undefined]. *)
Definition path_argument_undefined : error :=
  new_TypeError
    ("The " +:+ String dquote "path" +:+ String dquote
       " argument must be of type string. Received undefined").

(** Lines 91-107 for an inherited name: [this.plugins[pluginName]] is then a
    property of the descriptor, a string, whose [path] is [undefined], and
    [path.normalize] throws. *)
Definition discover_inherited (names : list string) : M unit :=
  match names with
  | [] => ret tt
  | _ :: _ => throw path_argument_undefined
  end.

(** Modelled from the spec: [utils.arrayUnique], which is not among the
    sources; it deduplicates the list (here: keeping first occurrences). *)
Fixpoint arrayUnique_seen (seen l : list string) : list string :=
  match l with
  | [] => []
  | x :: l' =>
      if bool_decide (x ∈ seen) then arrayUnique_seen seen l'
      else x :: arrayUnique_seen (x :: seen) l'
  end.

Definition arrayUnique (l : list string) : list string :=
  arrayUnique_seen [] l.

Definition ends_with (suffix s : string) : bool :=
  let n := String.length s in
  let k := String.length suffix in
  (k <=? n)%nat && String.eqb (substring (n - k) k s) suffix.

(** Modelled from the spec: [utils.ensureNoTsHeaderFiles], which is not among
    the sources; it drops the type-declaration files. *)
Definition ensureNoTsHeaderFiles (l : list string) : list string :=
  List.filter (λ f, negb (ends_with ".d.ts" f)) l.

Definition discover : M (list string) :=
  w <- get;;
  let h := host w in
  let initializerFiles : list string := [] in
  let initializerFiles :=
    initializerFiles ++
    glob_sync h
      (path_join h [dirname h; ".."; "initializers"; "**"; "**/*(*.js|*.ts)"])
  in
  let initializerFiles :=
    foldl (λ initializerFiles startPath,
             initializerFiles ++
             glob_sync h (path_join h [startPath; "**"; "**/*(*.js|*.ts)"]))
          initializerFiles (config_general_paths_initializer h) in
  initializerFiles <-
    discover_plugins h (for_in (plugins (this w))) initializerFiles;;
  discover_inherited (inherited_names (this w));;
  let initializerFiles := arrayUnique initializerFiles in
  let initializerFiles := ensureNoTsHeaderFiles initializerFiles in
  ret initializerFiles.

(** ** [initialize]: the registry *)

(** [registry[name]] read as a condition: an own property, or one that
    every object inherits. *)
Definition has_property (registry : gmap string Initializer) (name : string)
    : bool :=
  bool_decide (is_Some (registry !! name)) || inherited name.

(** [this.initializers[name]] read as a condition. *)
Definition registered (w : World) (name : string) : bool :=
  has_property (initializers (this w)) name.

Definition undefined_initializer : error :=
  {| err_name := "TypeError";
     err_message :=
       "Cannot read properties of undefined (reading 'loadPriority')";
     err_stack :=
       "TypeError: Cannot read properties of undefined (reading 'loadPriority')"
  |}.

(** Line 138. *)
Definition warningMessage (initializer : Initializer) (file : string)
    : string :=
  "an existing initializer with the same name `"
  +:+ Initializer.name initializer
  +:+ "` will be overridden by the file " +:+ file.

(** Lines 131-146: the value of [initializer] after the [try]. *)
Definition instantiate (file : string) (InitializerClass : constructor)
    : M (option Initializer) :=
  match InitializerClass with
  | Throws error =>
      fatalError_detached (single_error error) file;;
      ret None
  | Constructs initializer =>
      try_catch
        (w <- get;;
         if registered w (Initializer.name initializer) then
           log (warningMessage initializer file) "warning" None
         else
           modify (add_invoked (validate_call initializer));;
           match Initializer.validate initializer with
           | Some error => throw error
           | None =>
               modify (on_this (λ p,
                 set_initializers
                   (<[Initializer.name initializer := initializer]>
                      (initializers p)) p))
           end)
        (λ error, fatalError_detached (single_error error) file);;
      ret (Some initializer)
  end.

(** Lines 130-228: the body of the loop over the exports of one file. *)
Definition load_export (file : string) (InitializerClass : constructor)
    (r : rankings) : M rankings :=
  initializer <- instantiate file InitializerClass;;
  match initializer with
  | None => throw undefined_initializer
  | Some initializer => ret (schedule r initializer file)
  end.

Fixpoint load_exports (file : string)
    (exportedClasses : list (string * constructor)) (r : rankings)
    : M rankings :=
  match exportedClasses with
  | [] => ret r
  | (exportKey, InitializerClass) :: rest =>
      r <- load_export file InitializerClass r;;
      load_exports file rest r
  end.

(** Lines 112-229: the body of [initializerFiles.forEach]. *)
Definition load_file (f : string) (r : rankings) : M rankings :=
  w <- get;;
  let file := path_normalize (host w) f in
  exportedClasses <-
    match require_ (host w) file with
    | RequireThrows error => throw error
    | ExportedFunction c => ret [("default", c)]
    | ExportedClasses exports => ret exports
    end;;
  (if (length exportedClasses =? 0)%nat then
     fatalError_detached
       (single_error
          (new_Error ("no exported initializers found in " +:+ file)))
       file
   else ret tt);;
  load_exports file exportedClasses r.

Fixpoint load_files (initializerFiles : list string) (r : rankings)
    : M rankings :=
  match initializerFiles with
  | [] => ret r
  | f :: rest =>
      r <- load_file f r;;
      load_files rest r
  end.

(** ** The lifecycle methods *)

(** What the lifecycle methods return: [api], or nothing. *)
Inductive result :=
| api
| undefined.

Definition undefined_bucket : error :=
  {| err_name := "TypeError";
     err_message := "Cannot read properties of undefined (reading 'forEach')";
     err_stack :=
       "TypeError: Cannot read properties of undefined (reading 'forEach')" |}.

Definition flattened (collection : gmap Z (list step)) : M (list step) :=
  match flattenOrderedInitializer collection with
  | Some output => ret output
  | None => throw undefined_bucket
  end.

(** [try { await m } catch (error) { ... }]: the error caught, if any. *)
Definition caught (m : M unit) : M (option thrown) :=
  try_catch (m;; ret None) (λ error, ret (Some error)).

Definition initialize (fuel : nat) : M result :=
  initializerFiles <- discover;;
  r <- load_files initializerFiles empty_rankings;;
  output <- flattened (loadInitializerRankings r);;
  modify (on_this (set_loadInitializers output));;
  output <- flattened (startInitializerRankings r);;
  modify (on_this (set_startInitializers output));;
  output <- flattened (stopInitializerRankings r);;
  modify (on_this (set_stopInitializers output));;
  w <- get;;
  failure <- caught (asyncWaterfall (loadInitializers (this w)));;
  match failure with
  | Some error =>
      fatalError fuel (single_error error) "initialize";;
      ret undefined
  | None =>
      modify (on_this (set_initialized (Some true)));;
      ret api
  end.

Definition start (fuel : nat) : M result :=
  w <- get;;
  (if bool_decide (initialized (this w) = Some true) then ret tt
   else initialize fuel;; ret tt);;
  writePidFile;;
  modify (on_this (set_running (Some true)));;
  modify (set_api_running (Some true));;
  w <- get;;
  log ("environment: " +:+ env (host w)) "notice" None;;
  log "*** Starting ActionHero ***" "info" None;;
  modify (on_this (λ p,
    set_startInitializers (startInitializers p ++ [startTerminal]) p));;
  w <- get;;
  failure <- caught (asyncWaterfall (startInitializers (this w)));;
  match failure with
  | Some error =>
      fatalError fuel (single_error error) "start";;
      ret undefined
  | None => ret api
  end.

Definition restart (fuel : nat) : M result :=
  w <- get;;
  if bool_decide (running (this w) = Some true) then
    stop fuel;;
    start fuel;;
    ret api
  else
    start fuel;;
    ret api.

(** [this.plugins[name] = object]: the object gets (or keeps) the own
    property [name], except for the name [__proto__], the accessor every
    plain object inherits, whose setter makes [object] the prototype of
    [this.plugins] and creates no property. *)
Definition addPlugin (name : string) (object : plugin) : M unit :=
  if String.eqb name "__proto__" then
    modify (on_this (set_plugins_prototype (Some object)))
  else
    modify (on_this (λ p, set_plugins (obj_set (plugins p) name object) p)).

(** The world right after [new Process()]. *)
Definition constructed (h : Host) : World :=
  {| this := {| running := None; initialized := None; shuttingDown := None;
                bootTime := None; initializers := ∅; startCount := 0;
                loadInitializers := []; startInitializers := [];
                stopInitializers := []; plugins := [];
                plugins_prototype := None |};
     api_running := None; logged := []; invoked := []; pidFile := false;
     detached := []; host := h |}.

(** ** Vocabulary of the statements *)

(** The priorities below [10^21] in magnitude: those whose property name is
    their decimal notation, which [parseInt] reads back. *)
Definition exact_key (key : Z) : Prop := Z.abs key < 10 ^ 21.

(** The keys of a collection in ascending order. *)
Definition ascending_keys {A} (collection : gmap Z (list A)) : list Z :=
  merge_sort Z.le (map_to_list collection).*1.

(** The three closures [initialize()] builds, as opposed to the two that
    [start()] and [stop()] push. *)
Definition wrapper (s : step) : Prop :=
  match s with
  | startTerminal | stopTerminal => False
  | _ => True
  end.

(** What a method rejects with, if it rejects. *)
Definition settles (m : option method) : option thrown :=
  match m with
  | Some (Rejects error) => Some error
  | _ => None
  end.

(** What the [catch] block of a start or stop wrapper throws for what it
    caught: the same value, or the [TypeError] of [error.toString()]. *)
Definition rethrown (error : thrown) : thrown :=
  match thrown_toString error with
  | inl e => an_error e
  | inr _ => error
  end.

(** What the method a step invokes rejects with, if it does. *)
Definition method_rejection (s : step) : option thrown :=
  match s with
  | initializeFunction initializer _ =>
      settles (Initializer.initialize initializer)
  | startFunction initializer _ => settles (Initializer.start initializer)
  | stopFunction initializer _ => settles (Initializer.stop initializer)
  | startTerminal | stopTerminal => None
  end.

(** What a step rejects with, if it rejects. *)
Definition step_rejection (s : step) : option thrown :=
  match s with
  | initializeFunction initializer _ =>
      settles (Initializer.initialize initializer)
  | startFunction initializer _ =>
      rethrown <$> settles (Initializer.start initializer)
  | stopFunction initializer _ =>
      rethrown <$> settles (Initializer.stop initializer)
  | startTerminal | stopTerminal => None
  end.

Definition resolves (s : step) : Prop := step_rejection s = None.

(** The method of an initializer a step invokes, if any. *)
Definition step_calls (s : step) : list call :=
  match s with
  | initializeFunction initializer _ =>
      if Initializer.initialize initializer is Some _
      then [initialize_call initializer] else []
  | startFunction initializer _ =>
      if Initializer.start initializer is Some _
      then [start_call initializer] else []
  | stopFunction initializer _ =>
      if Initializer.stop initializer is Some _
      then [stop_call initializer] else []
  | startTerminal | stopTerminal => []
  end.

(** The steps of a list a waterfall gets to: all of them up to and including
    the first that rejects. *)
Fixpoint executed (jobs : list step) : list step :=
  match jobs with
  | [] => []
  | job :: jobs' =>
      match step_rejection job with
      | Some _ => [job]
      | None => job :: executed jobs'
      end
  end.

(** The world a computation leaves behind. *)
Definition final_world {A} (o : outcome A) : option World :=
  match o with
  | Returned _ w | Thrown _ w | Exited _ w => Some w
  | OutOfFuel => None
  end.

(** The instance a step closes over. *)
Definition step_initializer (s : step) : option Initializer :=
  match s with
  | initializeFunction initializer _
  | startFunction initializer _
  | stopFunction initializer _ => Some initializer
  | startTerminal | stopTerminal => None
  end.

(** One ranking map after the elements of [l], in this order, have gone
    through lines 205-227. *)
Definition build {A B} (priority : A → Z) (wrap : A → B)
    (ranking : gmap Z (list B)) (l : list A) : gmap Z (list B) :=
  foldl (λ ranking x, rank ranking (priority x) (wrap x)) ranking l.

(** An instance together with the file it was loaded from. *)
Definition loaded : Type := Initializer * string.

(** The rankings after the instances [discovered], in this order, have gone
    through lines 205-227. *)
Definition schedule_all (discovered : list loaded) : rankings :=
  foldl (λ r x, schedule r x.1 x.2) empty_rankings discovered.

(** [order] lists the instances of [discovered] that take part in a phase
    (priority above zero) by ascending priority, those of one priority in the
    order of [discovered]. *)
Definition phase_order (priority : Initializer → Z)
    (discovered order : list loaded) : Prop :=
  Sorted Z.le ((λ x, priority x.1) <$> order) ∧
  ∀ p, filter (λ x, priority x.1 = p) order
       = filter (λ x, priority x.1 = p ∧ 0 < p) discovered.

(** Every priority of every instance of [discovered] is a number whose
    property name is its decimal writing. *)
Definition exact_priorities (discovered : list loaded) : Prop :=
  Forall (λ x : loaded,
            exact_key (Initializer.loadPriority x.1) ∧
            exact_key (Initializer.startPriority x.1) ∧
            exact_key (Initializer.stopPriority x.1)) discovered.

(** The constructors a list of files exports, each with its (normalized)
    file, in the order [initialize()] goes through them. *)
Definition exports_of (h : Host) (f : string) : list (string * constructor) :=
  let file := path_normalize h f in
  match require_ h file with
  | RequireThrows _ => []
  | ExportedFunction c => [(file, c)]
  | ExportedClasses exports => (λ kc, (file, kc.2)) <$> exports
  end.

Definition constructed_instance (fc : string * constructor)
    : option loaded :=
  match fc.2 with
  | Constructs initializer => Some (initializer, fc.1)
  | Throws _ => None
  end.

(** The instances [initialize()] constructs from a list of files. *)
Definition instances_of (h : Host) (initializerFiles : list string)
    : list loaded :=
  omap constructed_instance (initializerFiles ≫= exports_of h).

(** The error a waterfall over [jobs] rejects with, if it rejects. *)
Fixpoint first_rejection (jobs : list step) : option thrown :=
  match jobs with
  | [] => None
  | job :: jobs' =>
      match step_rejection job with
      | Some e => Some e
      | None => first_rejection jobs'
      end
  end.

(** How a computation that awaits steps settles. *)
Definition settled (rejection : option thrown) (w : World) : outcome unit :=
  match rejection with
  | None => Returned tt w
  | Some e => Thrown e w
  end.

(** What running steps does to the world: the methods [calls] are invoked,
    entries are logged, none of them a warning, and the flags [running] and
    [initialized], the three lists, the plugins and the host stay as they
    are. *)
Definition evolves (w w' : World) (calls : list call) : Prop :=
  invoked w' = invoked w ++ calls ∧
  (∃ entries, logged w' = logged w ++ entries ∧
              Forall (λ entry, severity entry ≠ "warning") entries) ∧
  host w' = host w ∧
  detached w' = detached w ∧
  running (this w') = running (this w) ∧
  initialized (this w') = initialized (this w) ∧
  loadInitializers (this w') = loadInitializers (this w) ∧
  startInitializers (this w') = startInitializers (this w) ∧
  stopInitializers (this w') = stopInitializers (this w) ∧
  plugins (this w') = plugins (this w).

(** What the wrappers leave alone on top of that. *)
Definition same_process (w w' : World) : Prop :=
  this w' = this w ∧ pidFile w' = pidFile w ∧
  api_running w' = api_running w.

(** The world after a list of entries has been logged. *)
Definition log_all (entries : list LogEntry) (w : World) : World :=
  foldl (λ w entry, add_logged entry w) w entries.

(** What [fatalError] logs before it calls [stop]: the message naming
    [type], then the stack of each error. *)
Definition diagnostics (errors : list error) (type : string)
    : list LogEntry :=
  Log ("Error with initializer step: " +:+ JSON_stringify type) "emerg" None
  :: ((λ error, Log (err_stack error) "emerg" None) <$> errors).

(** The world in which [fatalError] calls [stop]. *)
Definition escalated (errors : list error) (type : string) (w : World)
    : World :=
  log_all (diagnostics errors type) w.

(** The world in which [stop], called on a running process, starts on the
    stop list: the flags are set, the note is logged and the last step is
    pushed. *)
Definition stopping (w : World) : World :=
  on_this (λ p, set_stopInitializers (stopInitializers p ++ [stopTerminal]) p)
    (add_logged (Log "stopping process..." "notice" None)
       (on_this (set_initialized (Some false))
          (on_this (set_running (Some false))
             (on_this (set_shuttingDown (Some true)) w)))).

(** The world after [stop] was called on a process that is not running. *)
Definition refused (w : World) : World :=
  if bool_decide (shuttingDown (this w) = Some true) then w
  else add_logged (Log "Cannot shut down actionhero, not running" "error" None)
         w.

(** The world in which [start()] starts on the start list: the PID file is
    written, the flags are set, the two notes are logged and the last step is
    pushed. *)
Definition starting (w : World) : World :=
  on_this (λ p,
      set_startInitializers (startInitializers p ++ [startTerminal]) p)
    (add_logged (Log "*** Starting ActionHero ***" "info" None)
       (add_logged (Log ("environment: " +:+ env (host w)) "notice" None)
          (set_api_running (Some true)
             (on_this (set_running (Some true)) (set_pidFile true w))))).

(** The world in which [initialize()] starts on the load list: the three
    flattened lists are stored. *)
Definition scheduled (loads starts stops : list step) (w : World) : World :=
  on_this (set_stopInitializers stops)
    (on_this (set_startInitializers starts)
       (on_this (set_loadInitializers loads) w)).

(** Nothing logged between two worlds is a warning. *)
Definition quiet (w w' : World) : Prop :=
  ∃ entries, logged w' = logged w ++ entries ∧
             Forall (λ entry, severity entry ≠ "warning") entries.

(** The registry as the loop over the exports leaves it, instance by
    instance: an instance is registered when its name is not taken and it
    validates. *)
Definition register (registry : gmap string Initializer) (x : loaded)
    : gmap string Initializer :=
  if has_property registry (Initializer.name x.1) then registry
  else if Initializer.validate x.1 is None
       then <[Initializer.name x.1 := x.1]> registry
       else registry.

(** The duplicate-name warnings the loop logs for a list of instances. *)
Fixpoint warnings (registry : gmap string Initializer) (l : list loaded)
    : list LogEntry :=
  match l with
  | [] => []
  | x :: l' =>
      (if has_property registry (Initializer.name x.1)
       then [Log (warningMessage x.1 x.2) "warning" None] else [])
      ++ warnings (register registry x) l'
  end.

(** From [w] to [w'] the instances [processed] went through the registry:
    the registry and the warnings logged are those of [processed]. *)
Definition loads (w w' : World) (processed : list loaded) : Prop :=
  host w' = host w ∧
  initializers (this w') = foldl register (initializers (this w)) processed ∧
  ∃ entries,
    logged w' = logged w ++ entries ∧
    filter (λ entry, severity entry = "warning") entries
    = warnings (initializers (this w)) processed.

(** [start()] gets to its start list in the world [w0]: [w] itself when the
    process is initialized, and otherwise the world [initialize()] returns
    in. *)
Definition begins (fuel : nat) (w w0 : World) : Prop :=
  if bool_decide (initialized (this w) = Some true) then w0 = w
  else ∃ r, initialize fuel w = Returned r w0.

(** ** Worlds to run the methods in *)

Definition initializer_A : Initializer :=
  Initializer.Build "A" 1 1 1 None
    (Some Resolves) (Some Resolves) (Some Resolves).

Definition initializer_B : Initializer :=
  Initializer.Build "B" 2 2 2 None
    (Some Resolves) (Some Resolves) (Some (Rejects (new_Error "stop failed"))).

Definition initializer_C : Initializer :=
  Initializer.Build "C" 1 0 (-1) None (Some Resolves) None None.

(** A second class whose instances are also named [A]. *)
Definition duplicate_A : Initializer :=
  Initializer.Build "A" 3 3 3 (Some (new_Error "invalid"))
    (Some Resolves) (Some (Rejects (new_Error "start failed"))) None.

(** A host whose core directory holds the given initializer files. *)
Definition host_of (files : list string) : Host :=
  {| env := "test"; id := "server-1"; now := 1000; dirname := "/core";
     path_join := String.concat "/";
     path_normalize := λ p, p;
     existsSync := λ p, String.eqb p "/plugins/present";
     glob_sync := λ pattern,
       if String.eqb pattern "/core/../initializers/**/**/*(*.js|*.ts)"
       then files else [];
     require_ := λ file,
       if String.eqb file "/core/a.js" then
         ExportedClasses [("A", Constructs initializer_A);
                          ("B", Constructs initializer_B)]
       else if String.eqb file "/core/b.js" then
         ExportedClasses [("C", Constructs initializer_C);
                          ("A", Constructs duplicate_A)]
       else ExportedClasses [];
     config_general_paths_initializer := [] |}.

Definition example_host : Host := host_of ["/core/a.js"; "/core/b.js"].

(** A running process with the given stop list. *)
Definition running_with (h : Host) (stops : list step) : World :=
  on_this (set_stopInitializers stops)
    (on_this (set_running (Some true)) (constructed h)).

(** A process in the middle of a shutdown. *)
Definition shutting_down (h : Host) : World :=
  on_this (set_shuttingDown (Some true))
    (on_this (set_running (Some false)) (constructed h)).

(** The world [initialize()] returns in when called on the example host right
    after construction. *)
Definition initialized_example : World :=
  match initialize 4 (constructed example_host) with
  | Returned _ w => w
  | _ => constructed example_host
  end.

(** A process constructed on [h] to which one plugin was added. *)
Definition with_plugin (h : Host) (pluginPath : string) : World :=
  match addPlugin "ghost" (Plugin pluginPath []) (constructed h) with
  | Returned _ w => w
  | _ => constructed h
  end.

(** A process constructed on [h] to which three plugins were added, in this
    order: [ghost] and [7], whose paths do not exist, and [__proto__]. *)
Definition with_plugins (h : Host) : World :=
  match (addPlugin "ghost" (Plugin "/plugins/missing" []);;
         addPlugin "7" (Plugin "/plugins/seven" []);;
         addPlugin "__proto__" (Plugin "/plugins/present" []))
          (constructed h) with
  | Returned _ w => w
  | _ => constructed h
  end.

(** A process whose registry holds [initializer_A]. *)
Definition registered_example : World :=
  on_this (set_initializers {[ "A" := initializer_A ]})
    (constructed example_host).

(** A running process, on a host with the single file [/core/a.js], whose
    stop list resolves. *)
Definition running_example : World :=
  running_with (host_of ["/core/a.js"])
    [stopFunction initializer_A "/core/a.js"].

(** The worlds [stop()] leaves it in, and [initialize()] after that. *)
Definition stopped_example : World :=
  match stop 1 running_example with
  | Returned _ w => w
  | _ => running_example
  end.

Definition restarted_example : World :=
  match initialize 4 stopped_example with
  | Returned _ w => w
  | _ => stopped_example
  end.

(** ** Vocabulary of the further statements *)

(** [o[k]] for an own property. *)
Fixpoint obj_get {V} (o : jsobj V) (k : string) : option V :=
  match o with
  | [] => None
  | (k', v) :: o' => if String.eqb k k' then Some v else obj_get o' k
  end.

(** What the registry loop never writes: the three lists, the plugins (and
    their prototype), the start count, the boot time, the PID file and
    [api.running]. *)
Definition unscheduled (w w' : World) : Prop :=
  loadInitializers (this w') = loadInitializers (this w) ∧
  startInitializers (this w') = startInitializers (this w) ∧
  stopInitializers (this w') = stopInitializers (this w) ∧
  plugins (this w') = plugins (this w) ∧
  startCount (this w') = startCount (this w) ∧
  bootTime (this w') = bootTime (this w) ∧
  pidFile w' = pidFile w ∧
  api_running w' = api_running w ∧
  plugins_prototype (this w') = plugins_prototype (this w).

(** A class whose constructor throws. *)
Definition throwing (InitializerClass : constructor) : bool :=
  match InitializerClass with
  | Throws _ => true
  | Constructs _ => false
  end.

(** The error the loop over the files ends with at the file [f], if it does:
    the one [require] throws, or the [TypeError] of line 205 after the
    constructor of an export has thrown. *)
Definition load_failure (h : Host) (f : string) : option thrown :=
  match require_ h (path_normalize h f) with
  | RequireThrows error => Some error
  | ExportedFunction c =>
      if throwing c then Some undefined_initializer else None
  | ExportedClasses exports =>
      if existsb (λ kc, throwing kc.2) exports
      then Some undefined_initializer else None
  end.

Fixpoint first_load_failure (h : Host) (initializerFiles : list string)
    : option thrown :=
  match initializerFiles with
  | [] => None
  | f :: rest =>
      match load_failure h f with
      | Some error => Some error
      | None => first_load_failure h rest
      end
  end.

(** An initializer whose [initialize] rejects. *)
Definition failing_load : Initializer :=
  Initializer.Build "F" 5 5 5 None
    (Some (Rejects (new_Error "load failed"))) (Some Resolves) (Some Resolves).

(** An initializer whose load priority is the integer 10^21, the first whose
    property name is written with an exponent. *)
Definition initializer_far : Initializer :=
  Initializer.Build "far" (10 ^ 21) 1 1 None
    (Some Resolves) (Some Resolves) (Some Resolves).

(** An initializer whose [initialize] and [start] reject with [undefined]. *)
Definition rejecting_undefined : Initializer :=
  Initializer.Build "U" 5 5 5 None
    (Some (Rejects (a_falsy js_undefined)))
    (Some (Rejects (a_falsy js_undefined))) (Some Resolves).

(** An initializer whose [start] rejects with the number [0]. *)
Definition rejecting_zero : Initializer :=
  Initializer.Build "Z" 5 5 5 None
    (Some Resolves) (Some (Rejects (a_falsy js_zero))) (Some Resolves).

(** A host like [host_of files] on which [/core/broken.js] exports a class
    whose constructor throws, [/core/failing.js] exports [failing_load],
    [/core/far.js] exports [initializer_far], [/core/undefined.js] exports
    [rejecting_undefined] and [/core/zero.js] exports [rejecting_zero]. *)
Definition broken_host (files : list string) : Host :=
  {| env := env (host_of files); id := id (host_of files);
     now := now (host_of files); dirname := dirname (host_of files);
     path_join := path_join (host_of files);
     path_normalize := path_normalize (host_of files);
     existsSync := existsSync (host_of files);
     glob_sync := glob_sync (host_of files);
     require_ := λ file,
       if String.eqb file "/core/broken.js" then
         ExportedClasses [("Broken", Throws (new_Error "cannot construct"))]
       else if String.eqb file "/core/failing.js" then
         ExportedClasses [("Failing", Constructs failing_load)]
       else if String.eqb file "/core/far.js" then
         ExportedClasses [("Far", Constructs initializer_far)]
       else if String.eqb file "/core/undefined.js" then
         ExportedClasses [("U", Constructs rejecting_undefined)]
       else if String.eqb file "/core/zero.js" then
         ExportedClasses [("Z", Constructs rejecting_zero)]
       else require_ (host_of files) file;
     config_general_paths_initializer :=
       config_general_paths_initializer (host_of files) |}.

(** The world [initialize()] returns in on a host with the single file
    [/core/a.js]. *)
Definition initialized_a : World :=
  match initialize 4 (constructed (host_of ["/core/a.js"])) with
  | Returned _ w => w
  | _ => constructed (host_of ["/core/a.js"])
  end.

(** The world [start()] returns in on a host whose single initializer
    rejects its [start] with the number [0]. *)
Definition started_zero : World :=
  match start 4 (constructed (broken_host ["/core/zero.js"])) with
  | Returned _ w => w
  | _ => constructed (broken_host ["/core/zero.js"])
  end.

(** [running_example] after one earlier start. *)
Definition started_once : World :=
  on_this (set_startCount 1) running_example.

(** The worlds [stop()] leaves it in, and [initialize()] after that. *)
Definition stopped_once : World :=
  match stop 1 started_once with
  | Returned _ w => w
  | _ => started_once
  end.

Definition initialized_again : World :=
  match initialize 4 stopped_once with
  | Returned _ w => w
  | _ => stopped_once
  end.

(** The world [initialize()] returns in when the registry already holds
    [initializer_A]. *)
Definition reinitialized_example : World :=
  match initialize 4 registered_example with
  | Returned _ w => w
  | _ => registered_example
  end.

(** The world a second [initialize()], without a [stop()] in between,
    returns in. *)
Definition initialized_twice : World :=
  match initialize 4 initialized_example with
  | Returned _ w => w
  | _ => initialized_example
  end.

(** A host without any initializer file. *)
Definition empty_host : Host := host_of [].

(** The world [start()] returns in on a host with the single file
    [/core/a.js]. *)
Definition started_a : World :=
  match start 4 (constructed (host_of ["/core/a.js"])) with
  | Returned _ w => w
  | _ => constructed (host_of ["/core/a.js"])
  end.

(** * Properties *)

(** ** Buckets and their flattening *)

Section BucketFacts.
Context {A B : Type} (prio : A → Z) (mk : A → B).

Lemma rank_lookup (m : gmap Z (list B)) p f k :
  rank m p f !! k =
  if decide (k = p)
  then Some (default [] (m !! p) ++ (if 0 <? p then [f] else []))
  else m !! k.
Proof.
  unfold rank, ensure_bucket, bucket_push.
  case_decide as Hk; subst;
    destruct (m !! p) as [b|] eqn:Hp; destruct (0 <? p); simpl;
    rewrite ?lookup_alter_eq, ?lookup_alter_ne, ?lookup_insert_eq,
      ?lookup_insert_ne, ?Hp, ?app_nil_r by congruence; auto.
Qed.

Lemma build_lookup l : ∀ (m : gmap Z (list B)) k,
  build prio mk m l !! k =
  match m !! k with
  | Some b => Some (b ++ (mk <$> filter (λ x, prio x = k ∧ 0 < k) l))
  | None =>
      if decide (k ∈ prio <$> l)
      then Some (mk <$> filter (λ x, prio x = k ∧ 0 < k) l)
      else None
  end.
Proof.
  induction l as [|x l IH]; intros m k; simpl.
  - destruct (m !! k); simpl; rewrite ?app_nil_r; auto.
  - rewrite IH, rank_lookup, filter_cons.
    destruct (decide (k = prio x)) as [->|Hne].
    + rewrite (decide_True (P:=(prio x ∈ prio x :: _))) by left.
      destruct (Z.ltb_spec 0 (prio x)).
      * rewrite decide_True by auto.
        destruct (m !! prio x); simpl; rewrite <- ?app_assoc; auto.
      * rewrite decide_False by lia.
        destruct (m !! prio x) eqn:E; simpl; rewrite ?app_nil_r; auto.
    + rewrite (decide_False (P:=(prio x = k ∧ 0 < k)))
        by (intros [? ?]; congruence).
      destruct (m !! k); auto.
      repeat case_decide; try done; exfalso;
        match goal with
        | H : ¬ (_ ∈ _ :: _) |- _ => apply H; by right
        | H : _ ∈ _ :: _ |- _ => apply elem_of_cons in H as [?|?]; auto
        end.
Qed.

Lemma build_empty_lookup l k :
  build prio mk ∅ l !! k =
  if decide (k ∈ prio <$> l)
  then Some (mk <$> filter (λ x, prio x = k ∧ 0 < k) l)
  else None.
Proof. by rewrite build_lookup, lookup_empty. Qed.
End BucketFacts.

(** ** Numbers as property names *)

Lemma digit_char d :
  (d < 10)%N →
  is_digit (ascii_of_N (48 + d)) = true ∧
  (N_of_ascii (ascii_of_N (48 + d)) - 48)%N = d.
Proof.
  intros Hd. unfold is_digit.
  rewrite N_ascii_embedding by lia. split; [|lia].
  apply andb_true_intro. split; apply N.leb_le; lia.
Qed.

Lemma decimal_from_spec fuel : ∀ n rest,
  (n < 10 ^ N.of_nat fuel)%N → fuel ≠ O →
  ∃ k a digits,
    decimal_from fuel n rest = String a digits ∧
    is_digit a = true ∧
    ∀ acc, leading_digits acc (String a digits)
           = leading_digits (acc * 10 ^ k + n) rest.
Proof.
  induction fuel as [|fuel IH]; intros n rest Hn Hfuel; [done|].
  simpl decimal_from.
  destruct (digit_char (n mod 10)%N) as [Hdigit Hvalue];
    [by apply N.mod_lt|].
  pose proof (N.div_mod n 10%N ltac:(lia)) as Hdiv.
  destruct (N.eqb_spec (n / 10) 0%N) as [Hq|Hq].
  - exists 1%N, (ascii_of_N (48 + n mod 10)%N), rest. split_and!; try done.
    intros acc. simpl. rewrite Hdigit, Hvalue. f_equal. lia.
  - destruct fuel as [|fuel].
    { simpl in Hn. exfalso. apply Hq. apply N.div_small. lia. }
    destruct (IH (n / 10)%N (String (ascii_of_N (48 + n mod 10)%N) rest))
      as (k & a & digits & -> & Ha & Hlead); [|done|].
    { apply N.Div0.div_lt_upper_bound.
      rewrite <- N.pow_succ_r'. by rewrite <- Nat2N.inj_succ. }
    exists (N.succ k), a, digits. split_and!; try done.
    intros acc. rewrite Hlead. simpl. rewrite Hdigit, Hvalue. f_equal.
    rewrite N.pow_succ_r'. lia.
Qed.

Lemma decimal_spec n :
  ∃ a digits,
    decimal n = String a digits ∧ is_digit a = true ∧
    leading_digits 0%N (decimal n) = n.
Proof.
  unfold decimal.
  destruct (decimal_from_spec (S (N.to_nat (N.log2 n))) n EmptyString)
    as (k & a & digits & Heq & Ha & Hlead); [|done|].
  - rewrite Nat2N.inj_succ, N2Nat.id.
    destruct (N.eq_dec n 0%N) as [->|Hpos]; [done|].
    assert (n < 2 ^ N.succ (N.log2 n))%N by (apply N.log2_spec; lia).
    assert (2 ^ N.succ (N.log2 n) ≤ 10 ^ N.succ (N.log2 n))%N
      by (apply N.pow_le_mono_l; lia).
    lia.
  - exists a, digits. rewrite Heq. split_and!; done.
Qed.

Lemma digit_not_sign a :
  is_digit a = true → Ascii.eqb a "-" = false ∧ Ascii.eqb a "+" = false.
Proof.
  unfold is_digit. intros [H1 H2]%andb_prop.
  apply N.leb_le in H1. apply N.leb_le in H2.
  split; apply Ascii.eqb_neq; intros ->; vm_compute in H1; done.
Qed.

(** Below [10^21] the name of a number is read back as the number. *)
Lemma parseInt_Number_toString key :
  exact_key key → parseInt (Number_toString key) = Some key.
Proof.
  unfold exact_key, Number_toString. intros Hkey.
  destruct (N.ltb_spec (Z.to_N (Z.abs key)) (10 ^ 21)%N) as [_|Hbig]; [|lia].
  destruct (decimal_spec (Z.to_N (Z.abs key)))
    as (a & digits & Heq & Ha & Hlead).
  destruct (digit_not_sign a Ha) as [Hminus Hplus].
  destruct (Z.ltb_spec key 0) as [Hneg|Hpos].
  - simpl. rewrite Heq in Hlead |- *. simpl starts_with_digit.
    rewrite Ha, Hlead. f_equal. lia.
  - rewrite Heq in Hlead |- *. unfold parseInt. rewrite Hminus, Hplus.
    simpl starts_with_digit. rewrite Ha, Hlead. f_equal. lia.
Qed.

Section FlattenFacts.
Context {A : Type}.
Implicit Types (m : gmap Z (list A)) (keys : list Z).

Lemma flatten_forEach_total m keys : ∀ output,
  Forall (λ k, is_Some (m !! k)) keys →
  flatten_forEach m keys output =
  Some (output ++ mjoin ((λ k, default [] (m !! k)) <$> keys)).
Proof.
  induction keys as [|k keys IH]; intros output Hall; simpl.
  - by rewrite app_nil_r.
  - apply Forall_cons in Hall as [[b Hb] Hall].
    rewrite Hb, IH by done. simpl. by rewrite app_assoc.
Qed.

(** Whatever the keys, what is pushed comes from a bucket. *)
Lemma flatten_forEach_elem m keys : ∀ output out d,
  flatten_forEach m keys output = Some out → d ∈ out →
  d ∈ output ∨ ∃ k bucket, m !! k = Some bucket ∧ d ∈ bucket.
Proof.
  induction keys as [|k keys IH]; intros output out d; simpl.
  - intros [= <-]. by left.
  - destruct (m !! k) as [bucket|] eqn:Hk; [|done].
    intros Hrun Hd. destruct (IH _ _ _ Hrun Hd) as [Hin|?]; [|by right].
    apply elem_of_app in Hin as [?|?]; [by left|]. right. by exists k, bucket.
Qed.

Lemma flattenOrderedInitializer_elem m out d :
  flattenOrderedInitializer m = Some out → d ∈ out →
  ∃ k bucket, m !! k = Some bucket ∧ d ∈ bucket.
Proof.
  unfold flattenOrderedInitializer.
  destruct (parsed_keys m) as [keys|]; [|done]. simpl.
  intros Hrun Hd.
  destruct (flatten_forEach_elem _ _ _ _ _ Hrun Hd) as [Hin|?]; [|done].
  by apply elem_of_nil in Hin.
Qed.

Lemma flatten_forEach_keeps m keys : ∀ output out d,
  flatten_forEach m keys output = Some out → d ∈ output → d ∈ out.
Proof.
  induction keys as [|k keys IH]; intros output out d; simpl.
  - by intros [= <-].
  - destruct (m !! k) as [bucket|]; [|done].
    intros Hrun Hd. apply (IH _ _ _ Hrun). apply elem_of_app. by left.
Qed.

Lemma flatten_forEach_complete m keys : ∀ output out k bucket d,
  flatten_forEach m keys output = Some out →
  k ∈ keys → m !! k = Some bucket → d ∈ bucket → d ∈ out.
Proof.
  induction keys as [|k' keys IH]; intros output out k bucket d; simpl.
  - by intros _ ?%elem_of_nil.
  - destruct (m !! k') as [bucket'|] eqn:Hk'; [|done].
    intros Hrun [->|Hk]%elem_of_cons Hbucket Hd.
    + apply (flatten_forEach_keeps _ _ _ _ _ Hrun).
      rewrite Hbucket in Hk'. injection Hk' as <-.
      apply elem_of_app. by right.
    + by apply (IH _ _ _ _ _ Hrun Hk Hbucket).
Qed.

(** A bucket whose key is below [10^21] is pushed whenever the flattening
    has a result. *)
Lemma flattenOrderedInitializer_complete m out k bucket d :
  flattenOrderedInitializer m = Some out →
  m !! k = Some bucket → exact_key k → d ∈ bucket → d ∈ out.
Proof.
  unfold flattenOrderedInitializer, parsed_keys.
  destruct (mapM _ _) as [keys|] eqn:Hkeys; [|done]. simpl.
  intros Hrun Hbucket Hexact Hd.
  apply (flatten_forEach_complete _ _ _ _ k bucket d Hrun); [|done|done].
  rewrite merge_sort_Permutation.
  apply mapM_Some in Hkeys.
  assert (k ∈ (map_to_list m).*1) as Hk.
  { apply list_elem_of_fmap. exists (k, bucket). split; [done|].
    by apply elem_of_map_to_list. }
  apply list_elem_of_lookup in Hk as [i Hi].
  destruct (Forall2_lookup_l _ _ _ _ _ Hkeys Hi) as (k' & Hi' & Hparse).
  rewrite (parseInt_Number_toString k Hexact) in Hparse.
  injection Hparse as <-. by apply list_elem_of_lookup_2 in Hi'.
Qed.

Lemma elem_of_ascending_keys m k : k ∈ ascending_keys m ↔ is_Some (m !! k).
Proof.
  unfold ascending_keys. rewrite merge_sort_Permutation, list_elem_of_fmap.
  split.
  - intros [[k' b] [-> Hin]]. apply elem_of_map_to_list in Hin. eauto.
  - intros [b Hb]. exists (k, b). split; auto. by apply elem_of_map_to_list.
Qed.

Lemma NoDup_ascending_keys m : NoDup (ascending_keys m).
Proof.
  unfold ascending_keys. rewrite merge_sort_Permutation.
  apply NoDup_fst_map_to_list.
Qed.

Lemma StronglySorted_ascending_keys m :
  StronglySorted Z.le (ascending_keys m).
Proof. apply StronglySorted_merge_sort; apply _. Qed.

(** When every key is below [10^21], the keys pushed are the keys. *)
Lemma parsed_keys_exact m :
  (∀ k, is_Some (m !! k) → exact_key k) →
  parsed_keys m = Some (map_to_list m).*1.
Proof.
  intros Hexact. unfold parsed_keys. apply mapM_Some.
  apply Forall_Forall2_diag, list.Forall_forall. intros k Hk.
  apply parseInt_Number_toString, Hexact.
  apply list_elem_of_fmap in Hk as [[k' b] [-> Hin]].
  apply elem_of_map_to_list in Hin. by eexists.
Qed.

Lemma flattenOrderedInitializer_total m :
  (∀ k, is_Some (m !! k) → exact_key k) →
  flattenOrderedInitializer m =
  Some (mjoin ((λ k, default [] (m !! k)) <$> ascending_keys m)).
Proof.
  intros Hexact. unfold flattenOrderedInitializer.
  rewrite parsed_keys_exact by done. simpl.
  fold (ascending_keys m).
  rewrite flatten_forEach_total; auto.
  apply list.Forall_forall. intros k. apply elem_of_ascending_keys.
Qed.
End FlattenFacts.

Section ConcatFacts.
Context {A : Type} (prio : A → Z).

Lemma same_priority_sorted k (b : list A) :
  Forall (λ x, prio x = k) b → StronglySorted Z.le (prio <$> b).
Proof.
  induction 1 as [|x b Hx Hb IH]; simpl; constructor; auto.
  apply Forall_fmap. eapply Forall_impl; [exact Hb|]. simpl. lia.
Qed.

Lemma same_priority_filter p k (b : list A) :
  Forall (λ x, prio x = k) b →
  filter (λ x, prio x = p) b = if decide (k = p) then b else [].
Proof.
  intros Hb. case_decide as Hk.
  - subst. induction Hb; auto. rewrite filter_cons_True by done. by f_equal.
  - induction Hb; auto. rewrite filter_cons_False by congruence. done.
Qed.

Context (g : Z → list A).
Hypothesis g_prio : ∀ k, Forall (λ x, prio x = k) (g k).

Lemma join_buckets_sorted keys :
  StronglySorted Z.le keys →
  StronglySorted Z.le (prio <$> mjoin (g <$> keys)).
Proof.
  induction 1 as [|k keys Hs IH Hle]; simpl; [apply SSorted_nil|].
  rewrite fmap_app. apply StronglySorted_app. split_and!; auto.
  - intros p q Hp Hq.
    apply list_elem_of_fmap in Hp as [x [-> Hx]].
    apply list_elem_of_fmap in Hq as [y [-> Hy]].
    apply list_elem_of_join in Hy as [b [Hy Hb]].
    apply list_elem_of_fmap in Hb as [k' [-> Hk']].
    pose proof (proj1 (Forall_forall _ _) (g_prio k) _ Hx) as ->.
    pose proof (proj1 (Forall_forall _ _) (g_prio k') _ Hy) as ->.
    by apply (proj1 (Forall_forall _ _) Hle).
  - by apply (same_priority_sorted k).
Qed.

Lemma filter_join_buckets keys p :
  NoDup keys →
  filter (λ x, prio x = p) (mjoin (g <$> keys)) =
  if decide (p ∈ keys) then g p else [].
Proof.
  induction 1 as [|k keys Hk Hnd IH].
  - case_decide as Hin; [by apply not_elem_of_nil in Hin | done].
  - csimpl. rewrite filter_app, IH, (same_priority_filter p k) by done.
    repeat case_decide; subst; rewrite ?app_nil_r; try done; exfalso;
      match goal with
      | H : ¬ (_ ∈ _ :: _) |- _ => apply H; (by left) || (by right)
      | H : _ ∈ _ :: _ |- _ => apply elem_of_cons in H as [?|?]; auto
      end.
Qed.
End ConcatFacts.

Section Ranked.
Context {A B : Type} (prio : A → Z) (mk : A → B).

Lemma fmap_join_buckets (g : Z → list A) keys :
  mjoin ((λ k, mk <$> g k) <$> keys) = mk <$> mjoin (g <$> keys).
Proof.
  induction keys as [|k keys IH]; csimpl; [done|].
  by rewrite fmap_app, IH.
Qed.

(** Flattening the buckets built from [l]: the wrappers of a list that
    is sorted by priority and, priority by priority, equal to the part of
    [l] that takes part. *)
Lemma flatten_build l :
  Forall (λ x, exact_key (prio x)) l →
  ∃ order,
    flattenOrderedInitializer (build prio mk ∅ l) = Some (mk <$> order) ∧
    Sorted Z.le (prio <$> order) ∧
    ∀ p, filter (λ x, prio x = p) order
         = filter (λ x, prio x = p ∧ 0 < p) l.
Proof.
  intros Hexact.
  set (m := build prio mk ∅ l).
  assert (∀ k, is_Some (m !! k) → exact_key k) as Hkeys.
  { intros k. unfold m. rewrite build_empty_lookup.
    case_decide as Hin; [|by intros [? ?]]. intros _.
    apply list_elem_of_fmap in Hin as [x [-> Hx]].
    by apply (proj1 (list.Forall_forall _ _) Hexact). }
  set (g := λ k : Z, filter (λ x, prio x = k ∧ 0 < k) l).
  assert (Hg : ∀ k, Forall (λ x, prio x = k) (g k)).
  { intros k. apply Forall_forall. intros x Hx.
    apply list_elem_of_filter in Hx. tauto. }
  assert (Hm : ∀ k, default [] (m !! k) = mk <$> g k).
  { intros k. unfold m. rewrite build_empty_lookup.
    case_decide as Hin; [done|]. simpl.
    destruct (g k) as [|x b] eqn:Hgk; [done|]. exfalso.
    assert (x ∈ g k) as Hx by (rewrite Hgk; left).
    apply list_elem_of_filter in Hx as [[Hp _] Hx].
    apply Hin. subst k. by apply list_elem_of_fmap_2. }
  exists (mjoin (g <$> ascending_keys m)). split_and!.
  - rewrite flattenOrderedInitializer_total by done.
    rewrite <- fmap_join_buckets. do 2 f_equal.
    apply list_fmap_ext. intros _ k _. apply Hm.
  - apply StronglySorted_Sorted, join_buckets_sorted; auto.
    apply StronglySorted_ascending_keys.
  - intros p.
    rewrite (filter_join_buckets prio g Hg) by apply NoDup_ascending_keys.
    case_decide as Hin; [done|].
    assert (m !! p = None) as Hp.
    { apply eq_None_not_Some. by rewrite <- elem_of_ascending_keys. }
    specialize (Hm p). rewrite Hp in Hm. simpl in Hm.
    symmetry in Hm. apply fmap_nil_inv in Hm. by rewrite <- Hm.
Qed.


(** Whatever the priorities, what a flattened list holds are wrappers of
    elements of [l] that take part. *)
Lemma flatten_build_elem l out d :
  flattenOrderedInitializer (build prio mk ∅ l) = Some out → d ∈ out →
  ∃ x, x ∈ l ∧ 0 < prio x ∧ d = mk x.
Proof.
  intros Hflat Hd.
  destruct (flattenOrderedInitializer_elem _ _ _ Hflat Hd)
    as (k & bucket & Hk & Hin).
  rewrite build_empty_lookup in Hk. case_decide; [|done].
  injection Hk as <-.
  apply list_elem_of_fmap in Hin as (x & -> & Hx).
  apply list_elem_of_filter in Hx as [[<- Hpos] Hx]. by exists x.
Qed.
End Ranked.

Lemma schedule_all_load discovered :
  loadInitializerRankings (schedule_all discovered)
  = build (λ x, Initializer.loadPriority x.1)
          (λ x, initializeFunction x.1 x.2) ∅ discovered.
Proof.
  unfold schedule_all, build.
  change ∅ with (loadInitializerRankings empty_rankings).
  generalize empty_rankings.
  induction discovered as [|x l IH]; intros r; simpl; [done|]. by rewrite IH.
Qed.

Lemma schedule_all_start discovered :
  startInitializerRankings (schedule_all discovered)
  = build (λ x, Initializer.startPriority x.1)
          (λ x, startFunction x.1 x.2) ∅ discovered.
Proof.
  unfold schedule_all, build.
  change ∅ with (startInitializerRankings empty_rankings).
  generalize empty_rankings.
  induction discovered as [|x l IH]; intros r; simpl; [done|]. by rewrite IH.
Qed.

Lemma schedule_all_stop discovered :
  stopInitializerRankings (schedule_all discovered)
  = build (λ x, Initializer.stopPriority x.1)
          (λ x, stopFunction x.1 x.2) ∅ discovered.
Proof.
  unfold schedule_all, build.
  change ∅ with (stopInitializerRankings empty_rankings).
  generalize empty_rankings.
  induction discovered as [|x l IH]; intros r; simpl; [done|]. by rewrite IH.
Qed.

Lemma load_list discovered :
  Forall (λ x : loaded, exact_key (Initializer.loadPriority x.1)) discovered →
  ∃ order,
    flattenOrderedInitializer
      (loadInitializerRankings (schedule_all discovered))
    = Some ((λ x, initializeFunction x.1 x.2) <$> order) ∧
    phase_order Initializer.loadPriority discovered order.
Proof.
  rewrite schedule_all_load.
  apply (flatten_build (λ x : loaded, Initializer.loadPriority x.1)).
Qed.

Lemma start_list discovered :
  Forall (λ x : loaded, exact_key (Initializer.startPriority x.1)) discovered →
  ∃ order,
    flattenOrderedInitializer
      (startInitializerRankings (schedule_all discovered))
    = Some ((λ x, startFunction x.1 x.2) <$> order) ∧
    phase_order Initializer.startPriority discovered order.
Proof.
  rewrite schedule_all_start.
  apply (flatten_build (λ x : loaded, Initializer.startPriority x.1)).
Qed.

Lemma stop_list discovered :
  Forall (λ x : loaded, exact_key (Initializer.stopPriority x.1)) discovered →
  ∃ order,
    flattenOrderedInitializer
      (stopInitializerRankings (schedule_all discovered))
    = Some ((λ x, stopFunction x.1 x.2) <$> order) ∧
    phase_order Initializer.stopPriority discovered order.
Proof.
  rewrite schedule_all_stop.
  apply (flatten_build (λ x : loaded, Initializer.stopPriority x.1)).
Qed.

Lemma exact_priorities_phases discovered :
  exact_priorities discovered →
  Forall (λ x : loaded, exact_key (Initializer.loadPriority x.1)) discovered ∧
  Forall (λ x : loaded, exact_key (Initializer.startPriority x.1)) discovered ∧
  Forall (λ x : loaded, exact_key (Initializer.stopPriority x.1)) discovered.
Proof.
  intros Hexact.
  split_and!; eapply Forall_impl; try exact Hexact; simpl; tauto.
Qed.

Lemma load_list_elem discovered out s :
  flattenOrderedInitializer
    (loadInitializerRankings (schedule_all discovered)) = Some out →
  s ∈ out →
  ∃ x : loaded, x ∈ discovered ∧ 0 < Initializer.loadPriority x.1 ∧
                s = initializeFunction x.1 x.2.
Proof.
  rewrite schedule_all_load.
  apply (flatten_build_elem (λ x : loaded, Initializer.loadPriority x.1)).
Qed.

Lemma start_list_elem discovered out s :
  flattenOrderedInitializer
    (startInitializerRankings (schedule_all discovered)) = Some out →
  s ∈ out →
  ∃ x : loaded, x ∈ discovered ∧ 0 < Initializer.startPriority x.1 ∧
                s = startFunction x.1 x.2.
Proof.
  rewrite schedule_all_start.
  apply (flatten_build_elem (λ x : loaded, Initializer.startPriority x.1)).
Qed.

Lemma stop_list_elem discovered out s :
  flattenOrderedInitializer
    (stopInitializerRankings (schedule_all discovered)) = Some out →
  s ∈ out →
  ∃ x : loaded, x ∈ discovered ∧ 0 < Initializer.stopPriority x.1 ∧
                s = stopFunction x.1 x.2.
Proof.
  rewrite schedule_all_stop.
  apply (flatten_build_elem (λ x : loaded, Initializer.stopPriority x.1)).
Qed.




Lemma phase_order_elem priority discovered order (x : loaded) :
  phase_order priority discovered order → x ∈ order →
  0 < priority x.1 ∧ x ∈ discovered.
Proof.
  intros [_ Hfilter] Hx.
  assert (x ∈ filter (λ y : loaded, priority y.1 = priority x.1) order) as Hin
    by (by apply list_elem_of_filter).
  rewrite Hfilter in Hin. apply list_elem_of_filter in Hin. tauto.
Qed.

(** ** Steps and the waterfall *)

Lemma evolves_refl w : evolves w w [].
Proof.
  unfold evolves. rewrite app_nil_r. split_and!; try done.
  exists []. by rewrite app_nil_r.
Qed.

Lemma evolves_trans w1 w2 w3 c1 c2 :
  evolves w1 w2 c1 → evolves w2 w3 c2 → evolves w1 w3 (c1 ++ c2).
Proof.
  intros (Hi1 & (l1 & Hl1 & Hq1) & Hh1 & Hd1 & Hr1 & Hn1 & Ha1 & Hb1 & Hc1
          & Hp1)
         (Hi2 & (l2 & Hl2 & Hq2) & Hh2 & Hd2 & Hr2 & Hn2 & Ha2 & Hb2 & Hc2
          & Hp2).
  unfold evolves. split_and!; try congruence.
  - by rewrite Hi2, Hi1, app_assoc.
  - exists (l1 ++ l2). split; [by rewrite Hl2, Hl1, app_assoc|].
    by apply Forall_app.
Qed.

Lemma same_process_refl w : same_process w w.
Proof. by unfold same_process. Qed.

Lemma same_process_trans w1 w2 w3 :
  same_process w1 w2 → same_process w2 w3 → same_process w1 w3.
Proof. unfold same_process. intros (?&?&?) (?&?&?). split_and!; congruence. Qed.

Ltac quiet_entries :=
  first
    [ by (exists []; split; [by rewrite app_nil_r | constructor])
    | eexists; split;
      [ rewrite <- ?app_assoc; reflexivity
      | repeat constructor; simpl; discriminate ] ].

Ltac evolved :=
  unfold evolves; simpl;
  split_and!;
    [ first [ by rewrite app_nil_r | by rewrite <- ?app_assoc ]
    | quiet_entries
    | reflexivity .. ].

Lemma run_step_evolves s w :
  ∃ w', run_step s w = settled (step_rejection s) w' ∧
        evolves w w' (step_calls s) ∧
        (wrapper s → same_process w w').
Proof.
  destruct s as [i f|i f|i f| |]; simpl.
  - unfold run_initializeFunction.
    destruct (Initializer.initialize i) as [[|[e|[]]]|]; simpl;
      (eexists; split; [reflexivity|]); split; try done; evolved.
  - unfold run_startFunction.
    destruct (Initializer.start i) as [[|[e|[]]]|]; simpl;
      (eexists; split; [reflexivity|]); split; try done; evolved.
  - unfold run_stopFunction.
    destruct (Initializer.stop i) as [[|[e|[]]]|]; simpl;
      (eexists; split; [reflexivity|]); split; try done; evolved.
  - unfold run_startTerminal, bind, get, modify, log; simpl.
    destruct (startCount (this w) =? 0); simpl;
      (eexists; split; [reflexivity|]); split; try done; evolved.
  - (eexists; split; [reflexivity|]); split; try done; evolved.
Qed.

Lemma asyncWaterfall_evolves jobs : ∀ w,
  ∃ w', asyncWaterfall jobs w = settled (first_rejection jobs) w' ∧
        evolves w w' (executed jobs ≫= step_calls) ∧
        (Forall wrapper (executed jobs) → same_process w w').
Proof.
  induction jobs as [|job jobs IH]; intros w; simpl.
  - exists w. split_and!; auto using evolves_refl, same_process_refl.
  - destruct (run_step_evolves job w) as (w1 & Hrun & Hev & Hsame).
    unfold bind. rewrite Hrun.
    destruct (step_rejection job) as [e|]; simpl.
    + exists w1. split_and!; [done| |].
      * csimpl. by rewrite app_nil_r.
      * intros Hw. apply Forall_cons in Hw as [? _]. auto.
    + destruct (IH w1) as (w2 & Hrun2 & Hev2 & Hsame2).
      exists w2. split_and!; [done| |].
      * csimpl. by apply (evolves_trans w w1).
      * intros Hw. apply Forall_cons in Hw as [? ?].
        apply (same_process_trans w w1); auto.
Qed.

Lemma asyncWaterfall_app l1 l2 w :
  asyncWaterfall (l1 ++ l2) w = (asyncWaterfall l1;; asyncWaterfall l2) w.
Proof.
  revert w. induction l1 as [|s l1 IH]; intros w; simpl; [done|].
  unfold bind. destruct (run_step s w) as [[] w'| | |]; done.
Qed.

Lemma first_rejection_app pre s post e :
  Forall resolves pre → step_rejection s = Some e →
  first_rejection (pre ++ s :: post) = Some e ∧
  executed (pre ++ s :: post) = pre ++ [s].
Proof.
  intros Hpre Hs. induction Hpre as [|x pre Hx Hpre IH]; simpl.
  - by rewrite Hs.
  - rewrite Hx. destruct IH as [-> ->]. done.
Qed.

Lemma first_rejection_resolves jobs :
  Forall resolves jobs → first_rejection jobs = None ∧ executed jobs = jobs.
Proof.
  induction 1 as [|x l Hx Hl [IH1 IH2]]; simpl; [done|].
  rewrite Hx. by rewrite IH1, IH2.
Qed.

Lemma first_rejection_none jobs :
  first_rejection jobs = None ↔ Forall resolves jobs.
Proof.
  split; [|by intros [? _]%first_rejection_resolves].
  induction jobs as [|s jobs IH]; simpl; [done|].
  destruct (step_rejection s) eqn:Hs; [done|]. intros Hnone.
  constructor; [done|auto].
Qed.

Lemma first_rejection_elem jobs e :
  first_rejection jobs = Some e → ∃ s, s ∈ jobs ∧ step_rejection s = Some e.
Proof.
  induction jobs as [|j jobs IH]; simpl; [done|].
  destruct (step_rejection j) as [e'|] eqn:Hj.
  - intros [= ->]. exists j. split; [left|done].
  - intros (s & Hs & He)%IH. exists s. split; [by right|done].
Qed.

Lemma first_rejection_snoc jobs t :
  step_rejection t = None → first_rejection (jobs ++ [t]) = first_rejection jobs.
Proof.
  intros Ht. induction jobs as [|j jobs IH]; simpl; [by rewrite Ht|].
  by destruct (step_rejection j).
Qed.

Lemma elem_of_executed jobs s : s ∈ executed jobs → s ∈ jobs.
Proof.
  induction jobs as [|j jobs IH]; simpl; [done|].
  destruct (step_rejection j).
  - intros ->%list_elem_of_singleton. left.
  - intros [->|Hs]%elem_of_cons; [left|right; auto].
Qed.

(** ** [fatalError] and [stop] *)

Lemma log_all_fields entries w :
  logged (log_all entries w) = logged w ++ entries ∧
  this (log_all entries w) = this w ∧
  invoked (log_all entries w) = invoked w ∧
  pidFile (log_all entries w) = pidFile w ∧
  api_running (log_all entries w) = api_running w ∧
  detached (log_all entries w) = detached w ∧
  host (log_all entries w) = host w.
Proof.
  revert w. induction entries as [|entry entries IH]; intros w; simpl.
  - by rewrite app_nil_r.
  - destruct (IH (add_logged entry w)) as (-> & -> & -> & -> & -> & -> & ->).
    simpl. by rewrite <- app_assoc.
Qed.

Lemma forEach_log (errors : list error) w :
  forEach errors (λ error, log (err_stack error) "emerg" None) w
  = Returned tt
      (log_all ((λ error, Log (err_stack error) "emerg" None) <$> errors) w).
Proof.
  revert w. induction errors as [|e errors IH]; intros w; simpl; [done|].
  unfold bind, log, modify. simpl. apply IH.
Qed.

(** [fatalError] on a truthy argument: the diagnostics, [stop], and
    [process.exit(1)]. *)
Lemma fatalError_unfold n errors type w :
  fatalError (S n) (error_array errors) type w
  = (stop n;; process_exit 1) (escalated errors type w).
Proof.
  simpl. unfold bind at 1. unfold log at 1, modify. simpl.
  unfold bind at 1. rewrite forEach_log. reflexivity.
Qed.

Lemma stop_refused n w :
  truthy (running (this w)) = false →
  stop (S n) w = Returned tt (refused w).
Proof.
  intros Hr. simpl. unfold bind, get, refused.
  destruct (running (this w)) as [[]|]; try discriminate.
    all: by destruct (bool_decide (shuttingDown (this w) = Some true)).
Qed.

Lemma stop_unfold n w :
  truthy (running (this w)) = true →
  stop (S n) w
  = try_catch (asyncWaterfall (stopInitializers (this w) ++ [stopTerminal]))
              (λ error, fatalError n (single_error error) "stop")
              (stopping w).
Proof.
  intros Hr. simpl. unfold bind, get.
  destruct (running (this w)) as [[]|]; try discriminate. reflexivity.
Qed.

Lemma fatalError_single n (e : error) type w :
  fatalError n (single_error e) type w
  = fatalError n (error_array [e]) type w.
Proof. by destruct n. Qed.

(** [fatalError] on a falsy value does nothing. *)
Lemma fatalError_falsy n v type w :
  fatalError (S n) (single_error (a_falsy v)) type w = Returned tt w.
Proof. done. Qed.

Lemma refused_fields w :
  this (refused w) = this w ∧ invoked (refused w) = invoked w ∧
  ∃ entries, logged (refused w) = logged w ++ entries.
Proof.
  unfold refused. case_bool_decide; simpl; split_and!; try done.
  - exists []. by rewrite app_nil_r.
  - by eexists.
Qed.

Lemma escalated_fields errors type w :
  logged (escalated errors type w) = logged w ++ diagnostics errors type ∧
  this (escalated errors type w) = this w ∧
  invoked (escalated errors type w) = invoked w.
Proof.
  unfold escalated.
  destruct (log_all_fields (diagnostics errors type) w) as (-> & -> & -> & _).
  done.
Qed.

(** The escalation when the process is not running: [stop] declines. *)
Lemma fatalError_idle n errors type w :
  truthy (running (this w)) = false →
  fatalError (S (S n)) (error_array errors) type w
  = Exited 1 (refused (escalated errors type w)).
Proof.
  intros Hr. rewrite fatalError_unfold. unfold bind.
  rewrite stop_refused; [done|].
  destruct (escalated_fields errors type w) as (_ & -> & _). done.
Qed.

Lemma stopping_fields w :
  running (this (stopping w)) = Some false ∧
  shuttingDown (this (stopping w)) = Some true ∧
  initialized (this (stopping w)) = Some false ∧
  stopInitializers (this (stopping w))
  = stopInitializers (this w) ++ [stopTerminal] ∧
  invoked (stopping w) = invoked w ∧
  logged (stopping w)
  = logged w ++ [Log "stopping process..." "notice" None].
Proof. done. Qed.

(** [stop] on a running process: the stop list runs from [stopping w]; when
    a step rejects, [fatalError] logs, its [stop] declines, and the process
    exits. *)
Lemma stop_running n w :
  truthy (running (this w)) = true →
  let jobs := stopInitializers (this w) ++ [stopTerminal] in
  ∃ w',
    asyncWaterfall jobs (stopping w) = settled (first_rejection jobs) w' ∧
    evolves (stopping w) w' (executed jobs ≫= step_calls) ∧
    (Forall wrapper (executed jobs) → same_process (stopping w) w') ∧
    stop (S (S (S n))) w
    = match first_rejection jobs with
      | None | Some (a_falsy _) => Returned tt w'
      | Some (an_error e) => Exited 1 (refused (escalated [e] "stop" w'))
      end.
Proof.
  intros Hr jobs.
  destruct (asyncWaterfall_evolves jobs (stopping w))
    as (w' & Hrun & Hev & Hsame).
  exists w'. split_and!; try done.
  rewrite stop_unfold by done. fold jobs. unfold try_catch. rewrite Hrun.
  destruct (first_rejection jobs) as [[e|v]|]; unfold settled; [|done|done].
  rewrite fatalError_single, fatalError_idle; [done|].
  destruct Hev as (_ & _ & _ & _ & -> & _). done.
Qed.

(** [fatalError] on a truthy argument always ends in [process.exit(1)]. *)
Lemma fatalError_exits n errors type w :
  ∃ w', fatalError (S (S (S (S n)))) (error_array errors) type w
        = Exited 1 w'.
Proof.
  destruct (truthy (running (this w))) eqn:Hr.
  - rewrite fatalError_unfold. unfold bind.
    destruct (stop_running n (escalated errors type w))
      as (w' & _ & _ & _ & ->).
    { by destruct (escalated_fields errors type w) as (_ & -> & _). }
    destruct (first_rejection _) as [[e|v]|]; eauto.
  - rewrite fatalError_idle by done. eauto.
Qed.

(** ** The lifecycle: [stop], [fatalError], [start] *)

(** C6, as the code has it: [stop()] on a process that is not running and
    not shutting down logs one message at error severity, runs no step and
    returns; [stop()] on a process that is not running while [shuttingDown]
    is true runs no step, returns, and logs nothing. *)
Theorem stop_when_not_running (n : nat) (w : World) :
  truthy (running (this w)) = false →
  (shuttingDown (this w) ≠ Some true →
   stop (S n) w
   = Returned tt
       (add_logged (Log "Cannot shut down actionhero, not running" "error" None)
          w)) ∧
  (shuttingDown (this w) = Some true → stop (S n) w = Returned tt w).
Proof.
  intros Hr. rewrite stop_refused by done. unfold refused.
  split; intros Hs; case_bool_decide; done.
Qed.

Lemma stop_when_not_running_witness :
  stop 1 (constructed example_host)
  = Returned tt
      (add_logged (Log "Cannot shut down actionhero, not running" "error" None)
         (constructed example_host)) ∧
  stop 1 (shutting_down example_host)
  = Returned tt (shutting_down example_host).
Proof.
  split.
  - apply (stop_when_not_running 0 (constructed example_host)); done.
  - apply (stop_when_not_running 0 (shutting_down example_host)); done.
Defined.

(** C6 as stated fails: while [shuttingDown] is true, [stop()] logs no
    note. *)
Lemma stop_while_shutting_down_is_silent :
  shuttingDown (this (shutting_down example_host)) = Some true ∧
  ∃ w', stop 3 (shutting_down example_host) = Returned tt w' ∧
        logged w' = [].
Proof. split; [done|]. eexists. split; reflexivity. Qed.

(** C8, as the code has it: [fatalError] does nothing on a missing error;
    on one error or on any array of errors, the empty array included, it
    logs the message naming the phase tag and the stack of each error, calls
    [stop()], and ends the process with status 1. *)
Theorem fatalError_escalates :
  (∀ n type w, fatalError (S n) no_errors type w = Returned tt w) ∧
  (∀ n v type w,
     fatalError (S n) (single_error (a_falsy v)) type w = Returned tt w) ∧
  (∀ n (e : error) type w,
     fatalError (S n) (single_error e) type w
     = (stop n;; process_exit 1) (escalated [e] type w) ∧
     ∃ w', fatalError (S (S (S (S n)))) (single_error e) type w
           = Exited 1 w') ∧
  (∀ n errors type w,
     fatalError (S n) (error_array errors) type w
     = (stop n;; process_exit 1) (escalated errors type w) ∧
     ∃ w', fatalError (S (S (S (S n)))) (error_array errors) type w
           = Exited 1 w').
Proof.
  split_and!.
  - done.
  - done.
  - intros n e type w. rewrite !fatalError_single.
    split; [apply fatalError_unfold | apply fatalError_exits].
  - intros n errors type w.
    split; [apply fatalError_unfold | apply fatalError_exits].
Qed.

(** C8 as stated fails: on an empty array of errors [fatalError] logs,
    calls [stop()] (which logs that the process is not running) and ends the
    process. *)
Lemma fatalError_empty_array_exits :
  fatalError 4 (error_array []) "start" (constructed example_host)
  = Exited 1
      (log_all
         [Log ("Error with initializer step: " +:+ JSON_stringify "start")
              "emerg" None;
          Log "Cannot shut down actionhero, not running" "error" None]
         (constructed example_host)).
Proof. reflexivity. Qed.

(** C10: when a step of the stop list rejects (the steps before it being
    wrappers, as in every list [initialize()] stores), the [stop()] that
    [fatalError] calls finds [running] false and [shuttingDown] true, runs
    no step and changes nothing; the steps up to the one that rejected have
    run once and no other step has, and three nested calls are all there
    are. *)
Theorem stop_failure_does_not_recurse (w : World) (pre post : list step)
    (s : step) (e : error) :
  truthy (running (this w)) = true →
  stopInitializers (this w) = pre ++ s :: post →
  Forall wrapper pre →
  Forall resolves pre →
  step_rejection s = Some e →
  ∃ w1,
    running (this w1) = Some false ∧
    shuttingDown (this w1) = Some true ∧
    invoked w1 = invoked w ++ ((pre ++ [s]) ≫= step_calls) ∧
    ∀ n,
      stop (S (S (S n))) w = (stop (S n);; process_exit 1) w1 ∧
      stop (S n) w1 = Returned tt w1 ∧
      stop (S (S (S n))) w = Exited 1 w1.
Proof.
  intros Hr Hlist Hwrap Hres Hrej.
  set (jobs := stopInitializers (this w) ++ [stopTerminal]).
  assert (first_rejection jobs = Some e ∧ executed jobs = pre ++ [s])
    as [Hfirst Hexec].
  { unfold jobs. rewrite Hlist, <- app_assoc. simpl.
    by apply first_rejection_app. }
  destruct (stop_running 0 w Hr) as (w' & Hrun & Hev & Hsame & _).
  fold jobs in Hrun, Hev, Hsame. rewrite Hexec in Hev, Hsame.
  destruct Hsame as (Hthis & _).
  { apply Forall_app. split; [done|]. apply Forall_singleton.
    destruct s; simpl in Hrej; done. }
  destruct Hev as (Hinv & _).
  destruct (escalated_fields [e] "stop" w') as (_ & Hthis1 & Hinv1).
  assert (truthy (running (this (escalated [e] "stop" w'))) = false) as Hidle.
  { by rewrite Hthis1, Hthis. }
  assert (∀ n, stop (S n) (escalated [e] "stop" w')
               = Returned tt (escalated [e] "stop" w')) as Hnoop.
  { intros n. rewrite stop_refused by done. unfold refused.
    rewrite Hthis1, Hthis. done. }
  exists (escalated [e] "stop" w'). split_and!.
  - by rewrite Hthis1, Hthis.
  - by rewrite Hthis1, Hthis.
  - by rewrite Hinv1, Hinv.
  - intros n.
    assert (stop (S (S (S n))) w = Exited 1 (escalated [e] "stop" w')) as Hstop.
    { rewrite stop_unfold by done. fold jobs. unfold try_catch.
      rewrite Hrun, Hfirst. unfold settled.
      rewrite fatalError_single, fatalError_unfold. unfold bind.
      by rewrite Hnoop. }
    split_and!; [|done|done].
    rewrite Hstop. unfold bind. by rewrite Hnoop.
Qed.

Lemma stop_failure_does_not_recurse_witness :
  ∃ w1,
    running (this w1) = Some false ∧
    shuttingDown (this w1) = Some true ∧
    invoked w1 = [stop_call initializer_A; stop_call initializer_B] ∧
    ∀ n,
      stop (S (S (S n)))
        (running_with example_host
           [stopFunction initializer_A "/core/a.js";
            stopFunction initializer_B "/core/a.js"])
      = (stop (S n);; process_exit 1) w1 ∧
      stop (S n) w1 = Returned tt w1 ∧
      stop (S (S (S n)))
        (running_with example_host
           [stopFunction initializer_A "/core/a.js";
            stopFunction initializer_B "/core/a.js"])
      = Exited 1 w1.
Proof.
  apply (stop_failure_does_not_recurse
           (running_with example_host
              [stopFunction initializer_A "/core/a.js";
               stopFunction initializer_B "/core/a.js"])
           [stopFunction initializer_A "/core/a.js"] []
           (stopFunction initializer_B "/core/a.js")
           (new_Error "stop failed")).
  - reflexivity.
  - reflexivity.
  - repeat constructor.
  - repeat constructor.
  - reflexivity.
Defined.

Lemma start_unfold fuel w w0 :
  begins fuel w w0 →
  start fuel w
  = (failure <-
       caught
         (asyncWaterfall (startInitializers (this w0) ++ [startTerminal]));;
     match failure with
     | Some error =>
         fatalError fuel (single_error error) "start";;
         ret undefined
     | None => ret api
     end) (starting w0).
Proof.
  unfold begins, start. unfold bind at 1. unfold get at 1.
  unfold bind at 1.
  case_bool_decide as Hi.
  - intros ->. reflexivity.
  - intros [r Hr]. unfold bind at 1. rewrite Hr. reflexivity.
Qed.

(** A waterfall stops at the first step that rejects: the steps after it
    make no difference. *)
Lemma asyncWaterfall_rejects pre s post error w :
  Forall resolves pre → step_rejection s = Some error →
  asyncWaterfall (pre ++ s :: post) w = asyncWaterfall (pre ++ [s]) w ∧
  ∃ w', asyncWaterfall (pre ++ [s]) w = Thrown error w'.
Proof.
  intros Hpre Hs. rewrite !asyncWaterfall_app. unfold bind.
  destruct (asyncWaterfall_evolves pre w) as (w1 & -> & _).
  destruct (first_rejection_resolves _ Hpre) as [-> _]. simpl.
  destruct (run_step_evolves s w1) as (w2 & Hrun & _).
  unfold bind. rewrite Hrun, Hs. simpl. eauto.
Qed.

(** C4: when a step of the start list rejects, no later step of the list
    runs, nor the last step [start()] has pushed: [fatalError] is called
    with the tag [start] in the world the steps up to the one that rejects
    leave, in which, when these are wrappers, [bootTime] and the start count
    are what they were; [stop()] runs (its note is logged, the process stops
    running and the stop list is gone through), and the process ends with
    status 1. *)
Theorem start_failure_escalates (n : nat) (w w0 : World)
    (pre post : list step) (s : step) (e : error) :
  begins (S (S (S (S n)))) w w0 →
  startInitializers (this w0) = pre ++ s :: post →
  Forall resolves pre →
  step_rejection s = Some e →
  ∃ w1 w',
    start (S (S (S (S n)))) w
    = (fatalError (S (S (S (S n)))) (single_error e) "start";; ret undefined)
        w1 ∧
    asyncWaterfall (pre ++ [s]) (starting w0) = Thrown e w1 ∧
    (Forall wrapper pre → wrapper s →
     bootTime (this w1) = bootTime (this w0) ∧
     startCount (this w1) = startCount (this w0)) ∧
    invoked w1 = invoked w0 ++ ((pre ++ [s]) ≫= step_calls) ∧
    start (S (S (S (S n)))) w = Exited 1 w' ∧
    invoked w'
    = invoked w1
      ++ (executed (stopInitializers (this w0) ++ [stopTerminal])
          ≫= step_calls) ∧
    running (this w') = Some false ∧
    ∃ entries,
      logged w'
      = logged w1 ++ diagnostics [e] "start"
        ++ Log "stopping process..." "notice" None :: entries.
Proof.
  intros Hbegin Hlist Hres Hrej.
  set (jobs := startInitializers (this w0) ++ [startTerminal]).
  assert (first_rejection jobs = Some (an_error e)
          ∧ executed jobs = pre ++ [s]) as [Hfirst Hexec].
  { unfold jobs. rewrite Hlist, <- app_assoc. simpl.
    by apply first_rejection_app. }
  destruct (asyncWaterfall_evolves jobs (starting w0))
    as (w1 & Hrun & Hev & Hsame).
  rewrite Hfirst in Hrun. rewrite Hexec in Hev, Hsame.
  assert (asyncWaterfall (pre ++ [s]) (starting w0) = Thrown e w1) as Hsteps.
  { destruct (asyncWaterfall_rejects pre s (post ++ [startTerminal]) e
                (starting w0) Hres Hrej) as [Heq _].
    rewrite <- Heq. unfold jobs in Hrun.
    rewrite Hlist, <- app_assoc in Hrun. exact Hrun. }
  destruct Hev as (Hinv & _ & _ & _ & Hrunning & _ & _ & _ & Hstops & _).
  simpl in Hinv, Hrunning, Hstops.
  assert (start (S (S (S (S n)))) w
          = (fatalError (S (S (S (S n)))) (single_error e) "start";;
             ret undefined) w1) as Hstart.
  { rewrite (start_unfold _ w w0 Hbegin). fold jobs.
    unfold bind at 1. unfold caught, try_catch. unfold bind at 1.
    rewrite Hrun. reflexivity. }
  assert (Forall wrapper pre → wrapper s →
          bootTime (this w1) = bootTime (this w0) ∧
          startCount (this w1) = startCount (this w0)) as Hskipped.
  { intros Hwpre Hws. destruct Hsame as (-> & _); [|done].
    apply Forall_app. split; [done|]. by constructor. }
  destruct (escalated_fields [e] "start" w1) as (Hlog1 & Hthis1 & Hinv1).
  destruct (stop_running n (escalated [e] "start" w1))
    as (w2 & _ & Hev2 & _ & Hstop).
  { by rewrite Hthis1, Hrunning. }
  rewrite Hthis1, Hstops in Hev2, Hstop. simpl in Hev2.
  destruct Hev2 as (Hinv2 & (entries & Hlog2 & _) & _ & _ & Hrunning2 & _).
  simpl in Hinv2, Hlog2, Hrunning2.
  exists w1.
  assert (start (S (S (S (S n)))) w
          = (stop (S (S (S n)));; process_exit 1)
              (escalated [e] "start" w1)) as Hescalated.
  { rewrite Hstart. unfold bind at 1.
    rewrite fatalError_single, fatalError_unfold.
    unfold bind. by destruct (stop _ _). }
  unfold bind in Hescalated. rewrite Hstop in Hescalated.
  destruct (first_rejection (stopInitializers (this w0) ++ [stopTerminal]))
    as [[e2|v2]|] eqn:Hfirst2.
  - destruct (refused_fields (escalated [e2] "stop" w2))
      as (Hthis3 & Hinv3 & (entries3 & Hlog3)).
    destruct (escalated_fields [e2] "stop" w2) as (Hlog4 & Hthis4 & Hinv4).
    exists (refused (escalated [e2] "stop" w2)). split_and!; try done.
    + by rewrite Hinv3, Hinv4, Hinv2.
    + by rewrite Hthis3, Hthis4, Hrunning2.
    + exists (entries ++ diagnostics [e2] "stop" ++ entries3).
      rewrite Hlog3, Hlog4, Hlog2. simpl. by rewrite <- !app_assoc.
  - exists w2. split_and!; try done.
    exists entries. rewrite Hlog2. simpl. by rewrite <- !app_assoc.
  - exists w2. split_and!; try done.
    exists entries. rewrite Hlog2. simpl. by rewrite <- !app_assoc.
Qed.

Lemma start_failure_escalates_witness :
  ∃ w1 w',
    start 4 (constructed example_host)
    = (fatalError 4 (single_error (new_Error "start failed")) "start";;
       ret undefined) w1 ∧
    asyncWaterfall
      ([startFunction initializer_A "/core/a.js";
        startFunction initializer_B "/core/a.js"]
       ++ [startFunction duplicate_A "/core/b.js"])
      (starting initialized_example)
    = Thrown (new_Error "start failed") w1 ∧
    (Forall wrapper [startFunction initializer_A "/core/a.js";
                     startFunction initializer_B "/core/a.js"] →
     wrapper (startFunction duplicate_A "/core/b.js") →
     bootTime (this w1) = bootTime (this initialized_example) ∧
     startCount (this w1) = startCount (this initialized_example)) ∧
    invoked w1
    = invoked initialized_example
      ++ (([startFunction initializer_A "/core/a.js";
            startFunction initializer_B "/core/a.js"]
           ++ [startFunction duplicate_A "/core/b.js"]) ≫= step_calls) ∧
    start 4 (constructed example_host) = Exited 1 w' ∧
    invoked w'
    = invoked w1
      ++ (executed (stopInitializers (this initialized_example)
                    ++ [stopTerminal]) ≫= step_calls) ∧
    running (this w') = Some false ∧
    ∃ entries,
      logged w'
      = logged w1 ++ diagnostics [new_Error "start failed"] "start"
        ++ Log "stopping process..." "notice" None :: entries.
Proof.
  apply (start_failure_escalates 0 (constructed example_host)
           initialized_example
           [startFunction initializer_A "/core/a.js";
            startFunction initializer_B "/core/a.js"] []
           (startFunction duplicate_A "/core/b.js")
           (new_Error "start failed")).
  - exists api. vm_compute. reflexivity.
  - vm_compute. reflexivity.
  - repeat constructor.
  - reflexivity.
Defined.

(** ** Discovery *)

Lemma for_in_elem {V} (o : jsobj V) (x : string * V) :
  x ∈ for_in o ↔ x ∈ o.
Proof.
  unfold for_in. rewrite elem_of_app, list_elem_of_fmap, list_elem_of_filter.
  split.
  - intros [[[n y] [-> Hin]]|[_ Hin]]; [|done].
    rewrite merge_sort_Permutation in Hin. unfold index_entries in Hin.
    apply list_elem_of_omap in Hin as (kv & Hkv & Heq).
    destruct (array_index kv.1); simplify_eq/=. done.
  - intros Hin. destruct (array_index x.1) as [n|] eqn:Hidx; [left|by right].
    exists (n, x). split; [done|].
    rewrite merge_sort_Permutation. unfold index_entries.
    apply list_elem_of_omap. exists x. rewrite Hidx. done.
Qed.

Lemma discover_plugins_first_missing h entries : ∀ initializerFiles w,
  match list_find
          (λ x : string * plugin,
             existsSync h (path_normalize h (path x.2)) = false) entries with
  | Some (_, (_, descriptor)) =>
      discover_plugins h entries initializerFiles w
      = Thrown (new_Error ("plugin path does not exist: "
                           +:+ path_normalize h (path descriptor))) w
  | None =>
      ∃ files, discover_plugins h entries initializerFiles w
               = Returned files w
  end.
Proof.
  induction entries as [|[name d] entries IH]; intros files w; csimpl.
  - by eexists.
  - case_decide as Hex; csimpl.
    + by rewrite Hex.
    + apply not_false_is_true in Hex. rewrite Hex. csimpl.
      specialize (IH (files
                      ++ glob_sync h
                           (path_join h
                              [path_normalize h (path d); "initializers";
                               "**"; "*.js"])
                      ++ glob_sync h
                           (path_join h
                              [path_normalize h (path d); "dist";
                               "initializers"; "**"; "*.js"])) w).
      rewrite app_assoc in IH.
      destruct (list_find _ entries) as [[i [n' d']]|]; csimpl; exact IH.
Qed.

Lemma discover_plugins_missing h entries : ∀ initializerFiles,
  (∃ name descriptor,
     (name, descriptor) ∈ entries ∧
     existsSync h (path_normalize h (path descriptor)) = false) →
  ∃ name descriptor,
    (name, descriptor) ∈ entries ∧
    existsSync h (path_normalize h (path descriptor)) = false ∧
    ∀ w, discover_plugins h entries initializerFiles w
         = Thrown (new_Error ("plugin path does not exist: "
                              +:+ path_normalize h (path descriptor))) w.
Proof.
  induction entries as [|[name d] entries IH];
    intros files (name' & d' & Hin & Hmiss).
  - by apply not_elem_of_nil in Hin.
  - simpl.
    destruct (existsSync h (path_normalize h (path d))) eqn:Hex; simpl.
    + apply elem_of_cons in Hin as [Heq|Hin]; [simplify_eq; congruence|].
      edestruct IH as (name2 & d2 & Hin2 & Hmiss2 & Hthrow); [by eauto|].
      exists name2, d2. split_and!; [by right|done|apply Hthrow].
    + exists name, d. split_and!; [by left|done|done].
Qed.

(** C7, as the code has it: when the (normalized) path of a plugin
    descriptor does not exist, [initialize()] throws an [Error] whose message
    cites the normalized path of the first such descriptor in the order in
    which [for ... in] visits the plugins; the world is left as it was, so no
    initializer is registered, nothing is logged, [fatalError] is not called
    and the process goes on. *)
Theorem initialize_missing_plugin_path (fuel : nat) (w : World)
    (name : string) (descriptor : plugin) :
  (name, descriptor) ∈ plugins (this w) →
  existsSync (host w) (path_normalize (host w) (path descriptor)) = false →
  ∃ i name' descriptor',
    for_in (plugins (this w)) !! i = Some (name', descriptor') ∧
    existsSync (host w) (path_normalize (host w) (path descriptor')) = false ∧
    (∀ j entry,
       for_in (plugins (this w)) !! j = Some entry → (j < i)%nat →
       existsSync (host w) (path_normalize (host w) (path entry.2)) = true) ∧
    (name', descriptor') ∈ plugins (this w) ∧
    initialize fuel w
    = Thrown (new_Error ("plugin path does not exist: "
                         +:+ path_normalize (host w) (path descriptor'))) w.
Proof.
  intros Hin Hmiss.
  pose proof (discover_plugins_first_missing (host w)
                (for_in (plugins (this w)))) as Hfirst.
  destruct (list_find
              (λ x : string * plugin,
                 existsSync (host w) (path_normalize (host w) (path x.2))
                 = false) (for_in (plugins (this w))))
    as [[i [name' d']]|] eqn:Hfind.
  - apply list_find_Some in Hfind as (Hi & Hmiss' & Hbefore).
    exists i, name', d'. split_and!; [done|done| | |].
    + intros j entry Hj Hlt. apply not_false_is_true. eauto.
    + apply for_in_elem. by apply list_elem_of_lookup_2 in Hi.
    + unfold initialize, discover. unfold bind at 1. unfold bind at 1.
      unfold get at 1. unfold bind at 1. rewrite Hfirst. reflexivity.
  - exfalso. apply list_find_None in Hfind.
    rewrite list.Forall_forall in Hfind.
    apply (Hfind (name, descriptor)); [by apply for_in_elem|done].
Qed.

Lemma initialize_missing_plugin_path_witness :
  (plugins (this (with_plugins example_host))).*1 = ["ghost"; "7"] ∧
  initialize 4 (with_plugins example_host)
  = Thrown (new_Error "plugin path does not exist: /plugins/seven")
      (with_plugins example_host).
Proof.
  split; [vm_compute; reflexivity|].
  destruct (initialize_missing_plugin_path 4 (with_plugins example_host)
              "ghost" (Plugin "/plugins/missing" []))
    as (i & name' & d' & Hi & Hmiss & Hbefore & _ & Hthrown).
  - vm_compute. left.
  - reflexivity.
  - destruct i as [|[|i]].
    + vm_compute in Hi. injection Hi as <- <-. exact Hthrown.
    + specialize (Hbefore 0%nat ("7", Plugin "/plugins/seven" []) eq_refl).
      vm_compute in Hbefore. discriminate Hbefore. lia.
    + vm_compute in Hi. discriminate Hi.
Defined.

(** C7 as stated fails: with a plugin added at a path that does not exist,
    [initialize()] throws; it does not end the process, and [fatalError] has
    logged nothing. *)
Lemma initialize_missing_plugin_path_throws :
  ∃ w',
    (addPlugin "ghost" (Plugin "/plugins/missing" []);; initialize 4)
      (constructed example_host)
    = Thrown (new_Error "plugin path does not exist: /plugins/missing") w' ∧
    logged w' = [] ∧ detached w' = [].
Proof. eexists. split_and!; reflexivity. Qed.

(** ** The registry *)

Lemma warnings_app registry l1 l2 :
  warnings registry (l1 ++ l2)
  = warnings registry l1 ++ warnings (foldl register registry l1) l2.
Proof.
  revert registry. induction l1 as [|x l1 IH]; intros registry; simpl; [done|].
  by rewrite IH, app_assoc.
Qed.

Lemma loads_refl w : loads w w [].
Proof.
  unfold loads. split_and!; try done. exists []. by rewrite app_nil_r.
Qed.

Lemma loads_trans w1 w2 w3 l1 l2 :
  loads w1 w2 l1 → loads w2 w3 l2 → loads w1 w3 (l1 ++ l2).
Proof.
  intros (Hh1 & Hr1 & e1 & Hl1 & Hw1) (Hh2 & Hr2 & e2 & Hl2 & Hw2).
  unfold loads. split_and!.
  - congruence.
  - by rewrite foldl_app, <- Hr1.
  - exists (e1 ++ e2). split.
    + by rewrite Hl2, Hl1, app_assoc.
    + by rewrite filter_app, Hw1, Hw2, warnings_app, <- Hr1.
Qed.

Lemma quiet_filter entries :
  Forall (λ entry, severity entry ≠ "warning") entries →
  filter (λ entry, severity entry = "warning") entries = [].
Proof.
  induction 1 as [|x l Hx Hl IH]; [done|].
  by rewrite filter_cons_False.
Qed.

(** A step that leaves the registry alone and logs no warning. *)
Lemma loads_idle w w' :
  host w' = host w → initializers (this w') = initializers (this w) →
  quiet w w' → loads w w' [].
Proof.
  intros Hh Hr (entries & Hl & Hq). unfold loads. split_and!; try done.
  exists entries. split; [done|]. by apply quiet_filter.
Qed.

Lemma fatalError_detached_idle errors type w :
  ∃ w', fatalError_detached errors type w = Returned tt w' ∧
        host w' = host w ∧
        initializers (this w') = initializers (this w) ∧
        invoked w' = invoked w ∧
        quiet w w'.
Proof.
  unfold fatalError_detached.
  assert (∀ errs, ∃ w',
    (log ("Error with initializer step: " +:+ JSON_stringify type) "emerg"
         None;;
     forEach errs (λ error, log (err_stack error) "emerg" None);;
     stop_until_await;; modify (add_detached type)) w = Returned tt w' ∧
    host w' = host w ∧ initializers (this w') = initializers (this w) ∧
    invoked w' = invoked w ∧ quiet w w') as Harray.
  { intros errs. unfold bind at 1. unfold log at 1, modify at 1.
    unfold bind at 1. rewrite forEach_log.
    set (w1 := log_all _ _).
    assert (logged w1 = logged w ++ diagnostics errs type ∧ this w1 = this w
            ∧ invoked w1 = invoked w ∧ host w1 = host w)
      as (Hl1 & Ht1 & Hi1 & Hh1).
    { destruct (log_all_fields
                  ((λ error, Log (err_stack error) "emerg" None) <$> errs)
                  (add_logged
                     (Log ("Error with initializer step: "
                           +:+ JSON_stringify type) "emerg" None) w))
        as (Hl & Ht & Hi & _ & _ & _ & Hh).
      fold w1 in Hl, Ht, Hi, Hh. simpl in Hl.
      rewrite <- app_assoc in Hl. done. }
    assert (Forall (λ entry, severity entry ≠ "warning")
              (diagnostics errs type)) as Hdiag.
    { unfold diagnostics. constructor; [simpl; discriminate|].
      apply Forall_fmap, Forall_true. simpl. discriminate. }
    unfold stop_until_await, bind, get, modify, log. simpl.
    destruct (truthy (running (this w1))); simpl.
    - eexists. split; [reflexivity|]. simpl. rewrite Ht1, Hi1, Hh1.
      split_and!; try done. unfold quiet. simpl. rewrite Hl1.
      exists (diagnostics errs type
              ++ [Log "stopping process..." "notice" None]).
      split; [by rewrite app_assoc|]. apply Forall_app. split; [done|].
      repeat constructor. simpl. discriminate.
    - destruct (bool_decide (shuttingDown (this w1) = Some true)); simpl.
      + eexists. split; [reflexivity|]. simpl. rewrite Ht1, Hi1, Hh1.
        split_and!; try done. unfold quiet. simpl. rewrite Hl1. eauto.
      + eexists. split; [reflexivity|]. simpl. rewrite Ht1, Hi1, Hh1.
        split_and!; try done. unfold quiet. simpl. rewrite Hl1.
        exists (diagnostics errs type
                ++ [Log "Cannot shut down actionhero, not running" "error"
                      None]).
        split; [by rewrite app_assoc|]. apply Forall_app. split; [done|].
        repeat constructor. simpl. discriminate. }
  destruct errors as [|[e|v]|errs]; unfold normalize_errors.
  - exists w. split_and!; try done. exists []. by rewrite app_nil_r.
  - apply (Harray [e]).
  - exists w. split_and!; try done. exists []. by rewrite app_nil_r.
  - apply Harray.
Qed.

Lemma load_export_constructs file initializer r w :
  ∃ w',
    load_export file (Constructs initializer) r w
    = Returned (schedule r initializer file) w' ∧
    loads w w' [(initializer, file)] ∧
    (registered w (Initializer.name initializer) = true →
     w' = add_logged (Log (warningMessage initializer file) "warning" None) w).
Proof.
  unfold load_export, instantiate, loads, registered.
  unfold bind at 1. unfold bind at 1. unfold try_catch, bind at 1, get at 1.
  simpl foldl. unfold register, warnings. simpl fst. simpl snd.
  destruct (has_property (initializers (this w))
              (Initializer.name initializer)) eqn:Hhas.
  - eexists. split; [reflexivity|]. simpl. split_and!; try done.
    eexists. split; [reflexivity|]. done.
  - unfold bind at 1. unfold modify at 1.
    destruct (Initializer.validate initializer) as [e|].
    + unfold throw at 1.
      destruct (fatalError_detached_idle (single_error e) file
                  (add_invoked (validate_call initializer) w))
        as (w' & -> & Hh & Hr & _ & (entries & Hl & Hq)).
      exists w'. split; [reflexivity|]. split_and!; try done.
      exists entries. split; [done|]. by apply quiet_filter.
    + eexists. split; [reflexivity|]. simpl. split_and!; try done.
      exists []. by rewrite app_nil_r.
Qed.

Lemma load_export_throws file e r w :
  ∃ w', load_export file (Throws e) r w = Thrown undefined_initializer w' ∧
        loads w w' [].
Proof.
  unfold load_export, instantiate. unfold bind at 1. unfold bind at 1.
  destruct (fatalError_detached_idle (single_error e) file w)
    as (w' & -> & Hh & Hr & _ & Hq).
  exists w'. split; [reflexivity|]. by apply loads_idle.
Qed.

(** The instances a list of exports of [file] constructs. *)
Lemma load_exports_loads file exports : ∀ r w,
  let all := omap constructed_instance ((λ kc, (file, kc.2)) <$> exports) in
  ∃ w' processed,
    final_world (load_exports file exports r w) = Some w' ∧
    loads w w' processed ∧
    processed `prefix_of` all ∧
    ∀ r' w'', load_exports file exports r w = Returned r' w'' →
              processed = all ∧
              r' = foldl (λ r x, schedule r x.1 x.2) r all.
Proof.
  induction exports as [|[key c] exports IH]; intros r w all.
  - exists w, []. split_and!; auto using loads_refl. by intros r' w'' [= <- <-].
  - subst all. csimpl. unfold bind. destruct c as [e|i]; csimpl.
    + destruct (load_export_throws file e r w) as (w' & -> & Hloads).
      exists w', []. split_and!; try done. apply prefix_nil.
    + destruct (load_export_constructs file i r w) as (w1 & -> & Hloads & _).
      destruct (IH (schedule r i file) w1)
        as (w' & processed & Hfin & Hloads' & Hpre & Hret).
      exists w', ((i, file) :: processed). split_and!; try done.
      * by apply (loads_trans w w1 w' [(i, file)]).
      * by apply prefix_cons.
      * intros r' w'' Heq. destruct (Hret r' w'' Heq) as [-> ->]. done.
Qed.

Lemma load_file_unfold f r w :
  let file := path_normalize (host w) f in
  load_file f r w
  = match require_ (host w) file with
    | RequireThrows error => Thrown error w
    | ExportedFunction c => load_exports file [("default", c)] r w
    | ExportedClasses [] =>
        (fatalError_detached
           (single_error
              (new_Error ("no exported initializers found in " +:+ file)))
           file;;
         ret r) w
    | ExportedClasses exports => load_exports file exports r w
    end.
Proof.
  unfold load_file, bind, get. simpl.
  by destruct (require_ (host w) (path_normalize (host w) f)) as [e|c|[|x l]].
Qed.

Lemma load_file_loads f r w :
  let all := omap constructed_instance (exports_of (host w) f) in
  ∃ w' processed,
    final_world (load_file f r w) = Some w' ∧
    loads w w' processed ∧
    processed `prefix_of` all ∧
    ∀ r' w'', load_file f r w = Returned r' w'' →
              processed = all ∧
              r' = foldl (λ r x, schedule r x.1 x.2) r all.
Proof.
  intros all. subst all. rewrite load_file_unfold. unfold exports_of.
  destruct (require_ (host w) (path_normalize (host w) f)) as [e|c|exports].
  - exists w, []. split_and!; auto using loads_refl. done.
  - apply (load_exports_loads _ [("default", c)]).
  - destruct exports as [|x l]; [|apply load_exports_loads].
    unfold bind.
    destruct (fatalError_detached_idle
                (single_error
                   (new_Error ("no exported initializers found in "
                               +:+ path_normalize (host w) f)))
                (path_normalize (host w) f) w)
      as (w' & -> & Hh & Hr & _ & Hq).
    exists w', []. split_and!; try done; [by apply loads_idle|].
    by intros r' w'' [= <- <-].
Qed.

Lemma load_files_loads initializerFiles : ∀ r w,
  let all := instances_of (host w) initializerFiles in
  ∃ w' processed,
    final_world (load_files initializerFiles r w) = Some w' ∧
    loads w w' processed ∧
    processed `prefix_of` all ∧
    ∀ r' w'', load_files initializerFiles r w = Returned r' w'' →
              processed = all ∧
              r' = foldl (λ r x, schedule r x.1 x.2) r all.
Proof.
  induction initializerFiles as [|f files IH]; intros r w all.
  - exists w, []. split_and!; auto using loads_refl. by intros r' w'' [= <- <-].
  - subst all. unfold instances_of. rewrite bind_cons, omap_app.
    csimpl. unfold bind.
    destruct (load_file_loads f r w) as (w1 & p1 & Hfin & Hloads & Hpre & Hret).
    destruct (load_file f r w) as [r1 w1'|e1 w1'|c1 w1'|] eqn:Hfile;
      simpl in Hfin; [| | |done]; injection Hfin as ->.
    + destruct (Hret r1 w1 eq_refl) as [-> Hr1].
      destruct (IH r1 w1) as (w' & p2 & Hfin' & Hloads' & Hpre' & Hret').
      assert (host w1 = host w) as Hh by apply Hloads.
      unfold instances_of in Hpre', Hret'. rewrite Hh in Hpre', Hret'.
      eexists w', (_ ++ p2). split_and!; try done.
      * by apply (loads_trans w w1 w').
      * by apply prefix_app.
      * intros r' w'' Heq. destruct (Hret' r' w'' Heq) as [-> ->].
        by rewrite foldl_app, <- Hr1.
    + exists w1, p1. split_and!; try done. by apply prefix_app_r.
    + exists w1, p1. split_and!; try done. by apply prefix_app_r.
Qed.

Lemma register_keeps registry (x : loaded) name initializer :
  registry !! name = Some initializer →
  register registry x !! name = Some initializer.
Proof.
  intros Hn. unfold register, has_property.
  case_bool_decide as Hsome; simpl; [done|].
  destruct (inherited _); [done|].
  destruct (Initializer.validate x.1); [done|].
  rewrite lookup_insert_ne; [done|]. intros Heq. apply Hsome.
  rewrite Heq. eauto.
Qed.

Lemma foldl_register_keeps l : ∀ registry name initializer,
  registry !! name = Some initializer →
  foldl register registry l !! name = Some initializer.
Proof.
  induction l as [|x l IH]; intros registry name i Hn; simpl; [done|].
  by apply IH, register_keeps.
Qed.

(** Instances with distinct names that the registry does not have: none is
    warned about, and each that validates is registered. *)
Lemma register_fresh l : ∀ registry,
  NoDup ((λ x : loaded, Initializer.name x.1) <$> l) →
  Forall (λ x : loaded, has_property registry (Initializer.name x.1) = false)
         l →
  warnings registry l = [] ∧
  ∀ x, x ∈ l → Initializer.validate x.1 = None →
       foldl register registry l !! Initializer.name x.1 = Some x.1.
Proof.
  induction l as [|y l IH]; intros registry Hnd Hfresh; csimpl.
  - split; [done|]. intros x Hx. by apply not_elem_of_nil in Hx.
  - apply NoDup_cons in Hnd as [Hy Hnd].
    apply Forall_cons in Hfresh as [Hfy Hfresh].
    rewrite Hfy. simpl.
    assert (Forall (λ x : loaded,
              has_property (register registry y) (Initializer.name x.1) = false)
              l) as Hfresh'.
    { apply Forall_forall. intros x Hx.
      pose proof (proj1 (Forall_forall _ _) Hfresh x Hx) as Hfx.
      assert (Initializer.name y.1 ≠ Initializer.name x.1) as Hne.
      { intros Heq. apply Hy. rewrite Heq.
        by apply (list_elem_of_fmap_2 (λ x : loaded, Initializer.name x.1)). }
      unfold register. rewrite Hfy.
      destruct (Initializer.validate y.1); [done|].
      unfold has_property in Hfx |- *.
      apply orb_false_iff in Hfx as [Hfx ->]. rewrite orb_false_r.
      apply bool_decide_eq_false. apply bool_decide_eq_false in Hfx.
      by rewrite lookup_insert_ne. }
    destruct (IH (register registry y) Hnd Hfresh') as [Hw Hreg].
    split; [done|]. intros x Hx Hvalid.
    apply elem_of_cons in Hx as [->|Hx]; [|by apply Hreg].
    apply foldl_register_keeps. unfold register. rewrite Hfy, Hvalid.
    apply lookup_insert_eq.
Qed.

(** C3: when the name of a newly constructed instance is that of a registered
    one, the warning is logged and nothing else changes; the registry still
    maps the name to the original instance then, and after the remaining
    exports and files have been loaded. *)
Theorem collision_keeps_original (file : string)
    (new original : Initializer) (r : rankings) (w : World) :
  initializers (this w) !! Initializer.name new = Some original →
  let w' := add_logged (Log (warningMessage new file) "warning" None) w in
  load_export file (Constructs new) r w
  = Returned (schedule r new file) w' ∧
  initializers (this w') !! Initializer.name new = Some original ∧
  ∀ exportedClasses initializerFiles r' r'' w'' w''',
    load_exports file exportedClasses r' w' = Returned r'' w'' →
    final_world (load_files initializerFiles r'' w'') = Some w''' →
    initializers (this w'') !! Initializer.name new = Some original ∧
    initializers (this w''') !! Initializer.name new = Some original.
Proof.
  intros Horig w'.
  destruct (load_export_constructs file new r w) as (w1 & Hrun & _ & Hw1).
  rewrite Hrun, Hw1.
  2: { unfold registered, has_property. rewrite Horig.
       rewrite bool_decide_eq_true_2; [done|eauto]. }
  split_and!; [done|done|].
  intros exports files r' r'' w'' w''' Hexports Hfiles.
  destruct (load_exports_loads file exports r' w')
    as (w2 & p2 & Hfin2 & (_ & Hreg2 & _) & _).
  rewrite Hexports in Hfin2. injection Hfin2 as <-.
  assert (initializers (this w'') !! Initializer.name new = Some original)
    as Hkept.
  { rewrite Hreg2. by apply foldl_register_keeps. }
  split; [done|].
  destruct (load_files_loads files r'' w'')
    as (w3 & p3 & Hfin3 & (_ & Hreg3 & _) & _).
  rewrite Hfiles in Hfin3. injection Hfin3 as <-.
  rewrite Hreg3. by apply foldl_register_keeps.
Qed.

(** ** [initialize] as a whole *)

Lemma initialize_unfold fuel w initializerFiles r w1 loadList startList
    stopList :
  discover w = Returned initializerFiles w →
  load_files initializerFiles empty_rankings w = Returned r w1 →
  flattenOrderedInitializer (loadInitializerRankings r) = Some loadList →
  flattenOrderedInitializer (startInitializerRankings r) = Some startList →
  flattenOrderedInitializer (stopInitializerRankings r) = Some stopList →
  initialize fuel w
  = (failure <- caught (asyncWaterfall loadList);;
     match failure with
     | Some error =>
         fatalError fuel (single_error error) "initialize";;
         ret undefined
     | None =>
         modify (on_this (set_initialized (Some true)));;
         ret api
     end) (scheduled loadList startList stopList w1).
Proof.
  intros Hdiscover Hload Hls Hss Hps.
  unfold initialize. unfold bind at 1. rewrite Hdiscover.
  unfold bind at 1. rewrite Hload.
  unfold flattened. rewrite Hls, Hss, Hps.
  reflexivity.
Qed.

(** When one of the three maps does not flatten, [initialize()] rejects with
    the [TypeError] of reading a bucket that is not there, before any step
    runs. *)
Lemma initialize_flatten_fails fuel w initializerFiles r w1 :
  discover w = Returned initializerFiles w →
  load_files initializerFiles empty_rankings w = Returned r w1 →
  flattenOrderedInitializer (loadInitializerRankings r) = None ∨
  flattenOrderedInitializer (startInitializerRankings r) = None ∨
  flattenOrderedInitializer (stopInitializerRankings r) = None →
  ∃ w', initialize fuel w = Thrown undefined_bucket w' ∧
        logged w' = logged w1 ∧ invoked w' = invoked w1 ∧
        initializers (this w') = initializers (this w1) ∧
        host w' = host w1.
Proof.
  intros Hdiscover Hload Hnone.
  unfold initialize. unfold bind at 1. rewrite Hdiscover.
  unfold bind at 1. rewrite Hload. unfold flattened.
  destruct (flattenOrderedInitializer (loadInitializerRankings r));
    [|by eexists].
  unfold bind at 1. unfold ret at 1. unfold bind at 1. unfold modify at 1.
  destruct (flattenOrderedInitializer (startInitializerRankings r));
    [|by eexists].
  unfold bind at 1. unfold ret at 1. unfold bind at 1. unfold modify at 1.
  destruct (flattenOrderedInitializer (stopInitializerRankings r));
    [|by eexists].
  by destruct Hnone as [?|[?|?]].
Qed.

Lemma initialize_load_fails fuel w initializerFiles :
  discover w = Returned initializerFiles w →
  (∀ r w1, load_files initializerFiles empty_rankings w ≠ Returned r w1) →
  final_world (initialize fuel w)
  = final_world (load_files initializerFiles empty_rankings w).
Proof.
  intros Hdiscover Hload. unfold initialize. unfold bind at 1.
  rewrite Hdiscover. unfold bind at 1.
  destruct (load_files initializerFiles empty_rankings w) as [r w1| | |];
    try done.
  by destruct (Hload r w1).
Qed.

Lemma phase_order_complete priority discovered order (x : loaded) :
  phase_order priority discovered order →
  x ∈ discovered → 0 < priority x.1 → x ∈ order.
Proof.
  intros [_ Hfilter] Hx Hpos.
  assert (x ∈ filter (λ y : loaded, priority y.1 = priority x.1) order) as Hin.
  { rewrite Hfilter. by apply list_elem_of_filter. }
  apply list_elem_of_filter in Hin. tauto.
Qed.


Lemma quiet_refl w : quiet w w.
Proof. exists []. by rewrite app_nil_r. Qed.

Lemma quiet_trans w1 w2 w3 : quiet w1 w2 → quiet w2 w3 → quiet w1 w3.
Proof.
  intros (e1 & H1 & Q1) (e2 & H2 & Q2). exists (e1 ++ e2).
  split; [by rewrite H2, H1, app_assoc | by apply Forall_app].
Qed.

Lemma evolves_quiet w w' calls : evolves w w' calls → quiet w w'.
Proof. intros (_ & Hq & _). exact Hq. Qed.

Lemma quiet_escalated errors type w : quiet w (escalated errors type w).
Proof.
  destruct (escalated_fields errors type w) as (Hl & _).
  exists (diagnostics errors type). split; [done|].
  unfold diagnostics. constructor; [simpl; discriminate|].
  apply Forall_fmap, Forall_true. simpl. discriminate.
Qed.

Lemma quiet_refused w : quiet w (refused w).
Proof.
  unfold refused. case_bool_decide; [apply quiet_refl|].
  eexists. split; [reflexivity|]. repeat constructor. simpl. discriminate.
Qed.

Lemma quiet_stopping w : quiet w (stopping w).
Proof.
  eexists. split; [reflexivity|]. repeat constructor. simpl. discriminate.
Qed.

(** Neither [fatalError] nor [stop] logs a warning. *)
Lemma escalation_quiet fuel :
  (∀ errors type w w',
     final_world (fatalError fuel errors type w) = Some w' → quiet w w') ∧
  (∀ w w', final_world (stop fuel w) = Some w' → quiet w w').
Proof.
  induction fuel as [|fuel [IHf IHs]]; [split; intros; done|].
  assert (∀ errors type w w',
            final_world (fatalError (S fuel) (error_array errors) type w)
            = Some w' → quiet w w') as Harray.
  { intros errors type w w'. rewrite fatalError_unfold. unfold bind.
    intros Hfin. apply (quiet_trans _ (escalated errors type w));
      [apply quiet_escalated|].
    apply IHs.
    destruct (stop fuel (escalated errors type w)); simpl in *; congruence. }
  split.
  - intros [|[e|v]|errors] type w w'.
    + simpl. intros [= <-]. apply quiet_refl.
    + rewrite fatalError_single. apply Harray.
    + simpl. intros [= <-]. apply quiet_refl.
    + apply Harray.
  - intros w w'. destruct (truthy (running (this w))) eqn:Hr.
    + rewrite stop_unfold by done. unfold try_catch.
      destruct (asyncWaterfall_evolves
                  (stopInitializers (this w) ++ [stopTerminal]) (stopping w))
        as (w1 & -> & Hev & _).
      intros Hfin.
      apply (quiet_trans _ (stopping w)); [apply quiet_stopping|].
      apply (quiet_trans _ w1); [by apply (evolves_quiet _ _ _ Hev)|].
      destruct (first_rejection _) as [e|]; simpl in Hfin.
      * by apply (IHf _ _ _ _ Hfin).
      * injection Hfin as <-. apply quiet_refl.
    + rewrite stop_refused by done. intros [= <-]. apply quiet_refused.
Qed.

Lemma fatalError_never_returns fuel (e : error) type w a w' :
  fatalError fuel (single_error e) type w ≠ Returned a w'.
Proof.
  rewrite fatalError_single. destruct fuel as [|fuel]; [done|].
  rewrite fatalError_unfold. unfold bind.
  by destruct (stop fuel (escalated [e] type w)).
Qed.

Lemma schedule_all_foldl l :
  foldl (λ r (x : loaded), schedule r x.1 x.2) empty_rankings l
  = schedule_all l.
Proof. done. Qed.

(** When the loop over the files returns, every discovered instance has gone
    through the registry and the rankings. *)
Lemma load_files_returned initializerFiles r w w1 :
  load_files initializerFiles empty_rankings w = Returned r w1 →
  r = schedule_all (instances_of (host w) initializerFiles) ∧
  loads w w1 (instances_of (host w) initializerFiles).
Proof.
  intros Hload.
  destruct (load_files_loads initializerFiles empty_rankings w)
    as (w1' & processed & Hfin & Hloads & _ & Hret).
  rewrite Hload in Hfin. injection Hfin as <-.
  destruct (Hret r w1 Hload) as [-> ->]. done.
Qed.

(** [initialize()] once the three lists are stored: the load list runs, and
    what it rejects with, if it does, goes to [fatalError]. *)
Lemma initialize_loaded fuel w initializerFiles w1 loadList startList
    stopList :
  discover w = Returned initializerFiles w →
  let discovered := instances_of (host w) initializerFiles in
  load_files initializerFiles empty_rankings w
  = Returned (schedule_all discovered) w1 →
  flattenOrderedInitializer
    (loadInitializerRankings (schedule_all discovered)) = Some loadList →
  flattenOrderedInitializer
    (startInitializerRankings (schedule_all discovered)) = Some startList →
  flattenOrderedInitializer
    (stopInitializerRankings (schedule_all discovered)) = Some stopList →
  ∃ w2,
    evolves (scheduled loadList startList stopList w1) w2
      (executed loadList ≫= step_calls) ∧
    same_process (scheduled loadList startList stopList w1) w2 ∧
    initialize fuel w
    = match first_rejection loadList with
      | None => Returned api (on_this (set_initialized (Some true)) w2)
      | Some error =>
          (fatalError fuel (single_error error) "initialize";;
           ret undefined) w2
      end.
Proof.
  intros Hdiscover discovered Hload Hls Hss Hps.
  destruct (asyncWaterfall_evolves loadList
              (scheduled loadList startList stopList w1))
    as (w2 & Hrun & Hev & Hsame).
  exists w2. split_and!; [done| |].
  - apply Hsame. apply list.Forall_forall. intros s Hs.
    apply elem_of_executed in Hs.
    by destruct (load_list_elem _ _ _ Hls Hs) as (x & _ & _ & ->).
  - rewrite (initialize_unfold fuel w initializerFiles _ w1 loadList
               startList stopList) by done.
    unfold bind at 1. unfold caught, try_catch. unfold bind at 1.
    rewrite Hrun. by destruct (first_rejection loadList).
Qed.

(** When [initialize()] returns: every discovered instance went through the
    registry, the three maps were flattened into the lists, and the load
    list has run, to its end when the result is [api], and up to a step that
    rejects with a falsy value when it is [undefined]. *)
Lemma initialize_returns fuel w initializerFiles res w' :
  discover w = Returned initializerFiles w →
  initialize fuel w = Returned res w' →
  let discovered := instances_of (host w) initializerFiles in
  ∃ w1 loadList startList stopList,
    loads w w1 discovered ∧
    load_files initializerFiles empty_rankings w
    = Returned (schedule_all discovered) w1 ∧
    flattenOrderedInitializer
      (loadInitializerRankings (schedule_all discovered)) = Some loadList ∧
    flattenOrderedInitializer
      (startInitializerRankings (schedule_all discovered)) = Some startList ∧
    flattenOrderedInitializer
      (stopInitializerRankings (schedule_all discovered)) = Some stopList ∧
    startInitializers (this w') = startList ∧
    stopInitializers (this w') = stopList ∧
    initializers (this w') = initializers (this w1) ∧
    invoked w' = invoked w1 ++ (executed loadList ≫= step_calls) ∧
    quiet w1 w' ∧
    pidFile w' = pidFile w1 ∧ api_running w' = api_running w1 ∧
    match res with
    | api =>
        first_rejection loadList = None ∧ executed loadList = loadList ∧
        initialized (this w') = Some true
    | undefined =>
        (∃ v, first_rejection loadList = Some (a_falsy v)) ∧
        initialized (this w') = initialized (this w1)
    end.
Proof.
  intros Hdiscover Hinit discovered.
  destruct (load_files initializerFiles empty_rankings w)
    as [r w1|e w1|c w1|] eqn:Hload.
  2,3,4: unfold initialize, bind in Hinit;
         rewrite Hdiscover, Hload in Hinit; done.
  destruct (load_files_returned _ _ _ _ Hload) as [-> Hloads].
  fold discovered in Hload, Hloads.
  destruct (flattenOrderedInitializer
              (loadInitializerRankings (schedule_all discovered)))
    as [loadList|] eqn:Hls.
  2: { destruct (initialize_flatten_fails fuel w _ _ _ Hdiscover Hload)
         as (? & Hthrown & _); [by left|]. by rewrite Hthrown in Hinit. }
  destruct (flattenOrderedInitializer
              (startInitializerRankings (schedule_all discovered)))
    as [startList|] eqn:Hss.
  2: { destruct (initialize_flatten_fails fuel w _ _ _ Hdiscover Hload)
         as (? & Hthrown & _); [by right; left|]. by rewrite Hthrown in Hinit. }
  destruct (flattenOrderedInitializer
              (stopInitializerRankings (schedule_all discovered)))
    as [stopList|] eqn:Hps.
  2: { destruct (initialize_flatten_fails fuel w _ _ _ Hdiscover Hload)
         as (? & Hthrown & _); [by right; right|].
       by rewrite Hthrown in Hinit. }
  destruct (initialize_loaded fuel w initializerFiles w1 loadList startList
              stopList Hdiscover Hload Hls Hss Hps)
    as (w2 & Hev & Hsame & Heq).
  rewrite Heq in Hinit. clear Heq.
  pose proof (evolves_quiet _ _ _ Hev) as (entries & Hlog & Hquiet).
  destruct Hsame as (Hthis & Hpid & Hapi).
  destruct Hev as (Hinv & _).
  exists w1, loadList, startList, stopList.
  destruct (first_rejection loadList) as [[e|v]|] eqn:Hfirst.
  - exfalso. unfold bind in Hinit.
    destruct (fatalError fuel (single_error e) "initialize" w2)
      as [a w3| | |] eqn:Hfatal; try done.
    by apply fatalError_never_returns in Hfatal.
  - destruct fuel as [|fuel]; [done|].
    unfold bind in Hinit. rewrite fatalError_falsy in Hinit.
    injection Hinit as <- <-. rewrite Hthis. simpl.
    split_and!; try done.
    + by exists entries.
    + by eexists.
  - injection Hinit as <- <-. simpl. rewrite Hthis. simpl.
    split_and!; try done.
    + by exists entries.
    + by apply first_rejection_resolves, first_rejection_none.
Qed.

(** The warnings [initialize()] logs are those of the instances it gets
    through. *)
Lemma initialize_warnings fuel w initializerFiles w' :
  discover w = Returned initializerFiles w →
  final_world (initialize fuel w) = Some w' →
  ∃ processed entries,
    processed `prefix_of` instances_of (host w) initializerFiles ∧
    logged w' = logged w ++ entries ∧
    filter (λ entry, severity entry = "warning") entries
    = warnings (initializers (this w)) processed.
Proof.
  intros Hdiscover Hfin.
  destruct (load_files_loads initializerFiles empty_rankings w)
    as (w1 & processed & Hfin1 & (_ & _ & entries & Hlog & Hwarn) & Hpre & _).
  exists processed.
  assert (quiet w1 w' → ∃ entries',
            logged w' = logged w ++ entries' ∧
            filter (λ entry, severity entry = "warning") entries'
            = warnings (initializers (this w)) processed) as Hquiet.
  { intros (entries2 & Hlog2 & Hq2). exists (entries ++ entries2). split.
    - by rewrite Hlog2, Hlog, app_assoc.
    - by rewrite filter_app, Hwarn, quiet_filter, app_nil_r. }
  destruct (load_files initializerFiles empty_rankings w)
    as [r w1'|e w1'|c w1'|] eqn:Hload; [| | |done]; injection Hfin1 as ->.
  2,3: rewrite (initialize_load_fails fuel w initializerFiles) in Hfin
         by (done || by rewrite Hload);
       rewrite Hload in Hfin; injection Hfin as <-;
       destruct Hquiet as (entries' & ? & ?); [apply quiet_refl|]; by eauto.
  destruct Hquiet as (entries' & ? & ?); [|by eauto].
  destruct (load_files_returned _ _ _ _ Hload) as [-> _].
  set (discovered := instances_of (host w) initializerFiles) in *.
  destruct (flattenOrderedInitializer
              (loadInitializerRankings (schedule_all discovered)))
    as [loadList|] eqn:Hls;
    [destruct (flattenOrderedInitializer
                 (startInitializerRankings (schedule_all discovered)))
       as [startList|] eqn:Hss;
     [destruct (flattenOrderedInitializer
                  (stopInitializerRankings (schedule_all discovered)))
        as [stopList|] eqn:Hps|]|].
  2,3,4: destruct (initialize_flatten_fails fuel w _ _ _ Hdiscover Hload)
           as (w2 & Hthrown & Hlog2 & _); [tauto|];
         rewrite Hthrown in Hfin; injection Hfin as <-;
         exists []; split; [by rewrite app_nil_r | constructor].
  destruct (initialize_loaded fuel w initializerFiles w1 loadList startList
              stopList Hdiscover Hload Hls Hss Hps)
    as (w2 & Hev & _ & Heq).
  rewrite Heq in Hfin. clear Heq.
  apply (quiet_trans _ (scheduled loadList startList stopList w1)).
  { exists []. split; [simpl; by rewrite app_nil_r | constructor]. }
  apply (quiet_trans _ w2); [by apply (evolves_quiet _ _ _ Hev)|].
  destruct (first_rejection loadList) as [e|]; simpl in Hfin.
  - unfold bind at 1 in Hfin.
    apply (proj1 (escalation_quiet fuel) (single_error e) "initialize").
    by destruct (fatalError fuel (single_error e) "initialize" w2).
  - injection Hfin as <-.
    exists []. split; [simpl; by rewrite app_nil_r | constructor].
Qed.

Lemma discover_plugins_settles h entries : ∀ initializerFiles w,
  (∃ files, discover_plugins h entries initializerFiles w = Returned files w) ∨
  (∃ e, discover_plugins h entries initializerFiles w = Thrown e w).
Proof.
  induction entries as [|[name d] entries IH]; intros files w; simpl.
  - left. by eexists.
  - destruct (existsSync h (path_normalize h (path d))); simpl.
    + apply IH.
    + right. by eexists.
Qed.

Lemma discover_settles w :
  (∃ files, discover w = Returned files w) ∨ (∃ e, discover w = Thrown e w).
Proof.
  unfold discover, bind, get.
  match goal with
  | |- context [discover_plugins ?h ?es ?fs ?w'] =>
      destruct (discover_plugins_settles h es fs w') as [[files ->]|[e ->]]
  end; [|right; eexists; reflexivity].
  destruct (inherited_names (this w)); [left|right]; eexists; reflexivity.
Qed.

(** [initialize()] always ends, given fuel for four nested calls. *)
Lemma initialize_ends n w :
  ∃ w', final_world (initialize (S (S (S (S n)))) w) = Some w'.
Proof.
  destruct (discover_settles w) as [[files Hdiscover]|[e Hdiscover]].
  2: { unfold initialize, bind. rewrite Hdiscover. by eexists. }
  destruct (load_files_loads files empty_rankings w)
    as (w1 & _ & Hfin & _).
  destruct (load_files files empty_rankings w) as [r w1'| | |] eqn:Hload;
    [| | |done].
  2,3: rewrite (initialize_load_fails _ w files)
         by (done || by rewrite Hload);
       rewrite Hload; by eexists.
  destruct (load_files_returned _ _ _ _ Hload) as [-> _].
  set (discovered := instances_of (host w) files) in *.
  destruct (flattenOrderedInitializer
              (loadInitializerRankings (schedule_all discovered)))
    as [loadList|] eqn:Hls;
    [destruct (flattenOrderedInitializer
                 (startInitializerRankings (schedule_all discovered)))
       as [startList|] eqn:Hss;
     [destruct (flattenOrderedInitializer
                  (stopInitializerRankings (schedule_all discovered)))
        as [stopList|] eqn:Hps|]|].
  2,3,4: destruct (initialize_flatten_fails (S (S (S (S n)))) w _ _ _
                     Hdiscover Hload) as (w2 & -> & _); [tauto|];
         by eexists.
  destruct (initialize_loaded (S (S (S (S n)))) w files w1' loadList
              startList stopList Hdiscover Hload Hls Hss Hps)
    as (w2 & _ & _ & ->).
  destruct (first_rejection loadList) as [[e|v]|]; [| |by eexists].
  - unfold bind. rewrite fatalError_single.
    destruct (fatalError_exits n [e] "initialize" w2) as (w3 & ->).
    by eexists.
  - unfold bind. rewrite fatalError_falsy. by eexists.
Qed.

(** The start and stop lists [initialize()] stores hold wrappers only. *)
Lemma initialize_lists_wrappers fuel w initializerFiles res w' :
  discover w = Returned initializerFiles w →
  initialize fuel w = Returned res w' →
  Forall wrapper (startInitializers (this w')) ∧
  Forall wrapper (stopInitializers (this w')).
Proof.
  intros Hdiscover Hinit.
  destruct (initialize_returns fuel w initializerFiles res w' Hdiscover Hinit)
    as (_ & ls & ss & ps & _ & _ & _ & Hss & Hps & <- & <- & _).
  split; apply list.Forall_forall; intros s Hs.
  - by destruct (start_list_elem _ _ _ Hss Hs) as (x & _ & _ & ->).
  - by destruct (stop_list_elem _ _ _ Hps Hs) as (x & _ & _ & ->).
Qed.

(** ** The phase lists *)

(** C1: the flattened phase lists are not ordered lists of the participating
    instances at every priority. A bucket is read back through the property
    name of its priority, and the name of 10^21 is [1e+21], which [parseInt]
    reads as 1: with A and C at [loadPriority] 1 and a third instance at
    10^21, the flattened load list is A, C, A, C, in which C comes before A
    and the third instance has no step; with that instance alone the
    flattening reads a bucket that is not there, and [initialize()] rejects
    with the [TypeError] before any step runs (the one call made is the
    [validate] of the registry loop). *)
Theorem flattened_phase_lists_beyond_exact_keys :
  flattenOrderedInitializer
    (loadInitializerRankings
       (schedule_all [(initializer_A, "/core/a.js");
                      (initializer_C, "/core/b.js");
                      (initializer_far, "/core/far.js")]))
  = Some [initializeFunction initializer_A "/core/a.js";
          initializeFunction initializer_C "/core/b.js";
          initializeFunction initializer_A "/core/a.js";
          initializeFunction initializer_C "/core/b.js"] ∧
  flattenOrderedInitializer
    (loadInitializerRankings
       (schedule_all [(initializer_far, "/core/far.js")])) = None ∧
  instances_of (broken_host ["/core/far.js"]) ["/core/far.js"]
  = [(initializer_far, "/core/far.js")] ∧
  ∃ w', initialize 4 (constructed (broken_host ["/core/far.js"]))
        = Thrown undefined_bucket w' ∧
        invoked w' = [validate_call initializer_far] ∧
        initialized (this w') = None.
Proof.
  split_and!; [vm_compute; reflexivity .. |].
  eexists. split_and!; vm_compute; reflexivity.
Qed.

(** X21: as long as every priority is below 10^21 in absolute value, each
    flattened phase list (load, start, stop) holds the wrappers of the
    participating instances by non-decreasing priority of that phase, the
    instances of one priority in discovery order; [initialize()] runs the
    load list in this order, to its end when it returns [api], and stores the
    start and stop lists; with A at [loadPriority] 1, B at 2 and C at 1,
    discovered in the order A, B, C, the load list is A, C, B. *)
Theorem flattened_phase_lists_ordered :
  (∀ discovered : list loaded,
     (Forall (λ x : loaded, exact_key (Initializer.loadPriority x.1))
        discovered →
      ∃ order,
        flattenOrderedInitializer
          (loadInitializerRankings (schedule_all discovered))
        = Some ((λ x, initializeFunction x.1 x.2) <$> order) ∧
        phase_order Initializer.loadPriority discovered order) ∧
     (Forall (λ x : loaded, exact_key (Initializer.startPriority x.1))
        discovered →
      ∃ order,
        flattenOrderedInitializer
          (startInitializerRankings (schedule_all discovered))
        = Some ((λ x, startFunction x.1 x.2) <$> order) ∧
        phase_order Initializer.startPriority discovered order) ∧
     (Forall (λ x : loaded, exact_key (Initializer.stopPriority x.1))
        discovered →
      ∃ order,
        flattenOrderedInitializer
          (stopInitializerRankings (schedule_all discovered))
        = Some ((λ x, stopFunction x.1 x.2) <$> order) ∧
        phase_order Initializer.stopPriority discovered order)) ∧
  (∀ fuel w initializerFiles res w',
     discover w = Returned initializerFiles w →
     initialize fuel w = Returned res w' →
     let discovered := instances_of (host w) initializerFiles in
     exact_priorities discovered →
     ∃ w1 loadOrder startOrder stopOrder,
       load_files initializerFiles empty_rankings w
       = Returned (schedule_all discovered) w1 ∧
       invoked w'
       = invoked w1
         ++ (executed ((λ x, initializeFunction x.1 x.2) <$> loadOrder)
             ≫= step_calls) ∧
       (res = api →
        executed ((λ x, initializeFunction x.1 x.2) <$> loadOrder)
        = (λ x, initializeFunction x.1 x.2) <$> loadOrder) ∧
       phase_order Initializer.loadPriority discovered loadOrder ∧
       startInitializers (this w')
       = (λ x, startFunction x.1 x.2) <$> startOrder ∧
       phase_order Initializer.startPriority discovered startOrder ∧
       stopInitializers (this w')
       = (λ x, stopFunction x.1 x.2) <$> stopOrder ∧
       phase_order Initializer.stopPriority discovered stopOrder) ∧
  (∀ (A B C : Initializer) (fA fB fC : string),
     Initializer.loadPriority A = 1 →
     Initializer.loadPriority B = 2 →
     Initializer.loadPriority C = 1 →
     flattenOrderedInitializer
       (loadInitializerRankings (schedule_all [(A, fA); (B, fB); (C, fC)]))
     = Some [initializeFunction A fA; initializeFunction C fC;
             initializeFunction B fB]).
Proof.
  split_and!.
  - intros discovered.
    split_and!; [apply load_list | apply start_list | apply stop_list].
  - intros fuel w files res w' Hdiscover Hinit discovered Hexact.
    destruct (exact_priorities_phases _ Hexact) as (Hl & Hs & Hp).
    destruct (initialize_returns fuel w files res w' Hdiscover Hinit)
      as (w1 & ls & ss & ps & _ & Hload & Hls & Hss & Hps & Hstart & Hstop
          & _ & Hinv & _ & _ & _ & Hres).
    fold discovered in Hload, Hls, Hss, Hps.
    destruct (load_list discovered Hl) as (lo & Hlo & Hlo').
    destruct (start_list discovered Hs) as (so & Hso & Hso').
    destruct (stop_list discovered Hp) as (po & Hpo & Hpo').
    rewrite Hls in Hlo. injection Hlo as ->.
    rewrite Hss in Hso. injection Hso as ->.
    rewrite Hps in Hpo. injection Hpo as ->.
    exists w1, lo, so, po. split_and!; try done.
    intros ->. by destruct Hres as (_ & ? & _).
  - intros A B C fA fB fC HA HB HC.
    rewrite schedule_all_load. unfold build. simpl. rewrite HA, HB, HC.
    vm_compute. reflexivity.
Qed.

Lemma flattened_phase_lists_ordered_witness :
  flattenOrderedInitializer
    (loadInitializerRankings
       (schedule_all [(initializer_A, "/core/a.js");
                      (initializer_B, "/core/a.js");
                      (initializer_C, "/core/b.js")]))
  = Some [initializeFunction initializer_A "/core/a.js";
          initializeFunction initializer_C "/core/b.js";
          initializeFunction initializer_B "/core/a.js"] ∧
  ∃ startOrder,
    startInitializers (this initialized_example)
    = (λ x, startFunction x.1 x.2) <$> startOrder ∧
    phase_order Initializer.startPriority
      (instances_of example_host ["/core/a.js"; "/core/b.js"]) startOrder.
Proof.
  destruct flattened_phase_lists_ordered as (_ & Hlists & Hscenario).
  split; [apply Hscenario; reflexivity|].
  destruct (Hlists 4%nat (constructed example_host)
              ["/core/a.js"; "/core/b.js"] api initialized_example)
    as (w1 & lo & so & _ & _ & _ & _ & _ & Hs & Hso & _);
    [vm_compute; reflexivity | vm_compute; reflexivity | |].
  - repeat constructor; vm_compute; done.
  - exists so. split; [exact Hs | exact Hso].
Defined.

(** C2: an initializer whose [loadPriority] is zero or negative has no step
    in the flattened load list, and likewise for [startPriority] and the
    start list and for [stopPriority] and the stop list, whatever the
    priorities of the others (and the list is there as long as those are
    below 10^21 in absolute value); accordingly the load phase of
    [initialize()] does not invoke its [initialize] method, and the start and
    stop lists [initialize()] stores hold no step of it. *)
Theorem excluded_from_phase (discovered : list loaded)
    (initializer : Initializer) :
  (Initializer.loadPriority initializer ≤ 0 →
   (∀ output,
      flattenOrderedInitializer
        (loadInitializerRankings (schedule_all discovered)) = Some output →
      ∀ s, s ∈ output → step_initializer s ≠ Some initializer) ∧
   (Forall (λ x : loaded, exact_key (Initializer.loadPriority x.1))
      discovered →
    ∃ output,
      flattenOrderedInitializer
        (loadInitializerRankings (schedule_all discovered)) = Some output)) ∧
  (Initializer.startPriority initializer ≤ 0 →
   (∀ output,
      flattenOrderedInitializer
        (startInitializerRankings (schedule_all discovered)) = Some output →
      ∀ s, s ∈ output → step_initializer s ≠ Some initializer) ∧
   (Forall (λ x : loaded, exact_key (Initializer.startPriority x.1))
      discovered →
    ∃ output,
      flattenOrderedInitializer
        (startInitializerRankings (schedule_all discovered)) = Some output)) ∧
  (Initializer.stopPriority initializer ≤ 0 →
   (∀ output,
      flattenOrderedInitializer
        (stopInitializerRankings (schedule_all discovered)) = Some output →
      ∀ s, s ∈ output → step_initializer s ≠ Some initializer) ∧
   (Forall (λ x : loaded, exact_key (Initializer.stopPriority x.1))
      discovered →
    ∃ output,
      flattenOrderedInitializer
        (stopInitializerRankings (schedule_all discovered)) = Some output)) ∧
  (∀ fuel w initializerFiles res w',
     discover w = Returned initializerFiles w →
     initialize fuel w = Returned res w' →
     (Initializer.loadPriority initializer ≤ 0 →
      ∃ w1 calls,
        load_files initializerFiles empty_rankings w
        = Returned (schedule_all (instances_of (host w) initializerFiles)) w1 ∧
        invoked w' = invoked w1 ++ calls ∧
        initialize_call initializer ∉ calls) ∧
     (Initializer.startPriority initializer ≤ 0 →
      ∀ s, s ∈ startInitializers (this w') →
           step_initializer s ≠ Some initializer) ∧
     (Initializer.stopPriority initializer ≤ 0 →
      ∀ s, s ∈ stopInitializers (this w') →
           step_initializer s ≠ Some initializer)).
Proof.
  split_and!.
  - intros Hle. split.
    + intros output Hflat s Hs.
      destruct (load_list_elem _ _ _ Hflat Hs) as (x & _ & Hpos & ->).
      simpl. intros [= <-]. lia.
    + intros Hexact. destruct (load_list discovered Hexact) as (? & -> & _).
      by eexists.
  - intros Hle. split.
    + intros output Hflat s Hs.
      destruct (start_list_elem _ _ _ Hflat Hs) as (x & _ & Hpos & ->).
      simpl. intros [= <-]. lia.
    + intros Hexact. destruct (start_list discovered Hexact) as (? & -> & _).
      by eexists.
  - intros Hle. split.
    + intros output Hflat s Hs.
      destruct (stop_list_elem _ _ _ Hflat Hs) as (x & _ & Hpos & ->).
      simpl. intros [= <-]. lia.
    + intros Hexact. destruct (stop_list discovered Hexact) as (? & -> & _).
      by eexists.
  - intros fuel w files res w' Hdiscover Hinit.
    destruct (initialize_returns fuel w files res w' Hdiscover Hinit)
      as (w1 & ls & ss & ps & _ & Hload & Hls & Hss & Hps & <- & <- & _
          & Hinv & _).
    split_and!; intros Hle.
    + eexists w1, _. split_and!; [exact Hload | exact Hinv |].
      intros Hcall. apply list_elem_of_bind in Hcall as (s & Hcall & Hs).
      apply elem_of_executed in Hs.
      destruct (load_list_elem _ _ _ Hls Hs) as (x & _ & Hpos & ->).
      simpl in Hcall.
      destruct (Initializer.initialize x.1); [|by apply not_elem_of_nil in Hcall].
      apply list_elem_of_singleton in Hcall. injection Hcall as ->. lia.
    + intros s Hs.
      destruct (start_list_elem _ _ _ Hss Hs) as (x & _ & Hpos & ->).
      simpl. intros [= <-]. lia.
    + intros s Hs.
      destruct (stop_list_elem _ _ _ Hps Hs) as (x & _ & Hpos & ->).
      simpl. intros [= <-]. lia.
Qed.

Lemma excluded_from_phase_witness :
  (∃ output,
     flattenOrderedInitializer
       (startInitializerRankings
          (schedule_all [(initializer_A, "/core/a.js");
                         (initializer_C, "/core/b.js")])) = Some output ∧
     ∀ s, s ∈ output → step_initializer s ≠ Some initializer_C) ∧
  ∀ s, s ∈ startInitializers (this initialized_example) →
       step_initializer s ≠ Some initializer_C.
Proof.
  destruct (excluded_from_phase
              [(initializer_A, "/core/a.js"); (initializer_C, "/core/b.js")]
              initializer_C) as (_ & Hstart & _ & Hlists).
  split.
  { destruct Hstart as [Hnone Hsome]; [simpl; lia|].
    destruct Hsome as [output Hflat]; [repeat constructor; vm_compute; done|].
    exists output. split; [exact Hflat | exact (Hnone output Hflat)]. }
  refine (proj1 (proj2 (Hlists 4%nat (constructed example_host)
                          ["/core/a.js"; "/core/b.js"] api
                          initialized_example _ _)) _).
  - vm_compute. reflexivity.
  - vm_compute. reflexivity.
  - simpl. lia.
Defined.

Lemma filter_nil_quiet entries :
  filter (λ entry, severity entry = "warning") entries = [] →
  Forall (λ entry, severity entry ≠ "warning") entries.
Proof.
  induction entries as [|x l IH]; [constructor|].
  rewrite filter_cons. case_decide; [done|]. intros Hl. constructor; auto.
Qed.

(** A successful [stop()] leaves an empty registry. *)
Lemma stop_succeeds n w :
  truthy (running (this w)) = true →
  Forall resolves (stopInitializers (this w)) →
  ∃ w1, stop (S n) w = Returned tt w1 ∧ initializers (this w1) = ∅ ∧
        host w1 = host w.
Proof.
  intros Hr Hres. rewrite stop_unfold by done. unfold try_catch.
  rewrite asyncWaterfall_app. unfold bind.
  destruct (asyncWaterfall_evolves (stopInitializers (this w)) (stopping w))
    as (w' & -> & Hev & _).
  destruct (first_rejection_resolves _ Hres) as [-> _]. simpl.
  eexists. split; [reflexivity|]. simpl. split; [done|].
  by destruct Hev as (_ & _ & -> & _).
Qed.

(** A name the registry has after one more instance went through it was
    there before, or is the name of that instance. *)
Lemma has_property_registered registry (x : loaded) name :
  has_property (register registry x) name = true →
  has_property registry name = true ∨ name = Initializer.name x.1.
Proof.
  unfold register.
  destruct (has_property registry (Initializer.name x.1)); [by left|].
  destruct (Initializer.validate x.1); [by left|].
  unfold has_property.
  intros [Hown|Hinh]%orb_prop; [|left; by rewrite Hinh, orb_true_r].
  apply bool_decide_eq_true in Hown as [i Hi].
  destruct (decide (name = Initializer.name x.1)) as [->|Hne]; [by right|].
  left. rewrite lookup_insert_ne in Hi by done.
  apply orb_true_intro. left. by apply bool_decide_eq_true.
Qed.

(** Where a duplicate-name warning comes from: the name was in the registry
    the loop started from (or is one every object inherits), or an earlier
    instance of the same loop bears it. *)
Lemma warnings_cause l : ∀ registry entry,
  entry ∈ warnings registry l →
  ∃ earlier x later,
    l = earlier ++ x :: later ∧
    entry = Log (warningMessage x.1 x.2) "warning" None ∧
    (has_property registry (Initializer.name x.1) = true ∨
     ∃ y : loaded, y ∈ earlier ∧ Initializer.name y.1 = Initializer.name x.1).
Proof.
  induction l as [|x l IH]; intros registry entry; simpl;
    [by intros ?%elem_of_nil|].
  intros [Hin|Hin]%elem_of_app.
  - destruct (has_property registry (Initializer.name x.1)) eqn:Htaken;
      [|by apply elem_of_nil in Hin].
    apply list_elem_of_singleton in Hin as ->.
    exists [], x, l. split_and!; [done|done|by left].
  - apply IH in Hin as (earlier & y & later & -> & -> & Hcause).
    exists (x :: earlier), y, later. split_and!; [done|done|].
    destruct Hcause as [Htaken|(z & Hz & Hname)].
    + apply has_property_registered in Htaken as [Htaken|Hname];
        [by left|].
      right. exists x. split; [left|done].
    + right. exists z. split; [by right|done].
Qed.

(** C5: after a successful [stop()] (its appended step included) the
    registry is empty, and a following [initialize()] starts from that empty
    registry: it ends, the duplicate-name warnings it logs are those the
    instances it constructs cause among themselves (a name every object
    inherits, or the name of an earlier instance of this very call), none
    comes from a registration made before the stop, and when it returns the
    registry is the one the discovered instances build from nothing; so with
    pairwise distinct names, none of them inherited, no warning is logged
    and every discovered instance that validates is registered. *)
Theorem stop_then_initialize (n : nat) (w : World) :
  truthy (running (this w)) = true →
  Forall resolves (stopInitializers (this w)) →
  ∃ w1,
    stop (S n) w = Returned tt w1 ∧
    initializers (this w1) = ∅ ∧
    ∀ fuel initializerFiles,
      discover w1 = Returned initializerFiles w1 →
      let discovered := instances_of (host w1) initializerFiles in
      ∃ w2 processed entries,
        final_world (initialize (S (S (S (S fuel)))) w1) = Some w2 ∧
        processed `prefix_of` discovered ∧
        logged w2 = logged w1 ++ entries ∧
        filter (λ entry, severity entry = "warning") entries
        = warnings ∅ processed ∧
        (∀ entry,
           entry ∈ entries → severity entry = "warning" →
           ∃ earlier x later,
             processed = earlier ++ x :: later ∧
             entry = Log (warningMessage x.1 x.2) "warning" None ∧
             (inherited (Initializer.name x.1) = true ∨
              ∃ y : loaded,
                y ∈ earlier ∧ Initializer.name y.1 = Initializer.name x.1)) ∧
        (∀ res, initialize (S (S (S (S fuel)))) w1 = Returned res w2 →
                initializers (this w2) = foldl register ∅ discovered) ∧
        (NoDup ((λ x : loaded, Initializer.name x.1) <$> discovered) →
         Forall (λ x : loaded, inherited (Initializer.name x.1) = false)
                discovered →
         quiet w1 w2 ∧
         ∀ res, initialize (S (S (S (S fuel)))) w1 = Returned res w2 →
                ∀ x, x ∈ discovered → Initializer.validate x.1 = None →
                     initializers (this w2) !! Initializer.name x.1
                     = Some x.1).
Proof.
  intros Hr Hres.
  destruct (stop_succeeds n w Hr Hres) as (w1 & Hstop & Hempty & _).
  exists w1. split_and!; [done|done|].
  intros fuel files Hdiscover discovered.
  destruct (initialize_ends fuel w1) as (w2 & Hfin).
  destruct (initialize_warnings _ w1 files w2 Hdiscover Hfin)
    as (processed & entries & Hpre & Hlog & Hwarn).
  fold discovered in Hpre. rewrite Hempty in Hwarn.
  exists w2, processed, entries.
  assert (∀ res, initialize (S (S (S (S fuel)))) w1 = Returned res w2 →
                 initializers (this w2) = foldl register ∅ discovered)
    as Hregistry.
  { intros res Hinit.
    destruct (initialize_returns _ w1 files res w2 Hdiscover Hinit)
      as (w' & _ & _ & _ & (_ & Hreg & _) & _ & _ & _ & _ & _ & _ & -> & _).
    by rewrite Hreg, Hempty. }
  split_and!; try done.
  - intros entry Hin Hsev.
    assert (entry ∈ warnings ∅ processed) as Hentry.
    { rewrite <- Hwarn. by apply list_elem_of_filter. }
    apply warnings_cause in Hentry
      as (earlier & x & later & -> & -> & Hcause).
    exists earlier, x, later. split_and!; [done|done|].
    destruct Hcause as [Htaken|?]; [left|by right].
    unfold has_property in Htaken. rewrite lookup_empty in Htaken.
    rewrite bool_decide_eq_false_2 in Htaken; [done|]. by intros [? ?].
  - intros Hnd Hinh.
    assert (Forall (λ x : loaded,
              has_property (∅ : gmap string Initializer)
                (Initializer.name x.1) = false) discovered) as Hfresh.
    { eapply Forall_impl; [exact Hinh|]. intros x Hx. unfold has_property.
      rewrite lookup_empty, Hx.
      rewrite bool_decide_eq_false_2; [done|]. by intros [? ?]. }
    split.
    + destruct Hpre as [rest Hpre]. rewrite Hpre in Hnd, Hfresh.
      rewrite fmap_app in Hnd. apply NoDup_app in Hnd as (Hnd & _ & _).
      apply Forall_app in Hfresh as [Hfresh _].
      destruct (register_fresh processed _ Hnd Hfresh) as [Hnone _].
      rewrite Hnone in Hwarn. exists entries. split; [done|].
      by apply filter_nil_quiet.
    + intros res Hinit x Hx Hvalid. rewrite (Hregistry res Hinit).
      by apply (proj2 (register_fresh discovered _ Hnd Hfresh)).
Qed.

Lemma stop_then_initialize_witness :
  stop 1 running_example = Returned tt stopped_example ∧
  initializers (this stopped_example) = ∅ ∧
  initialize 4 stopped_example = Returned api restarted_example ∧
  quiet stopped_example restarted_example ∧
  initializers (this restarted_example) !! "A" = Some initializer_A.
Proof.
  destruct (stop_then_initialize 0 running_example)
    as (w1 & Hstop & Hempty & Hinit); [reflexivity|repeat constructor|].
  assert (w1 = stopped_example) as ->.
  { vm_compute in Hstop. injection Hstop as <-. vm_compute. reflexivity. }
  destruct (Hinit 0%nat ["/core/a.js"])
    as (w2 & processed & entries & Hfin & _ & _ & _ & _ & _ & Hdistinct).
  { vm_compute. reflexivity. }
  assert (w2 = restarted_example) as ->.
  { vm_compute in Hfin. injection Hfin as <-. vm_compute. reflexivity. }
  destruct Hdistinct as [Hquiet Hreg].
  { apply (bool_decide_unpack _). vm_compute. exact I. }
  { repeat constructor. }
  split_and!; [vm_compute; reflexivity|done| |done|].
  - vm_compute. reflexivity.
  - refine (Hreg api _ (initializer_A, "/core/a.js") _ _);
      [vm_compute; reflexivity| |reflexivity].
    vm_compute. left.
Defined.





Lemma collision_keeps_original_witness :
  load_export "/core/b.js" (Constructs duplicate_A) empty_rankings
    registered_example
  = Returned (schedule empty_rankings duplicate_A "/core/b.js")
      (add_logged (Log (warningMessage duplicate_A "/core/b.js") "warning" None)
         registered_example) ∧
  initializers
    (this (add_logged
             (Log (warningMessage duplicate_A "/core/b.js") "warning" None)
             registered_example)) !! "A"
  = Some initializer_A.
Proof.
  destruct (collision_keeps_original "/core/b.js" duplicate_A initializer_A
              empty_rankings registered_example) as (Hstep & Hkept & _);
    [reflexivity|].
  split; [exact Hstep | exact Hkept].
Defined.

(** * Further properties *)

(** ** Plugins *)

Lemma obj_get_set {V} (o : jsobj V) k v k' :
  obj_get (obj_set o k v) k'
  = if String.eqb k' k then Some v else obj_get o k'.
Proof.
  induction o as [|[k0 v0] o IH]; simpl.
  - by destruct (String.eqb k' k).
  - destruct (String.eqb k k0) eqn:Hk; simpl.
    + apply String.eqb_eq in Hk as ->. by destruct (String.eqb k' k0).
    + rewrite IH. destruct (String.eqb k' k0) eqn:Hk0; [|done].
      apply String.eqb_eq in Hk0 as ->.
      rewrite String.eqb_sym in Hk. by rewrite Hk.
Qed.

Lemma obj_set_keys {V} (o : jsobj V) k v :
  (obj_set o k v).*1 = if bool_decide (k ∈ o.*1) then o.*1 else o.*1 ++ [k].
Proof.
  induction o as [|[k0 v0] o IH].
  - done.
  - csimpl. destruct (String.eqb k k0) eqn:Hk; csimpl.
    + apply String.eqb_eq in Hk as ->. clear IH.
      case_bool_decide as Hin; [done|]. destruct Hin. left.
    + apply String.eqb_neq in Hk. rewrite IH. clear IH.
      repeat case_bool_decide; try done.
      * exfalso. auto using list_elem_of_further.
      * exfalso.
        match goal with
        | H : k ∈ k0 :: _ |- _ => apply elem_of_cons in H as [?|?]; done
        end.
Qed.

(** X1: [addPlugin(name, object)] changes nothing but the plugins object.
    For a name other than [__proto__], afterwards the plugins map [name] to
    [object] (the last write wins), every other name reads as before, the
    names keep their order of creation, [name] being added at the end only
    when it is new, and the prototype is as it was. For the name [__proto__]
    no property is created: the own properties are as they were and
    [object] is the prototype of the plugins object. *)
Theorem addPlugin_last_write_wins (name : string) (object : plugin)
    (w : World) :
  ∃ w',
    addPlugin name object w = Returned tt w' ∧
    w' = on_this
           (λ p, set_plugins_prototype (plugins_prototype (this w'))
                   (set_plugins (plugins (this w')) p)) w ∧
    if String.eqb name "__proto__" then
      plugins (this w') = plugins (this w) ∧
      plugins_prototype (this w') = Some object
    else
      plugins_prototype (this w') = plugins_prototype (this w) ∧
      obj_get (plugins (this w')) name = Some object ∧
      (∀ name', name' ≠ name →
         obj_get (plugins (this w')) name'
         = obj_get (plugins (this w)) name') ∧
      (plugins (this w')).*1
      = if bool_decide (name ∈ (plugins (this w)).*1)
        then (plugins (this w)).*1
        else (plugins (this w)).*1 ++ [name].
Proof.
  unfold addPlugin. destruct (String.eqb name "__proto__").
  - eexists. split; [reflexivity|]. done.
  - eexists. split; [reflexivity|]. simpl. split_and!.
    + done.
    + done.
    + by rewrite obj_get_set, String.eqb_refl.
    + intros name' Hne. rewrite obj_get_set.
      apply String.eqb_neq in Hne. by rewrite Hne.
    + apply obj_set_keys.
Qed.

(** ** Flattening any collection *)

Lemma StronglySorted_lt (keys : list Z) :
  StronglySorted Z.le keys → NoDup keys → StronglySorted Z.lt keys.
Proof.
  induction 1 as [|k keys Hs IH Hall]; intros Hnd; constructor.
  - apply IH. by apply NoDup_cons in Hnd as [_ ?].
  - apply NoDup_cons in Hnd as [Hk _].
    rewrite List.Forall_forall in Hall. apply List.Forall_forall.
    intros k' Hin. specialize (Hall k' Hin).
    assert (k ≠ k'); [|lia].
    intros ->. apply Hk. by apply list_elem_of_In.
Qed.

(** X2: on a collection whose keys are all below 10^21 in absolute value,
    [flattenOrderedInitializer] returns normally: its output is the
    concatenation of the buckets taken by strictly ascending key, every
    bucket once, each bucket in its own order; so an element is in the
    output exactly when it is in some bucket, and an empty bucket
    contributes nothing. On any collection, what an output holds comes from
    a bucket, and the elements of a bucket whose key is below 10^21 are in
    it. *)
Theorem flattenOrderedInitializer_concatenates {A : Type}
    (collection : gmap Z (list A)) :
  ((∀ key, is_Some (collection !! key) → exact_key key) →
   ∃ buckets : list (Z * list A),
     StronglySorted Z.lt buckets.*1 ∧
     (∀ key bucket,
        (key, bucket) ∈ buckets ↔ collection !! key = Some bucket) ∧
     flattenOrderedInitializer collection = Some (mjoin buckets.*2) ∧
     ∀ d, d ∈ mjoin buckets.*2
          ↔ ∃ key bucket, collection !! key = Some bucket ∧ d ∈ bucket) ∧
  (∀ output,
     flattenOrderedInitializer collection = Some output →
     (∀ d, d ∈ output →
           ∃ key bucket, collection !! key = Some bucket ∧ d ∈ bucket) ∧
     (∀ key bucket d,
        collection !! key = Some bucket → exact_key key → d ∈ bucket →
        d ∈ output)).
Proof.
  split.
  2: { intros output Hflat. split.
       - intros d. by apply flattenOrderedInitializer_elem.
       - intros key bucket d. by apply flattenOrderedInitializer_complete. }
  intros Hexact.
  set (entry := λ k : Z, (k, default [] (collection !! k))).
  exists (entry <$> ascending_keys collection).
  assert (∀ key bucket,
            (key, bucket) ∈ entry <$> ascending_keys collection
            ↔ collection !! key = Some bucket) as Hentries.
  { intros key bucket. rewrite list_elem_of_fmap. split.
    - intros (k & [= -> ->] & Hk).
      apply elem_of_ascending_keys in Hk as [b Hb]. by rewrite Hb.
    - intros Hkey. exists key. split.
      + unfold entry. by rewrite Hkey.
      + apply elem_of_ascending_keys. by eexists. }
  split_and!.
  - assert ((entry <$> ascending_keys collection).*1
            = ascending_keys collection) as ->.
    { clear Hentries.
      induction (ascending_keys collection) as [|k keys IH]; [done|].
      csimpl. f_equal. exact IH. }
    apply StronglySorted_lt;
      [apply StronglySorted_ascending_keys | apply NoDup_ascending_keys].
  - exact Hentries.
  - rewrite flattenOrderedInitializer_total by done.
    by rewrite <- list_fmap_compose.
  - intros d. rewrite list_elem_of_join. split.
    + intros (bucket & Hd & Hb).
      apply list_elem_of_fmap in Hb as ([key b] & -> & Hin).
      apply Hentries in Hin. by exists key, b.
    + intros (key & bucket & Hkey & Hd). exists bucket. split; [done|].
      apply list_elem_of_fmap. exists (key, bucket). split; [done|].
      by apply Hentries.
Qed.

Lemma flattenOrderedInitializer_concatenates_witness :
  ∃ buckets : list (Z * list string),
    StronglySorted Z.lt buckets.*1 ∧
    flattenOrderedInitializer
      (<[2 := ["b"; "c"]]> {[1 := ["a"]]} : gmap Z (list string))
    = Some (mjoin buckets.*2) ∧
    "c" ∈ mjoin buckets.*2.
Proof.
  destruct (flattenOrderedInitializer_concatenates
              (<[2 := ["b"; "c"]]> {[1 := ["a"]]} : gmap Z (list string)))
    as [Hexact _].
  destruct Hexact as (buckets & Hsorted & _ & Hflat & Hin).
  - intros key [bucket Hkey].
    apply lookup_insert_Some in Hkey as [[<- _]|[_ Hkey]];
      [vm_compute; reflexivity|].
    apply lookup_singleton_Some in Hkey as [<- _]. vm_compute. reflexivity.
  - exists buckets. split_and!; [exact Hsorted | exact Hflat |].
    apply Hin. exists 2, ["b"; "c"]. split; [reflexivity|].
    apply list_elem_of_further, list_elem_of_here.
Defined.

(** X3: after the instances [discovered] have gone through lines 205-227,
    each of the three maps has a bucket for exactly the priorities of that
    phase that occur among them, positive or not; the bucket of a positive
    priority holds the wrappers of the instances of that priority in the
    order of discovery, and the bucket of any other priority is empty. *)
Theorem rankings_buckets (discovered : list loaded) (k : Z) :
  loadInitializerRankings (schedule_all discovered) !! k
  = (if decide (k ∈ (λ x : loaded, Initializer.loadPriority x.1)
                      <$> discovered)
     then Some ((λ x : loaded, initializeFunction x.1 x.2)
                <$> filter (λ x : loaded,
                              Initializer.loadPriority x.1 = k ∧ 0 < k)
                           discovered)
     else None) ∧
  startInitializerRankings (schedule_all discovered) !! k
  = (if decide (k ∈ (λ x : loaded, Initializer.startPriority x.1)
                      <$> discovered)
     then Some ((λ x : loaded, startFunction x.1 x.2)
                <$> filter (λ x : loaded,
                              Initializer.startPriority x.1 = k ∧ 0 < k)
                           discovered)
     else None) ∧
  stopInitializerRankings (schedule_all discovered) !! k
  = (if decide (k ∈ (λ x : loaded, Initializer.stopPriority x.1)
                      <$> discovered)
     then Some ((λ x : loaded, stopFunction x.1 x.2)
                <$> filter (λ x : loaded,
                              Initializer.stopPriority x.1 = k ∧ 0 < k)
                           discovered)
     else None).
Proof.
  rewrite schedule_all_load, schedule_all_start, schedule_all_stop.
  split_and!; apply build_empty_lookup.
Qed.

(** ** Discovery *)

(** X4: the discovery of [initialize()] goes through the plugins in
    [for ... in] order and throws for the first one whose normalized path
    does not exist, naming that path. When every plugin path exists, it
    returns a list of files, unless a descriptor was made the prototype of
    the plugins object and one of its properties is not hidden by a plugin
    of that name: the loop then comes to that inherited name and throws the
    [TypeError] of [path.normalize(undefined)]. Either way it leaves the
    process and the log as they were. *)
Theorem discover_first_missing_plugin (w : World) :
  match list_find
          (λ x : string * plugin,
             existsSync (host w) (path_normalize (host w) (path x.2)) = false)
          (for_in (plugins (this w))) with
  | Some (_, (_, descriptor)) =>
      discover w
      = Thrown (new_Error ("plugin path does not exist: "
                           +:+ path_normalize (host w) (path descriptor))) w
  | None =>
      match inherited_names (this w) with
      | [] => ∃ files, discover w = Returned files w
      | _ :: _ => discover w = Thrown path_argument_undefined w
      end
  end.
Proof.
  unfold discover, bind, get.
  match goal with
  | |- context [discover_plugins ?h ?es ?fs ?w'] =>
      pose proof (discover_plugins_first_missing h es fs w') as Hfind
  end.
  destruct (list_find _ _) as [[i [n d]]|].
  - by rewrite Hfind.
  - destruct Hfind as (files & ->).
    destruct (inherited_names (this w)); [by eexists|done].
Qed.

Lemma discover_examples :
  discover (with_plugins example_host)
  = Thrown (new_Error "plugin path does not exist: /plugins/seven")
      (with_plugins example_host) ∧
  (addPlugin "__proto__" (Plugin "/plugins/present" []);; discover)
    (constructed example_host)
  = Thrown path_argument_undefined
      (on_this (set_plugins_prototype (Some (Plugin "/plugins/present" [])))
         (constructed example_host)).
Proof. split; vm_compute; reflexivity. Qed.

(** ** The registry loop *)

Lemma unscheduled_refl w : unscheduled w w.
Proof. by unfold unscheduled. Qed.

Lemma unscheduled_trans w1 w2 w3 :
  unscheduled w1 w2 → unscheduled w2 w3 → unscheduled w1 w3.
Proof.
  unfold unscheduled.
  intros (?&?&?&?&?&?&?&?&?) (?&?&?&?&?&?&?&?&?). split_and!; congruence.
Qed.

(** What a call of [fatalError] that is not awaited leaves behind. *)
Lemma fatalError_detached_single (e : error) type w :
  ∃ w' entries,
    fatalError_detached (single_error e) type w = Returned tt w' ∧
    logged w' = logged w ++ diagnostics [e] type ++ entries ∧
    detached w' = detached w ++ [type] ∧
    invoked w' = invoked w ∧
    initializers (this w') = initializers (this w) ∧
    host w' = host w ∧
    unscheduled w w'.
Proof.
  unfold fatalError_detached, normalize_errors, stop_until_await, forEach.
  unfold bind, log, modify, get, ret. simpl.
  destruct (truthy (running (this w))); simpl.
  - eexists _, [_]. split; [reflexivity|]. simpl.
    rewrite <- !app_assoc. by unfold unscheduled.
  - destruct (bool_decide (shuttingDown (this w) = Some true)); simpl.
    + eexists _, []. split; [reflexivity|]. simpl.
      rewrite <- !app_assoc. by unfold unscheduled.
    + eexists _, [_]. split; [reflexivity|]. simpl.
      rewrite <- !app_assoc. by unfold unscheduled.
Qed.

Lemma fatalError_detached_thrown (e : thrown) type w :
  ∃ w', fatalError_detached (single_error e) type w = Returned tt w' ∧
        unscheduled w w'.
Proof.
  destruct e as [e|v].
  - destruct (fatalError_detached_single e type w)
      as (w' & _ & Hrun & _ & _ & _ & _ & _ & Hun).
    by exists w'.
  - exists w. split; [done|apply unscheduled_refl].
Qed.

(** X5: an instance whose name the registry does not hold is validated once;
    when it validates it is registered under its name and nothing is logged;
    when [validate] throws it is not registered, [fatalError] is called with
    the error and the file (and not awaited), and the loop goes on. Either
    way its three wrappers are ranked. *)
Theorem unregistered_instance_is_validated (file : string)
    (initializer : Initializer) (r : rankings) (w : World) :
  registered w (Initializer.name initializer) = false →
  ∃ w',
    load_export file (Constructs initializer) r w
    = Returned (schedule r initializer file) w' ∧
    invoked w' = invoked w ++ [validate_call initializer] ∧
    match Initializer.validate initializer with
    | None =>
        w' = on_this
               (λ p, set_initializers
                       (<[Initializer.name initializer := initializer]>
                          (initializers p)) p)
               (add_invoked (validate_call initializer) w)
    | Some error =>
        initializers (this w') = initializers (this w) ∧
        detached w' = detached w ++ [file] ∧
        ∃ entries,
          logged w' = logged w ++ diagnostics [error] file ++ entries
    end.
Proof.
  intros Hfree. unfold load_export, instantiate.
  unfold bind at 1. unfold bind at 1. unfold try_catch, bind at 1, get at 1.
  rewrite Hfree. unfold bind at 1. unfold modify at 1.
  destruct (Initializer.validate initializer) as [e|].
  - unfold throw at 1.
    destruct (fatalError_detached_single e file
                (add_invoked (validate_call initializer) w))
      as (w' & entries & -> & Hl & Hd & Hi & Hr & _).
    exists w'. split; [reflexivity|]. split_and!; try done. by exists entries.
  - eexists. split; [reflexivity|]. done.
Qed.

Lemma unregistered_instance_is_validated_witness :
  ∃ w',
    load_export "/core/b.js" (Constructs duplicate_A) empty_rankings
      (constructed example_host)
    = Returned (schedule empty_rankings duplicate_A "/core/b.js") w' ∧
    invoked w' = [validate_call duplicate_A] ∧
    initializers (this w') = ∅ ∧
    detached w' = ["/core/b.js"] ∧
    ∃ entries,
      logged w' = diagnostics [new_Error "invalid"] "/core/b.js" ++ entries.
Proof.
  destruct (unregistered_instance_is_validated "/core/b.js" duplicate_A
              empty_rankings (constructed example_host))
    as (w' & Hrun & Hinv & Hreg & Hdet & Hlog); [vm_compute; reflexivity|].
  exists w'. split_and!; done.
Defined.

(** X6: a file that exports nothing does not stop the loop: [fatalError] is
    called with an error naming the file and with the file as the step, and
    is not awaited; nothing is ranked, registered or invoked for the file,
    and the loop goes on with the next file. *)
Theorem empty_module_escalates (f : string) (rest : list string)
    (r : rankings) (w : World) :
  let file := path_normalize (host w) f in
  require_ (host w) file = ExportedClasses [] →
  ∃ w',
    load_file f r w = Returned r w' ∧
    load_files (f :: rest) r w = load_files rest r w' ∧
    initializers (this w') = initializers (this w) ∧
    invoked w' = invoked w ∧
    detached w' = detached w ++ [file] ∧
    ∃ entries,
      logged w'
      = logged w
        ++ diagnostics
             [new_Error ("no exported initializers found in " +:+ file)] file
        ++ entries.
Proof.
  intros file Hempty.
  assert (∃ w', load_file f r w = Returned r w' ∧
                initializers (this w') = initializers (this w) ∧
                invoked w' = invoked w ∧
                detached w' = detached w ++ [file] ∧
                ∃ entries,
                  logged w'
                  = logged w
                    ++ diagnostics
                         [new_Error ("no exported initializers found in "
                                     +:+ file)] file
                    ++ entries) as (w' & Hrun & Hrest).
  { rewrite load_file_unfold. fold file. rewrite Hempty. unfold bind.
    destruct (fatalError_detached_single
                (new_Error ("no exported initializers found in " +:+ file))
                file w)
      as (w' & entries & -> & Hl & Hd & Hi & Hr & _).
    exists w'. split_and!; try done. by exists entries. }
  exists w'. split; [done|]. split; [|done].
  simpl. unfold bind. by rewrite Hrun.
Qed.

Lemma empty_module_escalates_witness :
  ∃ w',
    load_file "/core/empty.js" empty_rankings (constructed example_host)
    = Returned empty_rankings w' ∧
    load_files ["/core/empty.js"; "/core/a.js"] empty_rankings
      (constructed example_host)
    = load_files ["/core/a.js"] empty_rankings w' ∧
    initializers (this w') = ∅ ∧
    invoked w' = [] ∧
    detached w' = ["/core/empty.js"] ∧
    ∃ entries,
      logged w'
      = diagnostics
          [new_Error "no exported initializers found in /core/empty.js"]
          "/core/empty.js"
        ++ entries.
Proof.
  destruct (empty_module_escalates "/core/empty.js" ["/core/a.js"]
              empty_rankings (constructed example_host))
    as (w' & Hrun & Hnext & Hreg & Hinv & Hdet & Hlog);
    [vm_compute; reflexivity|].
  exists w'. split_and!; done.
Defined.

Lemma load_export_unscheduled file c r w w' :
  final_world (load_export file c r w) = Some w' → unscheduled w w'.
Proof.
  destruct c as [e|i]; unfold load_export, instantiate.
  - unfold bind at 1. unfold bind at 1.
    destruct (fatalError_detached_thrown e file w) as (w1 & -> & Hun).
    by intros [= <-].
  - unfold bind at 1. unfold bind at 1. unfold try_catch, bind at 1, get at 1.
    destruct (registered w (Initializer.name i)).
    + intros [= <-]. by unfold unscheduled.
    + unfold bind at 1. unfold modify at 1.
      destruct (Initializer.validate i) as [e|].
      * unfold throw at 1.
        destruct (fatalError_detached_single e file
                    (add_invoked (validate_call i) w))
          as (w1 & entries & -> & _ & _ & _ & _ & _ & Hun).
        by intros [= <-].
      * intros [= <-]. by unfold unscheduled.
Qed.

(** How the loop over the exports of a file ends. *)
Lemma load_exports_settles file exports : ∀ r w,
  ∃ w',
    unscheduled w w' ∧
    if existsb (λ kc : string * constructor, throwing kc.2) exports
    then load_exports file exports r w = Thrown undefined_initializer w'
    else ∃ r', load_exports file exports r w = Returned r' w'.
Proof.
  induction exports as [|[key c] exports IH]; intros r w; csimpl.
  - exists w. split; [apply unscheduled_refl|]. by eexists.
  - unfold bind.
    pose proof (load_export_unscheduled file c r w) as Hun.
    destruct c as [e|i]; csimpl.
    + destruct (load_export_throws file e r w) as (w' & Hrun & _).
      rewrite Hrun in Hun |- *. exists w'. split; [by apply Hun|done].
    + destruct (load_export_constructs file i r w) as (w1 & Hrun & _).
      rewrite Hrun in Hun |- *.
      destruct (IH (schedule r i file) w1) as (w' & Hun' & Hend).
      exists w'. split; [|done].
      apply (unscheduled_trans w w1 w'); [by apply Hun|done].
Qed.

Lemma load_file_settles f r w :
  ∃ w',
    unscheduled w w' ∧ host w' = host w ∧
    match load_failure (host w) f with
    | Some error => load_file f r w = Thrown error w'
    | None => ∃ r', load_file f r w = Returned r' w'
    end.
Proof.
  destruct (load_file_loads f r w) as (w0 & _ & Hfin0 & (Hh0 & _) & _).
  rewrite load_file_unfold in Hfin0 |- *. unfold load_failure.
  destruct (require_ (host w) (path_normalize (host w) f))
    as [e|c|exports] eqn:Hreq.
  - exists w. split_and!; [apply unscheduled_refl|done|done].
  - destruct (load_exports_settles (path_normalize (host w) f)
                [("default", c)] r w) as (w' & Hun & Hend).
    exists w'. split; [done|]. cbn [existsb snd] in Hend.
    rewrite orb_false_r in Hend.
    destruct (throwing c).
    + rewrite Hend in Hfin0 |- *. injection Hfin0 as <-. done.
    + destruct Hend as (r' & Hend). rewrite Hend in Hfin0 |- *.
      injection Hfin0 as <-. split; [done|]. by eexists.
  - destruct exports as [|x l].
    + unfold bind in Hfin0 |- *.
      destruct (fatalError_detached_single
                  (new_Error ("no exported initializers found in "
                              +:+ path_normalize (host w) f))
                  (path_normalize (host w) f) w)
        as (w' & entries & Hrun & _ & _ & _ & _ & Hh & Hun).
      rewrite Hrun in Hfin0 |- *. exists w'. split_and!; try done.
      by eexists.
    + destruct (load_exports_settles (path_normalize (host w) f)
                  (x :: l) r w) as (w' & Hun & Hend).
      exists w'. split; [done|].
      destruct (existsb _ (x :: l)).
      * rewrite Hend in Hfin0 |- *. injection Hfin0 as <-. done.
      * destruct Hend as (r' & Hend). rewrite Hend in Hfin0 |- *.
        injection Hfin0 as <-. split; [done|]. by eexists.
Qed.

Lemma load_files_settles initializerFiles : ∀ r w,
  ∃ w',
    unscheduled w w' ∧
    match first_load_failure (host w) initializerFiles with
    | Some error => load_files initializerFiles r w = Thrown error w'
    | None => ∃ r', load_files initializerFiles r w = Returned r' w'
    end.
Proof.
  induction initializerFiles as [|f files IH]; intros r w; simpl.
  - exists w. split; [apply unscheduled_refl|]. by eexists.
  - unfold bind.
    destruct (load_file_settles f r w) as (w1 & Hun & Hh & Hend).
    destruct (load_failure (host w) f) as [e|].
    + rewrite Hend. by exists w1.
    + destruct Hend as (r1 & ->).
      destruct (IH r1 w1) as (w' & Hun' & Hend'). rewrite Hh in Hend'.
      exists w'. split; [|done]. by apply (unscheduled_trans w w1 w').
Qed.

(** X7: when [require] throws for a discovered file, or the constructor of
    one of its exports does, [initialize()] rejects: with the error of
    [require], or with the [TypeError] of reading [loadPriority] of
    [undefined] at line 205. It rejects at the first such file, before any
    of the three lists is assigned, so the lists, the PID file and the flags
    [api.running], [bootTime] and [startCount] are as before the call; and
    when no discovered file is like that, the loop over the files returns. *)
Theorem initialize_rejects_on_broken_file (fuel : nat) (w : World)
    (initializerFiles : list string) :
  discover w = Returned initializerFiles w →
  match first_load_failure (host w) initializerFiles with
  | Some error =>
      ∃ w', initialize fuel w = Thrown error w' ∧ unscheduled w w'
  | None =>
      ∃ r w', load_files initializerFiles empty_rankings w = Returned r w' ∧
              unscheduled w w'
  end.
Proof.
  intros Hdiscover.
  destruct (load_files_settles initializerFiles empty_rankings w)
    as (w' & Hun & Hend).
  destruct (first_load_failure (host w) initializerFiles) as [e|].
  - exists w'. split; [|done].
    unfold initialize. unfold bind at 1. rewrite Hdiscover.
    unfold bind at 1. by rewrite Hend.
  - destruct Hend as (r' & Hend). by exists r', w'.
Qed.

Lemma initialize_rejects_on_broken_file_witness :
  ∃ w',
    initialize 4 (constructed (broken_host ["/core/a.js"; "/core/broken.js"]))
    = Thrown undefined_initializer w' ∧
    unscheduled (constructed (broken_host ["/core/a.js"; "/core/broken.js"]))
      w'.
Proof.
  apply (initialize_rejects_on_broken_file 4
           (constructed (broken_host ["/core/a.js"; "/core/broken.js"]))
           ["/core/a.js"; "/core/broken.js"]).
  vm_compute. reflexivity.
Defined.

(** ** [stop], [start] and [fatalError] when the steps resolve *)

(** [stop()] on a running process whose stop steps all resolve. *)
Lemma stop_resolves n w :
  truthy (running (this w)) = true →
  Forall resolves (stopInitializers (this w)) →
  ∃ w1,
    evolves (stopping w) w1 (stopInitializers (this w) ≫= step_calls) ∧
    (Forall wrapper (stopInitializers (this w)) →
     same_process (stopping w) w1) ∧
    stop (S n) w
    = Returned tt
        (set_api_running (Some false)
           (on_this (set_initializers ∅)
              (on_this (set_shuttingDown None)
                 (add_logged (Log "*** ActionHero Stopped ***" "notice" None)
                    (set_pidFile false w1))))).
Proof.
  intros Hr Hres. rewrite stop_unfold by done. unfold try_catch.
  rewrite asyncWaterfall_app. unfold bind.
  destruct (asyncWaterfall_evolves (stopInitializers (this w)) (stopping w))
    as (w1 & -> & Hev & Hsame).
  destruct (first_rejection_resolves _ Hres) as [-> Hexec].
  rewrite Hexec in Hev, Hsame. by exists w1.
Qed.

(** X8: [stop()] on a running process whose stop steps all resolve runs
    each of them once, in the order of the list, and returns; the process is
    then neither running nor initialized nor shutting down, the registry is
    empty, the PID file is cleared and [api.running] is false; the first
    entry it logs is the note that the process is stopping and the last one
    that ActionHero has stopped. A second [stop()] then runs nothing and
    only logs the error that the process is not running. *)
Theorem stop_shuts_down (n : nat) (w : World) :
  truthy (running (this w)) = true →
  Forall resolves (stopInitializers (this w)) →
  ∃ w',
    stop (S n) w = Returned tt w' ∧
    running (this w') = Some false ∧
    initialized (this w') = Some false ∧
    shuttingDown (this w') = None ∧
    initializers (this w') = ∅ ∧
    api_running w' = Some false ∧
    pidFile w' = false ∧
    invoked w' = invoked w ++ (stopInitializers (this w) ≫= step_calls) ∧
    (∃ entries,
       logged w'
       = logged w ++ Log "stopping process..." "notice" None
         :: entries ++ [Log "*** ActionHero Stopped ***" "notice" None]) ∧
    ∀ m, stop (S m) w'
         = Returned tt
             (add_logged
                (Log "Cannot shut down actionhero, not running" "error" None)
                w').
Proof.
  intros Hr Hres.
  destruct (stop_resolves n w Hr Hres) as (w1 & Hev & _ & ->).
  destruct Hev as (Hinv & (entries & Hlog & _) & _ & _ & Hrun & Hinit & _).
  eexists. split; [reflexivity|]. split_and!; [simpl; try done .. |].
  - exists entries. rewrite Hlog. simpl. by rewrite <- !app_assoc.
  - intros m. rewrite stop_refused by (simpl; by rewrite Hrun).
    unfold refused. by rewrite bool_decide_eq_false_2.
Qed.

Lemma stop_shuts_down_witness :
  ∃ w',
    stop 1 running_example = Returned tt w' ∧
    running (this w') = Some false ∧
    initialized (this w') = Some false ∧
    shuttingDown (this w') = None ∧
    initializers (this w') = ∅ ∧
    api_running w' = Some false ∧
    pidFile w' = false ∧
    invoked w' = [stop_call initializer_A] ∧
    (∃ entries,
       logged w'
       = Log "stopping process..." "notice" None
         :: entries ++ [Log "*** ActionHero Stopped ***" "notice" None]) ∧
    ∀ m, stop (S m) w'
         = Returned tt
             (add_logged
                (Log "Cannot shut down actionhero, not running" "error" None)
                w').
Proof.
  apply (stop_shuts_down 0 running_example).
  - reflexivity.
  - repeat constructor.
Defined.

(** [start()] on an initialized process whose start steps all resolve. *)
Lemma start_resolves fuel w w0 :
  begins fuel w w0 →
  Forall wrapper (startInitializers (this w0)) →
  Forall resolves (startInitializers (this w0)) →
  ∃ w1,
    evolves (starting w0) w1 (startInitializers (this w0) ≫= step_calls) ∧
    same_process (starting w0) w1 ∧
    start fuel w
    = Returned api
        (if startCount (this w0) =? 0 then
           on_this (set_startCount (startCount (this w0) + 1))
             (add_logged (Log "*** ActionHero Started ***" "notice" None)
                (add_logged
                   (Log ("server ID: " +:+ id (host w0)) "notice" None)
                   (on_this (set_bootTime (Some (now (host w0)))) w1)))
         else
           add_logged (Log "*** ActionHero Restarted ***" "notice" None)
             (on_this (set_bootTime (Some (now (host w0)))) w1)).
Proof.
  intros Hbegin Hwrap Hres. rewrite (start_unfold fuel w w0 Hbegin).
  unfold bind at 1. unfold caught, try_catch. unfold bind at 1.
  rewrite asyncWaterfall_app. unfold bind at 1.
  destruct (asyncWaterfall_evolves (startInitializers (this w0)) (starting w0))
    as (w1 & -> & Hev & Hsame).
  destruct (first_rejection_resolves _ Hres) as [-> Hexec].
  rewrite Hexec in Hev, Hsame. exists w1. split; [done|].
  split; [by apply Hsame|].
  destruct (Hsame Hwrap) as (Hthis & _). destruct Hev as (_ & _ & Hh & _).
  unfold settled. simpl asyncWaterfall.
  unfold run_startTerminal, bind, get, modify, log, ret. simpl.
  rewrite Hthis, Hh. simpl. by destruct (startCount (this w0) =? 0).
Qed.

(** X9: [start()], once the process is initialized (it was, or
    [initialize()] has returned), when the start list holds wrappers that all
    resolve: each of them runs once, in the order of the list, and [start()]
    returns [api];
    the process is running, [api.running] is true, the PID file is written
    and [bootTime] is the time of the last step. On the first start (the
    start count is 0) the count becomes 1 and the last entry logged is that
    ActionHero has started; on a later one the count stays as it is and the
    last entry is that ActionHero has restarted. *)
Theorem start_succeeds (fuel : nat) (w w0 : World) :
  begins fuel w w0 →
  Forall wrapper (startInitializers (this w0)) →
  Forall resolves (startInitializers (this w0)) →
  ∃ w',
    start fuel w = Returned api w' ∧
    running (this w') = Some true ∧
    api_running w' = Some true ∧
    pidFile w' = true ∧
    bootTime (this w') = Some (now (host w0)) ∧
    startCount (this w')
    = (if startCount (this w0) =? 0 then 1 else startCount (this w0)) ∧
    invoked w' = invoked w0 ++ (startInitializers (this w0) ≫= step_calls) ∧
    initializers (this w') = initializers (this w0) ∧
    last (logged w')
    = Some (Log (if startCount (this w0) =? 0
                 then "*** ActionHero Started ***"
                 else "*** ActionHero Restarted ***") "notice" None).
Proof.
  intros Hbegin Hwrap Hres.
  destruct (start_resolves fuel w w0 Hbegin Hwrap Hres)
    as (w1 & Hev & (Hthis & Hpid & Hapi) & ->).
  destruct Hev as (Hinv & _).
  eexists. split; [reflexivity|].
  destruct (startCount (this w0) =? 0) eqn:Hcount; simpl;
    rewrite Hthis, ?Hpid, ?Hapi, ?Hinv; simpl; split_and!; try done.
  - apply Z.eqb_eq in Hcount. by rewrite Hcount.
  - by rewrite last_snoc.
  - by rewrite last_snoc.
Qed.

Lemma start_succeeds_witness :
  ∃ w',
    start 4 (constructed (host_of ["/core/a.js"])) = Returned api w' ∧
    running (this w') = Some true ∧
    api_running w' = Some true ∧
    pidFile w' = true ∧
    bootTime (this w') = Some 1000 ∧
    startCount (this w') = 1 ∧
    invoked w'
    = invoked initialized_a ++ [start_call initializer_A;
                                start_call initializer_B] ∧
    initializers (this w') = initializers (this initialized_a) ∧
    last (logged w') = Some (Log "*** ActionHero Started ***" "notice" None).
Proof.
  apply (start_succeeds 4 (constructed (host_of ["/core/a.js"]))
           initialized_a).
  - exists api. vm_compute. reflexivity.
  - vm_compute. repeat constructor.
  - vm_compute. repeat constructor.
Defined.

(** X10: [fatalError] on an error, or on an array of errors, that finds the
    process not running logs its diagnostics, then what [stop()] logs when
    it refuses (the error that the process is not running, or nothing during
    a shutdown), and exits with status 1: no step is run and the process is
    as it was. When it finds the process running and the stop steps all
    resolve, it logs its diagnostics, each stop step runs once, and it exits
    with status 1 after the shutdown: the PID file is cleared and the
    registry is empty. *)
Theorem fatalError_shuts_down (n : nat) (errors : errors_arg)
    (l : list error) (type : string) (w : World) :
  normalize_errors errors = error_array l →
  (truthy (running (this w)) = false →
   ∃ w',
     fatalError (S (S n)) errors type w = Exited 1 w' ∧
     this w' = this w ∧ invoked w' = invoked w ∧ pidFile w' = pidFile w ∧
     logged w'
     = logged w ++ diagnostics l type
       ++ (if bool_decide (shuttingDown (this w) = Some true) then []
           else [Log "Cannot shut down actionhero, not running" "error"
                   None])) ∧
  (truthy (running (this w)) = true →
   Forall resolves (stopInitializers (this w)) →
   ∃ w',
     fatalError (S (S n)) errors type w = Exited 1 w' ∧
     running (this w') = Some false ∧
     initializers (this w') = ∅ ∧
     pidFile w' = false ∧
     api_running w' = Some false ∧
     invoked w' = invoked w ++ (stopInitializers (this w) ≫= step_calls) ∧
     ∃ entries,
       logged w'
       = logged w ++ diagnostics l type
         ++ Log "stopping process..." "notice" None
            :: entries ++ [Log "*** ActionHero Stopped ***" "notice" None]).
Proof.
  intros Hnorm.
  assert (fatalError (S (S n)) errors type w
          = fatalError (S (S n)) (error_array l) type w) as ->.
  { destruct errors as [|[e|v]|l']; simpl in Hnorm; [done| |done|];
      injection Hnorm as <-; [apply fatalError_single|done]. }
  destruct (escalated_fields l type w) as (Hlog & Hthis & Hinv).
  destruct (log_all_fields (diagnostics l type) w)
    as (_ & _ & _ & Hpid & Hapi & _).
  fold (escalated l type w) in Hpid, Hapi.
  split.
  - intros Hidle. rewrite fatalError_idle by done.
    eexists. split; [reflexivity|]. unfold refused. rewrite Hthis.
    case_bool_decide; simpl; rewrite ?Hlog, ?Hthis, ?Hinv, ?Hpid;
      split_and!; try done.
    + by rewrite app_nil_r.
    + by rewrite <- app_assoc.
  - intros Hr Hres. rewrite fatalError_unfold. unfold bind.
    destruct (stop_resolves n (escalated l type w)) as (w1 & Hev & _ & ->);
      [by rewrite Hthis ..|].
    destruct Hev as (Hinv' & (entries & Hlog' & _) & _ & _ & Hrun & _).
    eexists. split; [reflexivity|]. split_and!; try done.
    + simpl. rewrite Hinv'. simpl. by rewrite Hinv, Hthis.
    + exists entries. rewrite (app_assoc (logged w)), <- Hlog. simpl.
      rewrite Hlog'. simpl. by rewrite <- !app_assoc.
Qed.

Lemma fatalError_shuts_down_witness :
  (∃ w',
     fatalError 2 (single_error (new_Error "boom")) "start"
       (constructed example_host) = Exited 1 w' ∧
     this w' = this (constructed example_host) ∧
     invoked w' = [] ∧ pidFile w' = false ∧
     logged w'
     = diagnostics [new_Error "boom"] "start"
       ++ [Log "Cannot shut down actionhero, not running" "error" None]) ∧
  (∃ w',
     fatalError 2 (single_error (new_Error "boom")) "start" running_example
     = Exited 1 w' ∧
     running (this w') = Some false ∧
     initializers (this w') = ∅ ∧
     pidFile w' = false ∧
     api_running w' = Some false ∧
     invoked w' = [stop_call initializer_A] ∧
     ∃ entries,
       logged w'
       = diagnostics [new_Error "boom"] "start"
         ++ Log "stopping process..." "notice" None
            :: entries ++ [Log "*** ActionHero Stopped ***" "notice" None]).
Proof.
  split.
  - apply (fatalError_shuts_down 0 (single_error (new_Error "boom"))
             [new_Error "boom"] "start" (constructed example_host));
      reflexivity.
  - apply (fatalError_shuts_down 0 (single_error (new_Error "boom"))
             [new_Error "boom"] "start" running_example);
      [reflexivity | reflexivity | repeat constructor].
Defined.

(** ** [initialize] from the discovered files to its end *)

(** [initialize()] after the loop over the files has returned and the
    three maps have been flattened. *)
Lemma initialize_settles fuel w initializerFiles loadList startList
    stopList :
  discover w = Returned initializerFiles w →
  first_load_failure (host w) initializerFiles = None →
  let discovered := instances_of (host w) initializerFiles in
  flattenOrderedInitializer
    (loadInitializerRankings (schedule_all discovered)) = Some loadList →
  flattenOrderedInitializer
    (startInitializerRankings (schedule_all discovered)) = Some startList →
  flattenOrderedInitializer
    (stopInitializerRankings (schedule_all discovered)) = Some stopList →
  ∃ w1 w2,
    load_files initializerFiles empty_rankings w
    = Returned (schedule_all discovered) w1 ∧
    unscheduled w w1 ∧
    loads w w1 discovered ∧
    Forall wrapper startList ∧ Forall wrapper stopList ∧
    evolves (scheduled loadList startList stopList w1) w2
      (executed loadList ≫= step_calls) ∧
    same_process (scheduled loadList startList stopList w1) w2 ∧
    initialize fuel w
    = match first_rejection loadList with
      | None => Returned api (on_this (set_initialized (Some true)) w2)
      | Some e =>
          (fatalError fuel (single_error e) "initialize";; ret undefined) w2
      end.
Proof.
  intros Hdiscover Hfiles discovered Hls Hss Hps.
  destruct (load_files_settles initializerFiles empty_rankings w)
    as (w1 & Hun & Hend).
  rewrite Hfiles in Hend. destruct Hend as (r & Hload).
  destruct (load_files_returned _ _ _ _ Hload) as [-> Hloads].
  fold discovered in Hload, Hloads.
  destruct (initialize_loaded fuel w initializerFiles w1 loadList startList
              stopList Hdiscover Hload Hls Hss Hps)
    as (w2 & Hev & Hsame & Heq).
  exists w1, w2. split_and!; try done.
  - apply list.Forall_forall. intros s Hs.
    by destruct (start_list_elem _ _ _ Hss Hs) as (x & _ & _ & ->).
  - apply list.Forall_forall. intros s Hs.
    by destruct (stop_list_elem _ _ _ Hps Hs) as (x & _ & _ & ->).
Qed.

(** How [initialize()] ends once the files are discovered: it rejects at the
    first broken file or at a map that does not flatten, and otherwise runs
    the load list. *)
Lemma initialize_cases fuel w initializerFiles :
  discover w = Returned initializerFiles w →
  let discovered := instances_of (host w) initializerFiles in
  (∃ e w', initialize fuel w = Thrown e w') ∨
  first_load_failure (host w) initializerFiles = None ∧
  ∃ loadList startList stopList w1 w2,
    flattenOrderedInitializer
      (loadInitializerRankings (schedule_all discovered)) = Some loadList ∧
    flattenOrderedInitializer
      (startInitializerRankings (schedule_all discovered)) = Some startList ∧
    flattenOrderedInitializer
      (stopInitializerRankings (schedule_all discovered)) = Some stopList ∧
    load_files initializerFiles empty_rankings w
    = Returned (schedule_all discovered) w1 ∧
    unscheduled w w1 ∧
    loads w w1 discovered ∧
    Forall wrapper startList ∧ Forall wrapper stopList ∧
    evolves (scheduled loadList startList stopList w1) w2
      (executed loadList ≫= step_calls) ∧
    same_process (scheduled loadList startList stopList w1) w2 ∧
    initialize fuel w
    = match first_rejection loadList with
      | None => Returned api (on_this (set_initialized (Some true)) w2)
      | Some e =>
          (fatalError fuel (single_error e) "initialize";; ret undefined) w2
      end.
Proof.
  intros Hdiscover discovered.
  destruct (load_files_settles initializerFiles empty_rankings w)
    as (w1 & Hun & Hend).
  destruct (first_load_failure (host w) initializerFiles) as [e|] eqn:Hfiles.
  { left. exists e, w1. unfold initialize. unfold bind at 1.
    rewrite Hdiscover. unfold bind at 1. by rewrite Hend. }
  destruct Hend as (r & Hload).
  destruct (load_files_returned _ _ _ _ Hload) as [-> _].
  fold discovered in Hload.
  destruct (flattenOrderedInitializer
              (loadInitializerRankings (schedule_all discovered)))
    as [loadList|] eqn:Hls;
    [destruct (flattenOrderedInitializer
                 (startInitializerRankings (schedule_all discovered)))
       as [startList|] eqn:Hss;
     [destruct (flattenOrderedInitializer
                  (stopInitializerRankings (schedule_all discovered)))
        as [stopList|] eqn:Hps|]|].
  2,3,4: left;
         destruct (initialize_flatten_fails fuel w _ _ _ Hdiscover Hload)
           as (w2 & Hthrown & _); [tauto|]; by eexists _, _.
  right. split; [done|].
  destruct (initialize_settles fuel w initializerFiles loadList startList
              stopList Hdiscover Hfiles Hls Hss Hps)
    as (w1' & w2 & Hrest).
  by exists loadList, startList, stopList, w1', w2.
Qed.

(** What [initialize()] leaves alone when it returns. *)
Lemma initialize_keeps fuel w res w' :
  initialize fuel w = Returned res w' →
  (res = api → initialized (this w') = Some true) ∧
  pidFile w' = pidFile w ∧
  api_running w' = api_running w ∧
  bootTime (this w') = bootTime (this w) ∧
  startCount (this w') = startCount (this w) ∧
  plugins (this w') = plugins (this w) ∧
  host w' = host w ∧
  Forall wrapper (startInitializers (this w')) ∧
  Forall wrapper (stopInitializers (this w')) ∧
  plugins_prototype (this w') = plugins_prototype (this w).
Proof.
  intros Hret.
  destruct (discover_settles w) as [[files Hdiscover]|[e Hdiscover]].
  2: { unfold initialize, bind in Hret. by rewrite Hdiscover in Hret. }
  destruct (initialize_cases fuel w files Hdiscover)
    as [(e & w1 & Hthrown)|(_ & ls & ss & ps & w1 & w2 & _ & _ & _ & _ & Hun
                            & (Hh1 & _) & Hstarts & Hstops & Hev & Hsame
                            & Heq)];
    [by rewrite Hthrown in Hret|].
  rewrite Heq in Hret.
  destruct Hsame as (Hthis & Hpid & Hapi).
  destruct Hun as (_ & _ & _ & Hpl & Hsc & Hbt & Hpid1 & Hapi1 & Hproto).
  destruct Hev as (_ & _ & Hh & _).
  destruct (first_rejection ls) as [[e|v]|].
  - exfalso. unfold bind in Hret.
    destruct (fatalError fuel (single_error e) "initialize" w2)
      as [a w3| | |] eqn:Hfatal; try done.
    by apply fatalError_never_returns in Hfatal.
  - destruct fuel as [|fuel]; [done|].
    unfold bind in Hret. rewrite fatalError_falsy in Hret.
    injection Hret as <- <-.
    rewrite Hthis, Hpid, Hapi, Hh. simpl. split_and!; done.
  - injection Hret as <- <-.
    simpl. rewrite Hthis, Hpid, Hapi, Hh. simpl. split_and!; done.
Qed.

(** X11: [initialize()] returns exactly when no discovered file is broken
    ([require] throws, or a constructor does), the three maps flatten, and
    the load list runs to its end or up to a step that rejects with a falsy
    value: it returns [api] in the first case and [undefined], which is what
    [fatalError] resolves with on a falsy value, in the second. With every
    priority below 10^21 in absolute value the maps do flatten, and it
    returns [api] exactly when no file is broken and no load method of a
    discovered instance that takes part in the load phase rejects. When it
    returns [api], [initialized] is true; whenever it returns it has not
    touched the PID file, [api.running], [bootTime], [startCount] or the
    plugins. *)
Theorem initialize_returns_iff (fuel : nat) (w : World)
    (initializerFiles : list string) :
  discover w = Returned initializerFiles w →
  let discovered := instances_of (host w) initializerFiles in
  (∀ res,
     (∃ w', initialize (S fuel) w = Returned res w')
     ↔ first_load_failure (host w) initializerFiles = None ∧
       ∃ loadList,
         flattenOrderedInitializer
           (loadInitializerRankings (schedule_all discovered))
         = Some loadList ∧
         is_Some (flattenOrderedInitializer
                    (startInitializerRankings (schedule_all discovered))) ∧
         is_Some (flattenOrderedInitializer
                    (stopInitializerRankings (schedule_all discovered))) ∧
         match res with
         | api => first_rejection loadList = None
         | undefined => ∃ v, first_rejection loadList = Some (a_falsy v)
         end) ∧
  (exact_priorities discovered →
   ((∃ w', initialize (S fuel) w = Returned api w')
    ↔ first_load_failure (host w) initializerFiles = None ∧
      Forall (λ x : loaded,
                0 < Initializer.loadPriority x.1 →
                settles (Initializer.initialize x.1) = None)
             discovered)) ∧
  ∀ res w',
    initialize (S fuel) w = Returned res w' →
    (res = api → initialized (this w') = Some true) ∧
    pidFile w' = pidFile w ∧
    api_running w' = api_running w ∧
    bootTime (this w') = bootTime (this w) ∧
    startCount (this w') = startCount (this w) ∧
    plugins (this w') = plugins (this w).
Proof.
  intros Hdiscover discovered.
  assert (∀ res,
     (∃ w', initialize (S fuel) w = Returned res w')
     ↔ first_load_failure (host w) initializerFiles = None ∧
       ∃ loadList,
         flattenOrderedInitializer
           (loadInitializerRankings (schedule_all discovered))
         = Some loadList ∧
         is_Some (flattenOrderedInitializer
                    (startInitializerRankings (schedule_all discovered))) ∧
         is_Some (flattenOrderedInitializer
                    (stopInitializerRankings (schedule_all discovered))) ∧
         match res with
         | api => first_rejection loadList = None
         | undefined => ∃ v, first_rejection loadList = Some (a_falsy v)
         end) as Hiff.
  { intros res. split.
    - intros (w' & Hret).
      destruct (initialize_cases (S fuel) w initializerFiles Hdiscover)
        as [(e & w1 & Hthrown)|(Hfiles & ls & ss & ps & w1 & w2 & Hls & Hss
                                & Hps & _ & _ & _ & _ & _ & _ & _ & Heq)];
        [by rewrite Hthrown in Hret|].
      fold discovered in Hls, Hss, Hps.
      split; [done|]. exists ls. rewrite Hss, Hps.
      split_and!; [done|by eexists|by eexists|].
      rewrite Heq in Hret.
      destruct (first_rejection ls) as [[e|v]|].
      + exfalso. unfold bind in Hret.
        destruct (fatalError (S fuel) (single_error e) "initialize" w2)
          as [a w3| | |] eqn:Hfatal; try done.
        by apply fatalError_never_returns in Hfatal.
      + unfold bind in Hret. rewrite fatalError_falsy in Hret.
        injection Hret as <- <-. by eexists.
      + by injection Hret as <- <-.
    - intros (Hfiles & ls & Hls & [ss Hss] & [ps Hps] & Hres).
      destruct (initialize_settles (S fuel) w initializerFiles ls ss ps
                  Hdiscover Hfiles Hls Hss Hps)
        as (w1 & w2 & _ & _ & _ & _ & _ & _ & _ & Heq).
      rewrite Heq. destruct res.
      + rewrite Hres. by eexists.
      + destruct Hres as [v ->]. unfold bind. rewrite fatalError_falsy.
        by eexists. }
  split_and!; [exact Hiff| |].
  - intros Hexact. rewrite (Hiff api).
    destruct (exact_priorities_phases _ Hexact) as (Hl & Hs & Hp).
    destruct (load_list discovered Hl) as (lo & Hlo & Horder).
    destruct (start_list discovered Hs) as (so & Hso & _).
    destruct (stop_list discovered Hp) as (po & Hpo & _).
    assert (first_rejection ((λ x : loaded, initializeFunction x.1 x.2) <$> lo)
            = None
            ↔ Forall (λ x : loaded,
                        0 < Initializer.loadPriority x.1 →
                        settles (Initializer.initialize x.1) = None)
                     discovered) as Hload.
    { rewrite first_rejection_none.
      rewrite Forall_fmap, !list.Forall_forall. split.
      - intros Hres x Hx Hpos.
        apply (Hres x).
        by apply (phase_order_complete _ _ _ _ Horder).
      - intros Hall x Hx.
        destruct (phase_order_elem _ _ _ _ Horder Hx) as [Hpos Hin].
        by apply (Hall x). }
    split.
    + intros (Hfiles & ls & Hls & _ & _ & Hnone). split; [done|].
      rewrite Hlo in Hls. injection Hls as <-. by apply Hload.
    + intros (Hfiles & Hall). split; [done|].
      eexists. rewrite Hso, Hpo.
      split_and!; [exact Hlo|by eexists|by eexists|by apply Hload].
  - intros res w' Hret.
    by destruct (initialize_keeps (S fuel) w res w' Hret)
      as (? & ? & ? & ? & ? & ? & _).
Qed.

Lemma initialize_returns_iff_witness :
  (∃ w', initialize 4 (constructed example_host) = Returned api w') ∧
  (∃ w', initialize 4 (constructed (broken_host ["/core/undefined.js"]))
         = Returned undefined w') ∧
  ∀ res w',
    initialize 4 (constructed example_host) = Returned res w' →
    (res = api → initialized (this w') = Some true) ∧
    pidFile w' = false ∧
    api_running w' = None ∧
    bootTime (this w') = None ∧
    startCount (this w') = 0 ∧
    plugins (this w') = [].
Proof.
  split_and!.
  - destruct (initialize_returns_iff 3 (constructed example_host)
                ["/core/a.js"; "/core/b.js"]) as (_ & Hiff & _);
      [vm_compute; reflexivity|].
    apply Hiff.
    + repeat constructor; vm_compute; done.
    + split; [vm_compute; reflexivity|].
      repeat constructor; intros _; reflexivity.
  - destruct (initialize_returns_iff 3
                (constructed (broken_host ["/core/undefined.js"]))
                ["/core/undefined.js"]) as (Hiff & _);
      [vm_compute; reflexivity|].
    apply (Hiff undefined). split; [vm_compute; reflexivity|].
    eexists. split_and!; [vm_compute; reflexivity | by eexists
                          | by eexists |].
    exists js_undefined. vm_compute. reflexivity.
  - destruct (initialize_returns_iff 3 (constructed example_host)
                ["/core/a.js"; "/core/b.js"]) as (_ & _ & Hkeeps);
      [vm_compute; reflexivity|].
    exact Hkeeps.
Defined.

(** X12: when a step of the load list rejects with an error, no later step
    of the list runs, [initialize()] calls [fatalError] with the tag
    [initialize] and the process ends with status 1, with the diagnostics
    logged; [initialized] is not set. On a process that is not running that
    is all: the shutdown runs no step and changes nothing but the log. (The
    start and stop maps have to flatten too: they are read before the load
    list runs.) *)
Theorem initialize_failure_escalates (n : nat) (w : World)
    (initializerFiles : list string) (pre post : list step) (s : step)
    (e : error) :
  discover w = Returned initializerFiles w →
  first_load_failure (host w) initializerFiles = None →
  flattenOrderedInitializer
    (loadInitializerRankings
       (schedule_all (instances_of (host w) initializerFiles)))
  = Some (pre ++ s :: post) →
  is_Some (flattenOrderedInitializer
             (startInitializerRankings
                (schedule_all (instances_of (host w) initializerFiles)))) →
  is_Some (flattenOrderedInitializer
             (stopInitializerRankings
                (schedule_all (instances_of (host w) initializerFiles)))) →
  Forall resolves pre →
  step_rejection s = Some e →
  ∃ w1 w2 w',
    load_files initializerFiles empty_rankings w
    = Returned (schedule_all (instances_of (host w) initializerFiles)) w1 ∧
    initialize (S (S (S (S n)))) w
    = (fatalError (S (S (S (S n)))) (single_error e) "initialize";;
       ret undefined) w2 ∧
    invoked w2 = invoked w1 ++ ((pre ++ [s]) ≫= step_calls) ∧
    initialized (this w2) = initialized (this w1) ∧
    initialize (S (S (S (S n)))) w = Exited 1 w' ∧
    (∃ entries,
       logged w' = logged w2 ++ diagnostics [e] "initialize" ++ entries) ∧
    (truthy (running (this w1)) = false →
     w' = refused (escalated [e] "initialize" w2)).
Proof.
  intros Hdiscover Hfiles Hflat [ss Hss] [ps Hps] Hpre Hs.
  destruct (initialize_settles (S (S (S (S n)))) w initializerFiles
              (pre ++ s :: post) ss ps Hdiscover Hfiles Hflat Hss Hps)
    as (w1 & w2 & Hload & _ & _ & _ & _ & Hev & _ & Heq).
  destruct (first_rejection_app pre s post e Hpre Hs) as [Hfirst Hexec].
  rewrite Hfirst in Heq. rewrite Hexec in Hev.
  destruct Hev as (Hinv & _ & _ & _ & Hrun & Hinit & _).
  destruct (fatalError_exits n [e] "initialize" w2) as (w' & Hexit).
  assert (initialize (S (S (S (S n)))) w = Exited 1 w') as Hend.
  { rewrite Heq. unfold bind. by rewrite fatalError_single, Hexit. }
  exists w1, w2, w'. split_and!; try done.
  - destruct (escalated_fields [e] "initialize" w2) as (Hlog & _).
    rewrite fatalError_unfold in Hexit. unfold bind in Hexit.
    destruct (proj2 (escalation_quiet (S (S (S n))))
                (escalated [e] "initialize" w2) w') as (entries & Hlog' & _).
    { destruct (stop (S (S (S n))) (escalated [e] "initialize" w2));
        unfold process_exit in Hexit; simpl; congruence. }
    exists entries. by rewrite Hlog', Hlog, <- app_assoc.
  - intros Hidle. rewrite fatalError_idle in Hexit; [congruence|].
    by rewrite Hrun.
Qed.

Lemma initialize_failure_escalates_witness :
  ∃ w1 w2 w',
    load_files ["/core/a.js"; "/core/failing.js"] empty_rankings
      (constructed (broken_host ["/core/a.js"; "/core/failing.js"]))
    = Returned
        (schedule_all
           (instances_of (broken_host ["/core/a.js"; "/core/failing.js"])
              ["/core/a.js"; "/core/failing.js"])) w1 ∧
    initialize 4 (constructed (broken_host ["/core/a.js"; "/core/failing.js"]))
    = (fatalError 4 (single_error (new_Error "load failed")) "initialize";;
       ret undefined) w2 ∧
    invoked w2
    = invoked w1
      ++ (([initializeFunction initializer_A "/core/a.js";
            initializeFunction initializer_B "/core/a.js"]
           ++ [initializeFunction failing_load "/core/failing.js"])
          ≫= step_calls) ∧
    initialized (this w2) = initialized (this w1) ∧
    initialize 4 (constructed (broken_host ["/core/a.js"; "/core/failing.js"]))
    = Exited 1 w' ∧
    (∃ entries,
       logged w'
       = logged w2 ++ diagnostics [new_Error "load failed"] "initialize"
         ++ entries) ∧
    (truthy (running (this w1)) = false →
     w' = refused (escalated [new_Error "load failed"] "initialize" w2)).
Proof.
  apply (initialize_failure_escalates 0
           (constructed (broken_host ["/core/a.js"; "/core/failing.js"]))
           ["/core/a.js"; "/core/failing.js"]
           [initializeFunction initializer_A "/core/a.js";
            initializeFunction initializer_B "/core/a.js"] []
           (initializeFunction failing_load "/core/failing.js")
           (new_Error "load failed")).
  - vm_compute. reflexivity.
  - vm_compute. reflexivity.
  - vm_compute. reflexivity.
  - vm_compute. by eexists.
  - vm_compute. by eexists.
  - repeat constructor.
  - reflexivity.
Defined.

Lemma foldl_register_lookup l : ∀ registry name initializer,
  foldl register registry l !! name = Some initializer →
  registry !! name = Some initializer ∨
  ∃ file, (initializer, file) ∈ l ∧
          Initializer.name initializer = name ∧
          Initializer.validate initializer = None ∧
          inherited name = false.
Proof.
  induction l as [|[i f] l IH]; intros registry name initializer; simpl;
    [by left|].
  intros Hlook. apply IH in Hlook as [Hlook|(file & Hin & ?)].
  2: { right. exists file. split; [by right|done]. }
  unfold register in Hlook. simpl in Hlook.
  destruct (has_property registry (Initializer.name i)) eqn:Hhas; [by left|].
  destruct (Initializer.validate i) eqn:Hval; [by left|].
  destruct (decide (Initializer.name i = name)) as [<-|Hne].
  - rewrite lookup_insert_eq in Hlook. injection Hlook as <-.
    right. exists f. split_and!; try done; [left|].
    unfold has_property in Hhas. by apply orb_false_elim in Hhas as [_ ?].
  - rewrite lookup_insert_ne in Hlook by done. by left.
Qed.

(** X13: when [initialize()] returns, the registry holds what it held
    before the call, unchanged, and besides that only discovered instances,
    each under its own name: instances that validate and whose name is not
    one every object inherits. *)
Theorem initialize_registry (fuel : nat) (w : World) (res : result)
    (w' : World) :
  initialize fuel w = Returned res w' →
  ∃ initializerFiles,
    discover w = Returned initializerFiles w ∧
    (∀ name initializer,
       initializers (this w) !! name = Some initializer →
       initializers (this w') !! name = Some initializer) ∧
    (∀ name initializer,
       initializers (this w') !! name = Some initializer →
       initializers (this w) !! name = Some initializer ∨
       ∃ file,
         (initializer, file) ∈ instances_of (host w) initializerFiles ∧
         Initializer.name initializer = name ∧
         Initializer.validate initializer = None ∧
         inherited name = false).
Proof.
  intros Hinit.
  destruct (discover_settles w) as [[files Hdiscover]|[e Hdiscover]].
  2: { unfold initialize, bind in Hinit. by rewrite Hdiscover in Hinit. }
  exists files. split; [done|].
  destruct (initialize_returns fuel w files res w' Hdiscover Hinit)
    as (w1 & lo & so & po & (_ & Hreg & _) & _ & _ & _ & _ & _ & _ & Hsame
        & _).
  rewrite Hsame, Hreg. split.
  - intros name i. apply foldl_register_keeps.
  - intros name i. apply foldl_register_lookup.
Qed.

Lemma initialize_registry_witness :
  ∃ initializerFiles,
    discover registered_example = Returned initializerFiles registered_example ∧
    (∀ name initializer,
       initializers (this registered_example) !! name = Some initializer →
       initializers (this reinitialized_example) !! name
       = Some initializer) ∧
    (∀ name initializer,
       initializers (this reinitialized_example) !! name = Some initializer →
       initializers (this registered_example) !! name = Some initializer ∨
       ∃ file,
         (initializer, file)
         ∈ instances_of (host registered_example) initializerFiles ∧
         Initializer.name initializer = name ∧
         Initializer.validate initializer = None ∧
         inherited name = false).
Proof.
  apply (initialize_registry 4 registered_example api).
  vm_compute. reflexivity.
Defined.

Lemma has_property_register registry (x : loaded) name :
  has_property registry name = true →
  has_property (register registry x) name = true.
Proof.
  unfold has_property. intros [Hown|Hinh]%orb_prop; [|by rewrite Hinh, orb_true_r].
  apply bool_decide_eq_true in Hown as [i Hi].
  apply orb_true_intro. left. apply bool_decide_eq_true.
  exists i. by apply register_keeps.
Qed.

Lemma elem_of_warnings l : ∀ registry entry,
  entry ∈ warnings registry l →
  ∃ x, x ∈ l ∧ entry = Log (warningMessage x.1 x.2) "warning" None.
Proof.
  induction l as [|x l IH]; intros registry entry; simpl; [by intros ?%elem_of_nil|].
  intros [Hin|Hin]%elem_of_app.
  - destruct (has_property registry (Initializer.name x.1));
      [|by apply elem_of_nil in Hin].
    apply list_elem_of_singleton in Hin as ->. exists x. split; [left|done].
  - apply IH in Hin as (y & Hy & ->). exists y. split; [by right|done].
Qed.

Lemma warnings_taken l : ∀ registry (x : loaded),
  x ∈ l → has_property registry (Initializer.name x.1) = true →
  Log (warningMessage x.1 x.2) "warning" None ∈ warnings registry l.
Proof.
  induction l as [|y l IH]; intros registry x Hx Htaken;
    [by apply elem_of_nil in Hx|].
  simpl. apply elem_of_app. apply elem_of_cons in Hx as [<-|Hx].
  - left. rewrite Htaken. left.
  - right. apply IH; [done|]. by apply has_property_register.
Qed.

(** X14: every warning [initialize()] logs, however it ends, is the
    duplicate-name warning of an instance it constructed from a discovered
    file; and when it returns, every discovered instance whose name was in
    the registry before the call, or is a name every object inherits, has
    got its warning. *)
Theorem initialize_warns_for_taken_names (fuel : nat) (w w' : World)
    (initializerFiles : list string) :
  discover w = Returned initializerFiles w →
  final_world (initialize fuel w) = Some w' →
  ∃ entries,
    logged w' = logged w ++ entries ∧
    (∀ entry,
       entry ∈ entries → severity entry = "warning" →
       ∃ x, x ∈ instances_of (host w) initializerFiles ∧
            entry = Log (warningMessage x.1 x.2) "warning" None) ∧
    ∀ res (x : loaded),
      initialize fuel w = Returned res w' →
      x ∈ instances_of (host w) initializerFiles →
      registered w (Initializer.name x.1) = true →
      Log (warningMessage x.1 x.2) "warning" None ∈ entries.
Proof.
  intros Hdiscover Hfin.
  destruct (initialize_warnings fuel w initializerFiles w' Hdiscover Hfin)
    as (processed & entries & Hpre & Hlog & Hwarn).
  exists entries. split; [done|]. split.
  - intros entry Hin Hsev.
    assert (entry ∈ warnings (initializers (this w)) processed) as Hw.
    { rewrite <- Hwarn. by apply list_elem_of_filter. }
    apply elem_of_warnings in Hw as (x & Hx & ->). exists x. split; [|done].
    destruct Hpre as [rest ->]. apply elem_of_app. by left.
  - intros res x Hret Hx Htaken.
    destruct (initialize_returns fuel w initializerFiles res w' Hdiscover Hret)
      as (w1 & lo & so & po & (_ & _ & entries1 & Hlog1 & Hwarn1) & _ & _ & _
          & _ & _ & _ & _ & _ & (entries2 & Hlog2 & _) & _).
    assert (entries = entries1 ++ entries2) as ->.
    { rewrite Hlog1, <- app_assoc in Hlog2. rewrite Hlog in Hlog2.
      by apply app_inv_head in Hlog2. }
    apply elem_of_app. left.
    assert (Log (warningMessage x.1 x.2) "warning" None
            ∈ filter (λ entry, severity entry = "warning") entries1) as Hin.
    { rewrite Hwarn1. by apply warnings_taken. }
    by apply list_elem_of_filter in Hin as [_ ?].
Qed.

Lemma initialize_warns_for_taken_names_witness :
  ∃ entries,
    logged reinitialized_example = logged registered_example ++ entries ∧
    (∀ entry,
       entry ∈ entries → severity entry = "warning" →
       ∃ x, x ∈ instances_of example_host ["/core/a.js"; "/core/b.js"] ∧
            entry = Log (warningMessage x.1 x.2) "warning" None) ∧
    ∀ res (x : loaded),
      initialize 4 registered_example = Returned res reinitialized_example →
      x ∈ instances_of example_host ["/core/a.js"; "/core/b.js"] →
      registered registered_example (Initializer.name x.1) = true →
      Log (warningMessage x.1 x.2) "warning" None ∈ entries.
Proof.
  apply (initialize_warns_for_taken_names 4 registered_example
           reinitialized_example ["/core/a.js"; "/core/b.js"]).
  - vm_compute. reflexivity.
  - vm_compute. reflexivity.
Defined.

(** ** [restart] *)

(** X15: [restart()] on a process that is not running is [start()], with
    [api] for result whatever [start()] returns. On a running process whose
    stop list holds wrappers that all resolve it is [stop()] and then
    [start()]; as [stop()] leaves the process not initialized and the
    registry empty, that [start()] goes through [initialize()] again, and
    when this returns and the new start steps all resolve, [restart()]
    returns [api] with the process running; the start count is what it was
    (1 when it was 0), and the last entry logged is that ActionHero has
    restarted (started, when the count was 0). *)
Theorem restart_stops_then_starts (n : nat) (w : World) :
  (running (this w) ≠ Some true →
   restart (S n) w = (start (S n);; ret api) w) ∧
  (running (this w) = Some true →
   Forall wrapper (stopInitializers (this w)) →
   Forall resolves (stopInitializers (this w)) →
   ∃ w1,
     stop (S n) w = Returned tt w1 ∧
     restart (S n) w = (start (S n);; ret api) w1 ∧
     initialized (this w1) = Some false ∧
     initializers (this w1) = ∅ ∧
     ∀ res w0,
       initialize (S n) w1 = Returned res w0 →
       Forall resolves (startInitializers (this w0)) →
       ∃ w',
         restart (S n) w = Returned api w' ∧
         running (this w') = Some true ∧
         invoked w'
         = invoked w0 ++ (startInitializers (this w0) ≫= step_calls) ∧
         startCount (this w')
         = (if startCount (this w) =? 0 then 1 else startCount (this w)) ∧
         last (logged w')
         = Some (Log (if startCount (this w) =? 0
                      then "*** ActionHero Started ***"
                      else "*** ActionHero Restarted ***") "notice" None)).
Proof.
  split.
  - intros Hr. unfold restart. unfold bind at 1. unfold get at 1.
    by rewrite bool_decide_eq_false_2.
  - intros Hr Hwrap Hres.
    assert (truthy (running (this w)) = true) as Htruthy by by rewrite Hr.
    destruct (stop_resolves n w Htruthy Hres) as (w1 & Hev & Hsame & Hstop).
    destruct (Hsame Hwrap) as (Hthis & _).
    destruct Hev as (_ & _ & _ & _ & _ & Hinit & _).
    match type of Hstop with
    | _ = Returned tt ?x => set (ws := x) in *
    end.
    assert (restart (S n) w = (start (S n);; ret api) ws) as Hrestart.
    { unfold restart. unfold bind at 1. unfold get at 1.
      rewrite bool_decide_eq_true_2 by done.
      unfold bind at 1. rewrite Hstop. unfold bind.
      by destruct (start (S n) ws). }
    exists ws. split; [exact Hstop|]. split; [exact Hrestart|].
    split; [exact Hinit|]. split; [done|].
    intros res w0 Hinit0 Hstarts.
    destruct (initialize_keeps (S n) ws res w0 Hinit0)
      as (_ & _ & _ & _ & Hcount & _ & _ & Hwrap0 & _).
    assert (startCount (this w0) = startCount (this w)) as Hcount0.
    { rewrite Hcount. simpl. by rewrite Hthis. }
    destruct (start_resolves (S n) ws w0)
      as (w2 & Hev2 & (Hthis2 & _) & Hstart); [|done|done|].
    { unfold begins. rewrite bool_decide_eq_false_2; [by exists res|].
      simpl. rewrite Hinit. done. }
    rewrite Hrestart. unfold bind. rewrite Hstart. rewrite Hcount0.
    eexists. split; [reflexivity|].
    destruct Hev2 as (Hinv2 & _).
    destruct (startCount (this w) =? 0) eqn:Hzero; simpl;
      rewrite Hthis2, ?Hinv2; simpl; split_and!; try done.
    + apply Z.eqb_eq in Hzero. by rewrite Hzero.
    + by rewrite last_snoc.
    + by rewrite last_snoc.
Qed.

Lemma restart_stops_then_starts_witness :
  ∃ w',
    restart 4 started_once = Returned api w' ∧
    running (this w') = Some true ∧
    invoked w'
    = invoked initialized_again
      ++ [start_call initializer_A; start_call initializer_B] ∧
    startCount (this w') = 1 ∧
    last (logged w') = Some (Log "*** ActionHero Restarted ***" "notice" None).
Proof.
  destruct (restart_stops_then_starts 3 started_once) as [_ Hrunning].
  destruct Hrunning as (w1 & Hstop & _ & _ & _ & Hstart).
  - reflexivity.
  - repeat constructor.
  - repeat constructor.
  - apply (Hstart api initialized_again).
    + assert (w1 = stopped_once) as ->.
      { assert (stop 4 started_once = Returned tt stopped_once) as Heq
          by (vm_compute; reflexivity).
        rewrite Hstop in Heq. by injection Heq. }
      vm_compute. reflexivity.
    + vm_compute. repeat constructor.
Defined.

(** ** What a wrapper logs *)

(** X16: a wrapper whose instance lacks the method of its phase does
    nothing: it logs nothing and invokes nothing. Otherwise it invokes the
    method once and settles as the method does, rethrowing what the method
    rejects with; when the method rejects it logs one entry at emerg
    severity, whose detail is [toString()] of what was caught, and none
    otherwise. An error has a [toString()], so a method that rejects with an
    error gets the entry and the wrapper rejects with that error. On
    [undefined] and [null] the call of [toString()] itself throws: no entry
    is logged then, the load wrapper still rejects with what it caught, and
    a start or stop wrapper rejects with the [TypeError]. *)
Theorem wrapper_logs_the_rejection (s : step) (w : World) :
  wrapper s →
  ∃ w' entries,
    run_step s w = settled (step_rejection s) w' ∧
    invoked w' = invoked w ++ step_calls s ∧
    logged w' = logged w ++ entries ∧
    (step_calls s = [] → entries = []) ∧
    match method_rejection s with
    | Some value =>
        match thrown_toString value with
        | inr detail =>
            step_rejection s = Some value ∧
            ∃ message,
              filter (λ entry, severity entry = "emerg") entries
              = [Log message "emerg" (Some detail)]
        | inl type_error =>
            step_rejection s
            = Some (if s is initializeFunction _ _ then value
                    else an_error type_error) ∧
            filter (λ entry, severity entry = "emerg") entries = []
        end
    | None =>
        step_rejection s = None ∧
        filter (λ entry, severity entry = "emerg") entries = []
    end ∧
    ∀ e : error,
      method_rejection s = Some (an_error e) →
      step_rejection s = Some (an_error e) ∧
      ∃ message,
        filter (λ entry, severity entry = "emerg") entries
        = [Log message "emerg" (Some (error_toString e))].
Proof.
  destruct s as [i f|i f|i f| |]; simpl; try done; intros _.
  - unfold run_initializeFunction.
    destruct (Initializer.initialize i) as [[|[e|[]]]|]; simpl;
      (eexists _, _; split; [reflexivity|]; simpl;
       split; [by rewrite ?app_nil_r|];
       split; [first [reflexivity | rewrite <- app_assoc; reflexivity
                     | symmetry; apply app_nil_r]|]);
      split_and!; try done; eauto;
      try (intros e' [= ->]; eauto).
  - unfold run_startFunction.
    destruct (Initializer.start i) as [[|[e|[]]]|]; simpl;
      (eexists _, _; split; [reflexivity|]; simpl;
       split; [by rewrite ?app_nil_r|];
       split; [first [reflexivity | rewrite <- app_assoc; reflexivity
                     | symmetry; apply app_nil_r]|]);
      split_and!; try done; eauto;
      try (intros e' [= ->]; eauto).
  - unfold run_stopFunction.
    destruct (Initializer.stop i) as [[|[e|[]]]|]; simpl;
      (eexists _, _; split; [reflexivity|]; simpl;
       split; [by rewrite ?app_nil_r|];
       split; [first [reflexivity | rewrite <- app_assoc; reflexivity
                     | symmetry; apply app_nil_r]|]);
      split_and!; try done; eauto;
      try (intros e' [= ->]; eauto).
Qed.

Lemma wrapper_logs_the_rejection_witness :
  ∃ w' entries,
    run_step (stopFunction initializer_B "/core/a.js")
      (constructed example_host)
    = Thrown (new_Error "stop failed") w' ∧
    invoked w' = [stop_call initializer_B] ∧
    logged w' = entries ∧
    (step_calls (stopFunction initializer_B "/core/a.js") = [] →
     entries = []) ∧
    ∃ message,
      filter (λ entry, severity entry = "emerg") entries
      = [Log message "emerg" (Some "Error: stop failed")].
Proof.
  destruct (wrapper_logs_the_rejection
              (stopFunction initializer_B "/core/a.js")
              (constructed example_host) I)
    as (w' & entries & Hrun & Hinv & Hlog & Hnone & _ & Herror).
  exists w', entries.
  split_and!; [exact Hrun | exact Hinv | exact Hlog | exact Hnone |].
  destruct (Herror (new_Error "stop failed") eq_refl) as [_ Hentry].
  exact Hentry.
Defined.

(** ** What holds whenever a lifecycle method returns *)

Lemma start_returned fuel w res w' :
  start fuel w = Returned res w' →
  ∃ w0,
    begins fuel w w0 ∧
    running (this w') = Some true ∧
    initialized (this w') = initialized (this w0) ∧
    (initialized (this w0) = Some true ∨
     initialize fuel w = Returned undefined w0) ∧
    match res with
    | api => Forall resolves (startInitializers (this w0))
    | undefined =>
        ∃ v, first_rejection (startInitializers (this w0))
             = Some (a_falsy v)
    end.
Proof.
  intros Hret.
  assert (∃ w0, begins fuel w w0 ∧
                (initialized (this w0) = Some true ∨
                 initialize fuel w = Returned undefined w0))
    as (w0 & Hbegin & Hinit).
  { unfold begins. unfold start in Hret. unfold bind at 1 in Hret.
    unfold get at 1 in Hret. unfold bind at 1 in Hret.
    case_bool_decide as Hi; [exists w; by split; [|left]|].
    unfold bind at 1 in Hret.
    destruct (initialize fuel w) as [r w0| | |] eqn:Hinitialize; try done.
    exists w0. split; [by exists r|].
    destruct r; [left|by right].
    by apply (initialize_keeps fuel w api w0 Hinitialize). }
  exists w0. split; [done|].
  rewrite (start_unfold fuel w w0 Hbegin) in Hret.
  unfold bind at 1 in Hret. unfold caught, try_catch in Hret.
  unfold bind at 1 in Hret.
  destruct (asyncWaterfall_evolves
              (startInitializers (this w0) ++ [startTerminal]) (starting w0))
    as (w1 & Hrun & Hev & _).
  rewrite Hrun in Hret. rewrite first_rejection_snoc in Hret by done.
  destruct Hev as (_ & _ & _ & _ & Hr & Hi & _).
  destruct (first_rejection (startInitializers (this w0))) as [[e|v]|]
    eqn:Hfirst; simpl in Hret.
  - exfalso. unfold bind in Hret.
    destruct (fatalError fuel (single_error e) "start" w1)
      as [a w2| | |] eqn:Hfatal; try done.
    by apply fatalError_never_returns in Hfatal.
  - destruct fuel as [|fuel]; [done|].
    unfold bind in Hret. rewrite fatalError_falsy in Hret.
    injection Hret as <- <-. rewrite Hr, Hi. split_and!; try done.
    by exists v.
  - injection Hret as <- <-. rewrite Hr, Hi. split_and!; try done.
    by apply first_rejection_none.
Qed.

Lemma stop_returned fuel w w' :
  stop fuel w = Returned tt w' → truthy (running (this w')) = false.
Proof.
  destruct fuel as [|n]; [done|].
  destruct (truthy (running (this w))) eqn:Hr.
  - rewrite stop_unfold by done. unfold try_catch.
    destruct (asyncWaterfall_evolves
                (stopInitializers (this w) ++ [stopTerminal]) (stopping w))
      as (w1 & -> & Hev & _).
    destruct Hev as (_ & _ & _ & _ & Hrun & _).
    destruct (first_rejection _) as [[e|v]|]; simpl.
    + intros Hfatal. by apply fatalError_never_returns in Hfatal.
    + destruct n as [|n]; [done|]. rewrite fatalError_falsy.
      intros [= <-]. by rewrite Hrun.
    + intros [= <-]. by rewrite Hrun.
  - rewrite stop_refused by done. intros [= <-].
    destruct (refused_fields w) as (-> & _). done.
Qed.

(** X17: whenever [start()] returns, the process is running; it returns
    [api] when every step of the start list resolved, and [undefined], which
    is what [fatalError] resolves with on a falsy value, when the first step
    to reject did so with a falsy value; [initialized] is then true unless
    [initialize()], called by [start()], itself returned [undefined] that
    way. Whenever [stop()] returns, the process is not running. Whenever
    [restart()] returns, it returns [api] and the process is running. A
    failure with an error never shows in what these methods return: they
    reject, or the process exits. *)
Theorem lifecycle_postconditions (fuel : nat) (w w' : World) :
  (∀ res,
     start fuel w = Returned res w' →
     running (this w') = Some true ∧
     ∃ w0,
       begins fuel w w0 ∧
       initialized (this w') = initialized (this w0) ∧
       (initialized (this w0) = Some true ∨
        initialize fuel w = Returned undefined w0) ∧
       match res with
       | api => Forall resolves (startInitializers (this w0))
       | undefined =>
           ∃ v, first_rejection (startInitializers (this w0))
                = Some (a_falsy v)
       end) ∧
  (stop fuel w = Returned tt w' → truthy (running (this w')) = false) ∧
  (∀ res, restart fuel w = Returned res w' →
          res = api ∧ running (this w') = Some true).
Proof.
  split_and!.
  - intros res Hstart.
    destruct (start_returned fuel w res w' Hstart)
      as (w0 & ? & ? & ? & ? & ?).
    split; [done|]. by exists w0.
  - apply stop_returned.
  - intros res. unfold restart. unfold bind at 1. unfold get at 1.
    case_bool_decide.
    + unfold bind at 1.
      destruct (stop fuel w) as [[] w1| | |]; try done.
      unfold bind. destruct (start fuel w1) as [r w2| | |] eqn:Hstart;
        try done.
      intros [= <- <-].
      by destruct (start_returned fuel w1 r w2 Hstart) as (_ & _ & ? & _).
    + unfold bind. destruct (start fuel w) as [r w2| | |] eqn:Hstart;
        try done.
      intros [= <- <-].
      by destruct (start_returned fuel w r w2 Hstart) as (_ & _ & ? & _).
Qed.

Lemma lifecycle_postconditions_witness :
  (running (this started_a) = Some true ∧
   initialized (this started_a) = Some true) ∧
  (start 4 (constructed (broken_host ["/core/zero.js"]))
   = Returned undefined started_zero ∧
   running (this started_zero) = Some true) ∧
  truthy (running (this stopped_example)) = false.
Proof.
  destruct (lifecycle_postconditions 4 (constructed (host_of ["/core/a.js"]))
              started_a) as (Hstart & _ & Hrestart).
  destruct (lifecycle_postconditions 4
              (constructed (broken_host ["/core/zero.js"])) started_zero)
    as (Hzero & _ & _).
  destruct (lifecycle_postconditions 1 running_example stopped_example)
    as (_ & Hstop & _).
  split_and!.
  - by destruct (Hstart api) as (? & _); [vm_compute; reflexivity|].
  - destruct (Hstart api) as (_ & w0 & _ & -> & [Hinit|Hinit] & _);
      [vm_compute; reflexivity|exact Hinit|].
    vm_compute in Hinit. discriminate Hinit.
  - vm_compute. reflexivity.
  - by destruct (Hzero undefined) as (? & _); [vm_compute; reflexivity|].
  - apply Hstop. vm_compute. reflexivity.
Defined.

(** ** [initialize] a second time *)

Lemma discover_plugins_same h entries : ∀ initializerFiles files w w',
  discover_plugins h entries initializerFiles w = Returned files w →
  discover_plugins h entries initializerFiles w' = Returned files w'.
Proof.
  induction entries as [|[name d] entries IH]; intros fs files w w'; simpl.
  - by intros [= <-].
  - destruct (existsSync h (path_normalize h (path d))); simpl; [|done].
    apply IH.
Qed.

Lemma discover_same w w' files :
  host w' = host w → plugins (this w') = plugins (this w) →
  plugins_prototype (this w') = plugins_prototype (this w) →
  discover w = Returned files w → discover w' = Returned files w'.
Proof.
  intros Hh Hp Hproto. unfold discover, bind, get, inherited_names.
  rewrite Hh, Hp, Hproto.
  match goal with
  | |- context [discover_plugins ?h ?es ?fs w] =>
      destruct (discover_plugins h es fs w) as [fs' w0| | |] eqn:Hplug;
      try done;
      destruct (discover_plugins_settles h es fs w) as [[fs'' Hs]|[e Hs]];
      rewrite Hs in Hplug; try done; injection Hplug as <- <-;
      rewrite (discover_plugins_same h es fs fs'' w w' Hs)
  end.
  destruct (match plugins_prototype (this w) with
            | Some _ => _ | None => _ end); [|done].
  unfold ret. by intros [= <-].
Qed.

Lemma has_property_foldl l : ∀ registry name,
  has_property registry name = true →
  has_property (foldl register registry l) name = true.
Proof.
  induction l as [|x l IH]; intros registry name Hp; simpl; [done|].
  by apply IH, has_property_register.
Qed.

Lemma foldl_register_has l : ∀ registry (x : loaded),
  x ∈ l → Initializer.validate x.1 = None →
  has_property (foldl register registry l) (Initializer.name x.1) = true.
Proof.
  induction l as [|y l IH]; intros registry x Hx Hval;
    [by apply elem_of_nil in Hx|].
  simpl. apply elem_of_cons in Hx as [<-|Hx]; [|by apply IH].
  apply has_property_foldl. unfold register.
  destruct (has_property registry (Initializer.name x.1)) eqn:Hhas; [done|].
  rewrite Hval. unfold has_property. apply orb_true_intro. left.
  apply bool_decide_eq_true. rewrite lookup_insert_eq. by eexists.
Qed.

Lemma foldl_register_fixed l : ∀ registry,
  Forall (λ x : loaded,
            has_property registry (Initializer.name x.1) = true ∨
            Initializer.validate x.1 ≠ None) l →
  foldl register registry l = registry.
Proof.
  induction l as [|x l IH]; intros registry Hall; simpl; [done|].
  apply Forall_cons in Hall as [Hx Hall].
  assert (register registry x = registry) as ->; [|by apply IH].
  unfold register. destruct Hx as [->|Hval]; [done|].
  destruct (has_property registry (Initializer.name x.1)); [done|].
  by destruct (Initializer.validate x.1).
Qed.

(** X18: [initialize()] is not guarded against a second call: called again
    after it has returned, with no [stop()] in between, it discovers the same
    files, and when it returns again the registry is exactly what the first
    call left, and every discovered instance whose [validate] passes, or
    whose name was taken before the first call, has got a duplicate-name
    warning. *)
Theorem initialize_twice_warns (fuel fuel' : nat) (w w1 w2 : World)
    (initializerFiles : list string) (res res' : result) :
  discover w = Returned initializerFiles w →
  initialize fuel w = Returned res w1 →
  initialize fuel' w1 = Returned res' w2 →
  discover w1 = Returned initializerFiles w1 ∧
  initializers (this w2) = initializers (this w1) ∧
  ∃ entries,
    logged w2 = logged w1 ++ entries ∧
    ∀ x : loaded,
      x ∈ instances_of (host w) initializerFiles →
      Initializer.validate x.1 = None ∨
      registered w (Initializer.name x.1) = true →
      Log (warningMessage x.1 x.2) "warning" None ∈ entries.
Proof.
  intros Hdiscover Hfirst Hsecond.
  destruct (initialize_keeps fuel w res w1 Hfirst)
    as (_ & _ & _ & _ & _ & Hplugins & Hhost & _ & _ & Hproto).
  pose proof (discover_same w w1 initializerFiles Hhost Hplugins Hproto
                Hdiscover) as Hdiscover1.
  split; [done|].
  destruct (initialize_returns fuel w initializerFiles res w1 Hdiscover Hfirst)
    as (v1 & lo & so & po & (_ & Hreg & _) & _ & _ & _ & _ & _ & _ & Hsame
        & _).
  destruct (initialize_returns fuel' w1 initializerFiles res' w2 Hdiscover1
              Hsecond)
    as (v2 & lo' & so' & po' & (_ & Hreg' & entries1 & Hlog1 & Hwarn1) & _ & _
        & _ & _ & _ & _ & Hsame' & _ & (entries2 & Hlog2 & _) & _).
  rewrite Hhost in *.
  set (discovered := instances_of (host w) initializerFiles) in *.
  assert (∀ x : loaded,
            x ∈ discovered →
            Initializer.validate x.1 = None ∨
            registered w (Initializer.name x.1) = true →
            registered w1 (Initializer.name x.1) = true) as Htaken.
  { intros x Hx Hor. unfold registered. rewrite Hsame, Hreg.
    destruct Hor as [Hval|Hold].
    - by apply foldl_register_has.
    - by apply has_property_foldl. }
  split.
  - rewrite Hsame', Hreg'. apply foldl_register_fixed.
    apply list.Forall_forall. intros x Hx.
    destruct (Initializer.validate x.1) eqn:Hval; [by right|].
    left. apply Htaken; auto.
  - exists (entries1 ++ entries2). split.
    { by rewrite Hlog2, Hlog1, app_assoc. }
    intros x Hx Hor. apply elem_of_app. left.
    assert (Log (warningMessage x.1 x.2) "warning" None
            ∈ filter (λ entry, severity entry = "warning") entries1) as Hin.
    { rewrite Hwarn1. apply warnings_taken; [done|]. by apply Htaken. }
    by apply list_elem_of_filter in Hin as [_ ?].
Qed.

Lemma initialize_twice_warns_witness :
  discover initialized_example
  = Returned ["/core/a.js"; "/core/b.js"] initialized_example ∧
  initializers (this initialized_twice)
  = initializers (this initialized_example) ∧
  ∃ entries,
    logged initialized_twice = logged initialized_example ++ entries ∧
    ∀ x : loaded,
      x ∈ instances_of example_host ["/core/a.js"; "/core/b.js"] →
      Initializer.validate x.1 = None ∨
      registered (constructed example_host) (Initializer.name x.1) = true →
      Log (warningMessage x.1 x.2) "warning" None ∈ entries.
Proof.
  apply (initialize_twice_warns 4 4 (constructed example_host)
           initialized_example initialized_twice
           ["/core/a.js"; "/core/b.js"] api api).
  - vm_compute. reflexivity.
  - vm_compute. reflexivity.
  - vm_compute. reflexivity.
Defined.

(** ** A project without initializers *)

Lemma discover_nothing h w :
  (∀ pattern, glob_sync h pattern = []) →
  host w = h → plugins (this w) = [] → plugins_prototype (this w) = None →
  discover w = Returned [] w.
Proof.
  intros Hglob Hh Hp Hproto. unfold discover, bind, get, inherited_names.
  rewrite Hh, Hp, Hproto, Hglob.
  assert (∀ paths,
            foldl (λ (initializerFiles : list string) (startPath : string),
                     initializerFiles ++
                     glob_sync h
                       (path_join h [startPath; "**"; "**/*(*.js|*.ts)"]))
                  [] paths = []) as ->.
  { induction paths as [|p paths IH]; simpl; [done|]. by rewrite Hglob. }
  reflexivity.
Qed.

(** X19: on a process just constructed, to which no plugin was added, on a
    host whose globs find no file, [start()] initializes with three empty
    lists and returns [api]: no method of any initializer is invoked, the
    registry is empty, the process is initialized and running with start
    count 1, and the log holds the environment, the two notes of [start()]
    and the server ID, in the order of the code. *)
Theorem start_without_initializers (fuel : nat) (h : Host) :
  (∀ pattern, glob_sync h pattern = []) →
  ∃ w',
    start fuel (constructed h) = Returned api w' ∧
    invoked w' = [] ∧
    initializers (this w') = ∅ ∧
    initialized (this w') = Some true ∧
    running (this w') = Some true ∧
    startCount (this w') = 1 ∧
    detached w' = [] ∧
    logged w'
    = [Log ("environment: " +:+ env h) "notice" None;
       Log "*** Starting ActionHero ***" "info" None;
       Log ("server ID: " +:+ id h) "notice" None;
       Log "*** ActionHero Started ***" "notice" None].
Proof.
  intros Hglob.
  assert (flattenOrderedInitializer (∅ : gmap Z (list step)) = Some [])
    as Hflat by (vm_compute; reflexivity).
  assert (initialize fuel (constructed h)
          = Returned api
              (on_this (set_initialized (Some true)) (constructed h)))
    as Hinit.
  { unfold initialize. unfold bind at 1.
    rewrite (discover_nothing h) by done.
    unfold bind at 1. simpl load_files. unfold ret at 1.
    unfold flattened. simpl loadInitializerRankings.
    simpl startInitializerRankings. simpl stopInitializerRankings.
    rewrite Hflat. reflexivity. }
  unfold start. unfold bind at 1. unfold get at 1. unfold bind at 1.
  rewrite bool_decide_eq_false_2 by done.
  unfold bind at 1. rewrite Hinit.
  eexists. split; [reflexivity|]. simpl. done.
Qed.

Lemma start_without_initializers_witness :
  ∃ w',
    start 0 (constructed empty_host) = Returned api w' ∧
    invoked w' = [] ∧
    initializers (this w') = ∅ ∧
    initialized (this w') = Some true ∧
    running (this w') = Some true ∧
    startCount (this w') = 1 ∧
    detached w' = [] ∧
    logged w'
    = [Log "environment: test" "notice" None;
       Log "*** Starting ActionHero ***" "info" None;
       Log "server ID: server-1" "notice" None;
       Log "*** ActionHero Started ***" "notice" None].
Proof.
  apply (start_without_initializers 0 empty_host).
  intros pattern. unfold empty_host, host_of. simpl.
  by destruct (String.eqb pattern _).
Defined.

(** ** A stop step that rejects *)

(** X20: when a wrapper of the stop list rejects, the wrappers before it
    having resolved, the clean-up that [stop()] pushes at the end of the list
    never runs: the process exits with status 1
    with the PID file, [api.running] and the registry as they were before
    [stop()], and [shuttingDown] still true. *)
Theorem stop_failure_skips_cleanup (n : nat) (w : World)
    (pre post : list step) (s : step) (e : error) :
  truthy (running (this w)) = true →
  stopInitializers (this w) = pre ++ s :: post →
  Forall wrapper pre →
  wrapper s →
  Forall resolves pre →
  step_rejection s = Some e →
  ∃ w',
    stop (S (S (S n))) w = Exited 1 w' ∧
    pidFile w' = pidFile w ∧
    api_running w' = api_running w ∧
    initializers (this w') = initializers (this w) ∧
    shuttingDown (this w') = Some true ∧
    running (this w') = Some false ∧
    invoked w' = invoked w ++ ((pre ++ [s]) ≫= step_calls).
Proof.
  intros Hr Hstops Hwrap Hs Hres Hrej.
  destruct (stop_running n w Hr) as (w1 & _ & Hev & Hsame & ->).
  rewrite Hstops, <- app_assoc in Hev, Hsame |- *. simpl in Hev, Hsame |- *.
  destruct (first_rejection_app pre s (post ++ [stopTerminal]) e Hres Hrej)
    as [-> Hexec].
  rewrite Hexec in Hev, Hsame.
  destruct Hsame as (Hthis & Hpid & Hapi).
  { apply Forall_app. split; [done|]. by constructor. }
  destruct Hev as (Hinv & _).
  eexists. split; [reflexivity|].
  destruct (escalated_fields [e] "stop" w1) as (_ & Hthis' & Hinv').
  destruct (log_all_fields (diagnostics [e] "stop") w1)
    as (_ & _ & _ & Hpid' & Hapi' & _).
  fold (escalated [e] "stop" w1) in Hpid', Hapi'.
  unfold refused.
  case_bool_decide; simpl;
    rewrite ?Hthis', ?Hinv', ?Hpid', ?Hapi', Hthis, ?Hpid, ?Hapi, ?Hinv;
    done.
Qed.

Lemma stop_failure_skips_cleanup_witness :
  ∃ w',
    stop 3
      (set_pidFile true
         (running_with example_host
            [stopFunction initializer_A "/core/a.js";
             stopFunction initializer_B "/core/a.js"]))
    = Exited 1 w' ∧
    pidFile w' = true ∧
    api_running w' = None ∧
    initializers (this w') = ∅ ∧
    shuttingDown (this w') = Some true ∧
    running (this w') = Some false ∧
    invoked w' = [stop_call initializer_A; stop_call initializer_B].
Proof.
  apply (stop_failure_skips_cleanup 0
           (set_pidFile true
              (running_with example_host
                 [stopFunction initializer_A "/core/a.js";
                  stopFunction initializer_B "/core/a.js"]))
           [stopFunction initializer_A "/core/a.js"] []
           (stopFunction initializer_B "/core/a.js")
           (new_Error "stop failed")).
  - reflexivity.
  - reflexivity.
  - repeat constructor.
  - exact I.
  - repeat constructor.
  - reflexivity.
Defined.
